(** * go-hpb synchroniser (package synctrl, lightSync) and p2p peer sets

    A shallow embedding of the parts of the light/fast synchroniser and of
    the p2p [Peer] known-hash sets that the specification talks about,
    together with the properties proved about them.

    Conventions.
    - Go's [uint64], [uint32], [int64] and [int] values are integers in [Z];
      wrap-around is written out with [u64] and [i64] where the source can
      overflow.
    - [big.Int] values (header numbers, total difficulty) are unbounded [Z].
    - [common.Hash] (a 32 byte array) is a 256 bit number in [Z].
    - [float64] is IEEE 754 binary64, given by [spec_float] with a 53 bit
      mantissa and round to nearest even.
    - An [error] result is [option error] with [None] for [nil].
    - Callbacks handed to the synchroniser ([dropPeer], [setIdle]) are
      recorded as events, in call order.
    - A [select] over channels is driven by an explicit list of the events
      that fire, in the order in which the goroutine observes them. *)

From Stdlib Require Import ZArith Lia Bool List.
From Stdlib Require Import Floats.SpecFloat.
From stdpp Require Import gmap strings list fin_maps fin_sets.

#[local] Set Warnings "-clear-no-such-hyp".

Local Open Scope Z_scope.

(** ** Machine integers *)

Definition u64 (z : Z) : Z := z mod 2 ^ 64.
Definition u32 (z : Z) : Z := z mod 2 ^ 32.
Definition i64 (z : Z) : Z := (z + 2 ^ 63) mod 2 ^ 64 - 2 ^ 63.

(** The methods [Uint64] and [Int64] of [big.Int]: the low 64 bits of the
    magnitude, with the sign applied for [Int64]. *)
Definition Uint64 (x : Z) : Z := u64 (Z.abs x).
Definition Int64 (x : Z) : Z :=
  if x <? 0 then i64 (- u64 (Z.abs x)) else i64 (u64 (Z.abs x)).

(** ** Shared data *)

Definition common_Hash := Z.

(** [types.Header]: only the fields the synchroniser reads.  [Hash] stands
    for the result of the method [Hash()]. *)
Record Header := mkHeader {
  Number : Z;
  Hash : common_Hash;
  Root : common_Hash
}.

#[global] Instance Header_eq_dec : EqDecision Header.
Proof. solve_decision. Defined.

Inductive SyncMode := FullSync | FastSync | LightSync.

#[global] Instance SyncMode_eq_dec : EqDecision SyncMode.
Proof. solve_decision. Defined.

(** The package level error values.  Go compares them by identity; every
    error that is not one of the package's own is [errOther]. *)
Inductive error :=
  | errBusy | errUnknownPeer | errBadPeer | errStallingPeer | errNoPeers
  | errTimeout | errEmptyHeaderSet | errPeersUnavailable | errProVLowerBase
  | errInvalidAncestor | errInvalidChain | errInvalidBlock | errInvalidBody
  | errInvalidReceipt | errCancelBlockFetch | errCancelHeaderFetch
  | errCancelBodyFetch | errCancelReceiptFetch | errCancelStateFetch
  | errCancelHeaderProcessing | errCancelContentProcessing
  | errNoSyncActive | errTooOld | errStaleDelivery
  | errOther (msg : string).

#[global] Instance error_eq_dec : EqDecision error.
Proof. solve_decision. Defined.

(** ** Tunable constants *)

(** Modelled from the spec: the constant block of the synchroniser is not
    part of the sources at hand; the values are those of the specification's
    list of tunable constants. *)
Definition MaxHeaderFetch : Z := 192.
Definition MaxForkAncestry : Z := 90000.
Definition fsPivotInterval : Z := 64.
Definition fsMinFullBlocks : Z := 64.
Definition fsHeaderCheckFrequency : Z := 100.
Definition fsHeaderSafetyNet : Z := 2048.
Definition fsHeaderForceVerify : Z := 24.
Definition fsCriticalTrials : Z := 10.
Definition maxHeadersProcess : Z := 2048.
Definition maxQueuedHeaders : Z := 32 * 1024.
Definition qosConfidenceCap : Z := 10.
(** [rttMinConfidence * 1000000], the constant expression of the source. *)
Definition rttMinConfidence_millionths : Z := 100000.
(** Durations are nanoseconds, as in [time.Duration]. *)
Definition second : Z := 1000000000.
Definition rttMaxEstimate : Z := 20 * second.
Definition ttlScaling : Z := 3.
Definition ttlLimit : Z := 60 * second.

(** From [part_001] (package p2p). *)
Definition maxKnownTxs : Z := 1000000.
Definition maxKnownBlocks : Z := 100000.

(** ** The synchroniser state *)

Record peerConnection := mkPeerConnection {
  id : string;
  version : Z
}.

#[global] Instance peerConnection_eq_dec : EqDecision peerConnection.
Proof. solve_decision. Defined.

(** State of the cancel channel: [chNil] before the first session. *)
Inductive chan_state := chNil | chOpen | chClosed.

(** Invocations of the callbacks: [this.dropPeer(pid)] and the [setIdle]
    argument of the fetch loop, [setIdle(peer, accepted)]. *)
Inductive call :=
  | CallDropPeer (pid : string)
  | CallSetIdle (peer : peerConnection) (accepted : Z).

(** Arguments of the last [sch.Prepare] call. *)
Record prepared := mkPrepared {
  prep_offset : Z;
  prep_mode : SyncMode;
  prep_pivot : Z;
  prep_head : Header
}.

Record lightSync := mkLightSync {
  mode : SyncMode;
  fsPivotLock : option Header;
  fsPivotFails : Z;
  rttEstimate : Z;
  rttConfidence : Z;
  syncStatsChainOrigin : Z;
  syncStatsChainHeight : Z;
  synchroniseMock : option (string -> common_Hash -> option error);
  synchronising : Z;
  notified : Z;
  cancelPeer : string;
  cancelCh : chan_state;
  peers : gmap string peerConnection;
  sch_prepared : option prepared;
  (** invocations of the callbacks, oldest first *)
  calls : list call
}.

Definition set_mode (m : SyncMode) (s : lightSync) : lightSync :=
  mkLightSync m (fsPivotLock s) (fsPivotFails s) (rttEstimate s)
    (rttConfidence s) (syncStatsChainOrigin s) (syncStatsChainHeight s)
    (synchroniseMock s) (synchronising s) (notified s) (cancelPeer s)
    (cancelCh s) (peers s) (sch_prepared s) (calls s).

Definition set_fsPivotFails (n : Z) (s : lightSync) : lightSync :=
  mkLightSync (mode s) (fsPivotLock s) n (rttEstimate s)
    (rttConfidence s) (syncStatsChainOrigin s) (syncStatsChainHeight s)
    (synchroniseMock s) (synchronising s) (notified s) (cancelPeer s)
    (cancelCh s) (peers s) (sch_prepared s) (calls s).

Definition set_rttConfidence (c : Z) (s : lightSync) : lightSync :=
  mkLightSync (mode s) (fsPivotLock s) (fsPivotFails s) (rttEstimate s)
    c (syncStatsChainOrigin s) (syncStatsChainHeight s)
    (synchroniseMock s) (synchronising s) (notified s) (cancelPeer s)
    (cancelCh s) (peers s) (sch_prepared s) (calls s).

Definition set_syncStats (o h : Z) (s : lightSync) : lightSync :=
  mkLightSync (mode s) (fsPivotLock s) (fsPivotFails s) (rttEstimate s)
    (rttConfidence s) o h
    (synchroniseMock s) (synchronising s) (notified s) (cancelPeer s)
    (cancelCh s) (peers s) (sch_prepared s) (calls s).

Definition set_synchronising (v : Z) (s : lightSync) : lightSync :=
  mkLightSync (mode s) (fsPivotLock s) (fsPivotFails s) (rttEstimate s)
    (rttConfidence s) (syncStatsChainOrigin s) (syncStatsChainHeight s)
    (synchroniseMock s) v (notified s) (cancelPeer s)
    (cancelCh s) (peers s) (sch_prepared s) (calls s).

Definition set_notified (v : Z) (s : lightSync) : lightSync :=
  mkLightSync (mode s) (fsPivotLock s) (fsPivotFails s) (rttEstimate s)
    (rttConfidence s) (syncStatsChainOrigin s) (syncStatsChainHeight s)
    (synchroniseMock s) (synchronising s) v (cancelPeer s)
    (cancelCh s) (peers s) (sch_prepared s) (calls s).

Definition set_cancel (p : string) (c : chan_state) (s : lightSync) : lightSync :=
  mkLightSync (mode s) (fsPivotLock s) (fsPivotFails s) (rttEstimate s)
    (rttConfidence s) (syncStatsChainOrigin s) (syncStatsChainHeight s)
    (synchroniseMock s) (synchronising s) (notified s) p
    c (peers s) (sch_prepared s) (calls s).

Definition set_fsPivotLock (l : option Header) (s : lightSync) : lightSync :=
  mkLightSync (mode s) l (fsPivotFails s) (rttEstimate s)
    (rttConfidence s) (syncStatsChainOrigin s) (syncStatsChainHeight s)
    (synchroniseMock s) (synchronising s) (notified s) (cancelPeer s)
    (cancelCh s) (peers s) (sch_prepared s) (calls s).

Definition set_sch_prepared (p : prepared) (s : lightSync) : lightSync :=
  mkLightSync (mode s) (fsPivotLock s) (fsPivotFails s) (rttEstimate s)
    (rttConfidence s) (syncStatsChainOrigin s) (syncStatsChainHeight s)
    (synchroniseMock s) (synchronising s) (notified s) (cancelPeer s)
    (cancelCh s) (peers s) (Some p) (calls s).

(** [this.dropPeer(id)]: the callback is recorded. *)
Definition dropPeer (pid : string) (s : lightSync) : lightSync :=
  mkLightSync (mode s) (fsPivotLock s) (fsPivotFails s) (rttEstimate s)
    (rttConfidence s) (syncStatsChainOrigin s) (syncStatsChainHeight s)
    (synchroniseMock s) (synchronising s) (notified s) (cancelPeer s)
    (cancelCh s) (peers s) (sch_prepared s) (calls s ++ [CallDropPeer pid]).

(** [cancel]: close the cancel channel unless it is nil or already closed. *)
Definition cancel (s : lightSync) : lightSync :=
  match cancelCh s with
  | chOpen => set_cancel (cancelPeer s) chClosed s
  | _ => s
  end.

(** [this.peers.Peer(id)] and [this.peers.Len()]. *)
Definition peers_Peer (s : lightSync) (pid : string) : option peerConnection :=
  peers s !! pid.

Definition peers_Len (s : lightSync) : Z := Z.of_nat (size (peers s)).

#[global] Instance call_eq_dec : EqDecision call.
Proof. solve_decision. Defined.

(** [setIdle(peer, accepted)] of the fetch loop: the callback is recorded. *)
Definition setIdle (peer : peerConnection) (accepted : Z) (s : lightSync) : lightSync :=
  mkLightSync (mode s) (fsPivotLock s) (fsPivotFails s) (rttEstimate s)
    (rttConfidence s) (syncStatsChainOrigin s) (syncStatsChainHeight s)
    (synchroniseMock s) (synchronising s) (notified s) (cancelPeer s)
    (cancelCh s) (peers s) (sch_prepared s) (calls s ++ [CallSetIdle peer accepted]).

(** ** [start], [syn] and [syncWithPeer] *)

(** What [syncWithPeer] calls and this development keeps abstract: the
    protocol version bound, the height probe, the ancestor search as seen
    from the caller, the draw [rand.Int(rand.Reader, fsPivotInterval)]
    (assumed to succeed; the source panics otherwise) and [spawnSync] with
    the five workers. *)
Record syncEnv := mkSyncEnv {
  ProtocolV111 : Z;
  env_fetchHeight : lightSync -> peerConnection -> Header + error;
  env_findAncestor : lightSync -> peerConnection -> Z -> Z + error;
  pivotOffset : Z;
  env_spawnSync :
    lightSync -> peerConnection -> Z -> Z -> Header -> option error * lightSync
}.

(** The pivot selection of [syncWithPeer] (the [switch this.mode] before
    [sch.Prepare]): the new [(origin, pivot)]. *)
Definition syncWithPeer_pivot (s : lightSync) (offset height origin : Z) : Z * Z :=
  match mode s with
  | FullSync => (origin, 0)
  | LightSync => (origin, height)
  | FastSync =>
      let pivot :=
        match fsPivotLock s with
        | None =>
            if height >? u64 (fsMinFullBlocks + Uint64 offset)
            then u64 (u64 (height - fsMinFullBlocks) - Uint64 offset)
            else 0
        | Some lock => Uint64 (Number lock)
        end in
      let origin :=
        if pivot <? origin
        then (if pivot >? 0 then u64 (pivot - 1) else 0)
        else origin in
      (origin, pivot)
  end.

Definition syncWithPeer (env : syncEnv) (s : lightSync) (p : peerConnection)
    (hash : common_Hash) (td : Z) : option error * lightSync :=
  if version p <? ProtocolV111 env then (Some errProVLowerBase, s) else
  match env_fetchHeight env s p with
  | inr err => (Some err, s)
  | inl latest =>
      let height := Uint64 (Number latest) in
      match env_findAncestor env s p height with
      | inr err => (Some err, s)
      | inl origin =>
          let s1 :=
            set_syncStats
              (if (syncStatsChainHeight s <=? origin) || (syncStatsChainOrigin s >? origin)
               then origin else syncStatsChainOrigin s)
              height s in
          let '(origin, pivot) := syncWithPeer_pivot s1 (pivotOffset env) height origin in
          let s2 := set_sch_prepared (mkPrepared (u64 (origin + 1)) (mode s1) pivot latest) s1 in
          let '(err, s3) := env_spawnSync env s2 p (u64 (origin + 1)) td latest in
          match err, mode s3, fsPivotLock s3 with
          | Some _, FastSync, Some _ =>
              (err, set_fsPivotFails (u32 (fsPivotFails s3 + 1)) s3)
          | _, _, _ => (err, s3)
          end
      end
  end.

(** The mode a session runs in: [this.mode = mode] and the degradation. *)
Definition syn_mode (s : lightSync) (m : SyncMode) : SyncMode :=
  match m with
  | FastSync => if fsPivotFails s >=? fsCriticalTrials then FullSync else FastSync
  | _ => m
  end.

(** The state of [syn] once admitted, at the lookup of the master peer: the
    [synchronising] and [notified] flags, the fresh cancel channel, the
    master peer and the session's mode.  The resets of the scheduler and of
    the peers' idle state and the draining of the channels touch nothing
    that this state holds. *)
Definition syn_enter (s : lightSync) (pid : string) (m : SyncMode) : lightSync :=
  let s := set_synchronising 1 s in
  let s := if notified s =? 0 then set_notified 1 s else s in
  let s := set_cancel pid chOpen s in
  set_mode (syn_mode s m) s.

(** The deferred calls of [syn], last registered first. *)
Definition syn_exit (r : option error * lightSync) : option error * lightSync :=
  (fst r, set_synchronising 0 (cancel (snd r))).

Definition syn (env : syncEnv) (s : lightSync) (pid : string)
    (hash : common_Hash) (td : Z) (m : SyncMode) : option error * lightSync :=
  match synchroniseMock s with
  | Some mock => (mock pid hash, s)
  | None =>
      if negb (synchronising s =? 0) then (Some errBusy, s) else
      let s1 := syn_enter s pid m in
      match peers_Peer s1 pid with
      | None => syn_exit (Some errUnknownPeer, s1)
      | Some p => syn_exit (syncWithPeer env s1 p hash td)
      end
  end.

Definition start (env : syncEnv) (s : lightSync) (pid : string)
    (head : common_Hash) (td : Z) (m : SyncMode) : option error * lightSync :=
  let '(err, s') := syn env s pid head td m in
  match err with
  | None => (err, s')
  | Some errBusy => (err, s')
  | Some errTimeout | Some errBadPeer | Some errStallingPeer
  | Some errEmptyHeaderSet | Some errPeersUnavailable | Some errProVLowerBase
  | Some errInvalidAncestor | Some errInvalidChain =>
      (err, dropPeer pid s')
  | Some _ => (err, s')
  end.

(** ** The fetch loop: the expiry part of an update pass *)

(** One iteration of [for pid, fails := range expire()]. *)
Definition fetchParts_expire_one (s : lightSync) (e : string * Z) : lightSync :=
  match peers_Peer s e.1 with
  | Some peer => if e.2 >? 2 then setIdle peer 0 s else dropPeer e.1 s
  | None => s
  end.

(** The [update] case of [fetchParts] up to the end of the expiry loop, for
    the map [expired] returned by [expire()].  Go ranges over a map in an
    unspecified order; the order used here is that of [map_to_list].  The
    result is [inr errNoPeers] when the loop returns and [inl] the state the
    pass continues with otherwise. *)
Definition fetchParts_update_expire (s : lightSync) (expired : gmap string Z)
    : lightSync + error :=
  if peers_Len s =? 0 then inr errNoPeers
  else inl (foldl fetchParts_expire_one s (map_to_list expired)).

(** ** The QoS estimator *)

(** [float64] arithmetic: conversion of an integer, division, [<], and the
    conversion to [int64], which truncates towards zero; outside the range
    of [int64] (and for infinities and NaN) Go leaves the result to the
    implementation, and amd64 gives the smallest [int64]. *)
Definition float64 := spec_float.

Definition float64_of_Z (z : Z) : float64 := binary_normalize 53 1024 z 0 false.

Definition float64_div (x y : float64) : float64 := SFdiv 53 1024 x y.

Definition float64_lt (x y : float64) : bool := SFltb x y.

Definition int64_of_float64 (f : float64) : Z :=
  match f with
  | S754_zero _ => 0
  | S754_finite s m e =>
      let a := if 0 <=? e then Zpos m * 2 ^ e else Zpos m / 2 ^ (- e) in
      let v := if s then - a else a in
      if (- 2 ^ 63 <=? v) && (v <? 2 ^ 63) then v else - 2 ^ 63
  | _ => - 2 ^ 63
  end.

(** Powers of two around the 53 bit mantissa. *)
Definition P52 : Z := 4503599627370496.
Definition P53 : Z := 9007199254740992.
Definition P54 : Z := 18014398509481984.

(** Modelled from the spec: the constant [rttMinConfidence] is 0.1; as a
    [float64] that is 7205759403792794 * 2^-56. *)
Definition rttMinConfidence : float64 := S754_finite false 7205759403792794 (-56).

(** [time.Duration(rttEstimate) * 9 / 10]. *)
Definition requestRTT (s : lightSync) : Z :=
  Z.quot (i64 (i64 (rttEstimate s) * 9)) 10.

Definition requestTTL (s : lightSync) : Z :=
  let rtt := i64 (rttEstimate s) in
  let conf := float64_div (float64_of_Z (rttConfidence s)) (float64_of_Z 1000000) in
  let ttl := i64 (ttlScaling * int64_of_float64 (float64_div (float64_of_Z rtt) conf)) in
  if ttl >? ttlLimit then ttlLimit else ttl.

Definition qosReduceConfidence (s : lightSync) : lightSync :=
  let peers := u64 (peers_Len s) in
  if peers =? 0 then s
  else if peers =? 1 then set_rttConfidence 1000000 s
  else if peers >=? u64 qosConfidenceCap then s
  else
    let conf := u64 (rttConfidence s * u64 (peers - 1)) / peers in
    let conf :=
      if float64_lt (float64_div (float64_of_Z conf) (float64_of_Z 1000000)) rttMinConfidence
      then rttMinConfidence_millionths else conf in
    set_rttConfidence conf s.

(** ** Known hashes of a p2p peer ([part_001]) *)

(** [set.Set] of gopkg.in/fatih/set.v0, as far as [Peer] uses it: [Size],
    [Has], [Add] and [Pop], which removes some element of a non-empty set.
    Which one is left open: [PopChoice] is any way to choose. *)
Record PopChoice := mkPopChoice {
  pick : gset common_Hash -> option common_Hash;
  pick_elem : forall s x, pick s = Some x -> x ∈ s;
  pick_empty : forall s, pick s = None -> s = ∅
}.

Definition set_Pop (pc : PopChoice) (s : gset common_Hash) : gset common_Hash :=
  match pick pc s with
  | Some x => s ∖ {[x]}
  | None => s
  end.

Definition set_Size (s : gset common_Hash) : Z := Z.of_nat (size s).

Record Peer := mkPeer {
  peer_id : string;
  peer_version : Z;
  knownTxs : gset common_Hash;
  knownBlocks : gset common_Hash
}.

Definition NewPeer (pid : string) (v : Z) : Peer := mkPeer pid v ∅ ∅.

(** [for s.Size() >= max { s.Pop() }], with [fuel] iterations at most;
    [None] when they do not suffice. *)
Fixpoint evict (pc : PopChoice) (max : Z) (fuel : nat) (s : gset common_Hash)
    : option (gset common_Hash) :=
  if set_Size s >=? max then
    match fuel with
    | O => None
    | S fuel' => evict pc max fuel' (set_Pop pc s)
    end
  else Some s.

(** The loop runs at most once per element of the set. *)
Definition KnownBlockAdd (pc : PopChoice) (p : Peer) (hash : common_Hash) : option Peer :=
  match evict pc maxKnownBlocks (size (knownBlocks p)) (knownBlocks p) with
  | Some s => Some (mkPeer (peer_id p) (peer_version p) (knownTxs p) ({[hash]} ∪ s))
  | None => None
  end.

Definition KnownBlockHas (p : Peer) (hash : common_Hash) : bool :=
  bool_decide (hash ∈ knownBlocks p).

Definition KnownBlockSize (p : Peer) : Z := set_Size (knownBlocks p).

Definition KnownTxsAdd (pc : PopChoice) (p : Peer) (hash : common_Hash) : option Peer :=
  match evict pc maxKnownTxs (size (knownTxs p)) (knownTxs p) with
  | Some s => Some (mkPeer (peer_id p) (peer_version p) ({[hash]} ∪ s) (knownBlocks p))
  | None => None
  end.

Definition KnownTxsHas (p : Peer) (hash : common_Hash) : bool :=
  bool_decide (hash ∈ knownTxs p).

Definition KnownTxsSize (p : Peer) : Z := set_Size (knownTxs p).

(** A sequence of calls, stopping at the first that does not return. *)
Fixpoint KnownBlockAdd_all (pc : PopChoice) (p : Peer) (l : list common_Hash) : option Peer :=
  match l with
  | [] => Some p
  | h :: l' =>
      match KnownBlockAdd pc p h with
      | Some p' => KnownBlockAdd_all pc p' l'
      | None => None
      end
  end.

Fixpoint KnownTxsAdd_all (pc : PopChoice) (p : Peer) (l : list common_Hash) : option Peer :=
  match l with
  | [] => Some p
  | h :: l' =>
      match KnownTxsAdd pc p h with
      | Some p' => KnownTxsAdd_all pc p' l'
      | None => None
      end
  end.

(** A choice that exists: the first element in the order of [elements]. *)
Definition pick_first (s : gset common_Hash) : option common_Hash := head (elements s).

Definition PopFirst : PopChoice.
Proof.
  refine (mkPopChoice pick_first _ _); unfold pick_first; intros s.
  - intros x H. apply elem_of_elements.
    destruct (elements s) as [|y l]; simplify_eq/=. left.
  - intros H. apply leibniz_equiv, elements_empty_inv.
    destruct (elements s); simplify_eq/=. done.
Defined.

(** ** The chain store and the scheduler, as the synchroniser sees them *)

(** The collaborators of the header pipeline over a world [W]: the light
    chain, the process wide block chain and the scheduler.
    - [CurrentHeaderNumber] is [lightchain.CurrentHeader().Number.Uint64()],
      [CurrentBlockNumber] and [CurrentFastBlockNumber] those of the block
      chain; [CurrentHeaderTd] and [CurrentBlockTd] are [GetTdByHash] at the
      current header and block.
    - [InsertHeaderChain w chunk frequency] gives [(n, err, w')].
    - [Schedule w chunk origin] gives the number of inserts.
    - [stall] is the back-pressure loop of [processHeaders], which waits
      until the scheduler's pending counts are below [maxQueuedHeaders]:
      whether it ended by cancellation, and the world after it.
    - [cancelled] is whether the cancel channel is closed. *)
Class ChainEnv (W : Type) := {
  CurrentHeaderNumber : W -> Z;
  CurrentBlockNumber : W -> Z;
  CurrentFastBlockNumber : W -> Z;
  HasBlockAndState : W -> common_Hash -> bool;
  HasHeader : W -> common_Hash -> Z -> bool;
  GetHeaderByHash : W -> common_Hash -> option Header;
  CurrentHeaderTd : W -> Z;
  CurrentBlockTd : W -> Z;
  InsertHeaderChain : W -> list Header -> Z -> Z * option error * W;
  Rollback : W -> list common_Hash -> W;
  FastSyncPivot : W -> Z;
  Schedule : W -> list Header -> Z -> Z * W;
  stall : W -> bool * W;
  cancelled : W -> bool
}.

(** How a function ends: it returns, or the program panics. *)
Inductive outcome := Return (err : option error) | Panic.

Definition len {A} (l : list A) : Z := Z.of_nat (length l).

(** ** [processHeaders] *)

Record phState (W : Type) := mkPh {
  ph_world : W;
  ph_rollback : list Header;
  ph_origin : Z
}.
Arguments mkPh {W}.
Arguments ph_world {W}.
Arguments ph_rollback {W}.
Arguments ph_origin {W}.

Inductive ph_event := PhCancel | PhHeaders (headers : list Header).

(** The headers of [chunk] the chain does not have yet. *)
Definition ph_unknown `{ChainEnv W} (w : W) (chunk : list Header) : list Header :=
  List.filter (fun h => negb (HasHeader w (Hash h) (Uint64 (Number h)))) chunk.

Definition ph_frequency (pivot : Z) (chunk : list Header) : Z :=
  match last chunk with
  | Some l =>
      if u64 (Uint64 (Number l) + u64 fsHeaderForceVerify) >? pivot
      then 1 else fsHeaderCheckFrequency
  | None => fsHeaderCheckFrequency
  end.

(** [rollback = append(rollback[:0], rollback[len(rollback)-fsHeaderSafetyNet:]...)]
    when the list is longer than [fsHeaderSafetyNet]. *)
Definition ph_trim (rollback : list Header) : list Header :=
  if len rollback >? fsHeaderSafetyNet
  then drop (Z.to_nat (len rollback - fsHeaderSafetyNet)) rollback
  else rollback.

(** The header-only validation of a chunk ([FastSync] and [LightSync]).
    [inl] is the state the chunk goes on with, [inr] the way
    [processHeaders] ends.  [chunk] is [headers[:limit]] and [rest] is
    [headers[limit:]], the part of the batch behind it.

    On an error of [InsertHeaderChain] the source first appends
    [chunk[:n]] to the rollback list when [n > 0], and only then reads
    [chunk[n]] for the log line.  The slice expression [chunk[:n]] is
    bounded by the capacity of [chunk], which is the capacity of [headers],
    while the index expression [chunk[n]] is bounded by its length.  What
    a backing array holds behind the batch is not told by the sources: a
    batch [PhHeaders headers] is taken to fill its backing array
    (capacity = length), so that
    - for [n < 0] nothing is appended and [chunk[n]] panics;
    - for [n = 0] nothing is appended and [errInvalidChain] is returned;
    - for [0 < n < len(chunk)] the first [n] headers are appended and
      [errInvalidChain] is returned;
    - for [len(chunk) <= n <= len(headers)] the first [n] headers of the
      batch are appended, and then [chunk[n]] panics;
    - for [n > len(headers)] the slice expression panics, before the
      append.
    In every case the deferred call sees the list as it is at that point,
    and the chain as [InsertHeaderChain] left it. *)
Definition ph_insert `{ChainEnv W} (s : lightSync) (pivot : Z) (st : phState W)
    (chunk rest : list Header) : phState W + outcome * phState W :=
  match mode s with
  | FullSync => inl st
  | _ =>
      let unknown := ph_unknown (ph_world st) chunk in
      let '(n, err, w') := InsertHeaderChain (ph_world st) chunk (ph_frequency pivot chunk) in
      match err with
      | Some _ =>
          if (n >? 0) && (n >? len (chunk ++ rest))
          then inr (Panic, mkPh w' (ph_rollback st) (ph_origin st))
          else
            let rollback :=
              if n >? 0 then ph_rollback st ++ take (Z.to_nat n) (chunk ++ rest)
              else ph_rollback st in
            if (n <? 0) || (n >=? len chunk)
            then inr (Panic, mkPh w' rollback (ph_origin st))
            else inr (Return (Some errInvalidChain), mkPh w' rollback (ph_origin st))
      | None =>
          inl (mkPh w' (ph_trim (ph_rollback st ++ unknown)) (ph_origin st))
      end
  end.

(** The cross-check of the pivot header: [None] when the chunk goes on. *)
Definition ph_pivot_check (s : lightSync) (pivot : Z) (chunk : list Header)
    : option outcome :=
  match mode s, fsPivotLock s, head chunk, last chunk with
  | FastSync, Some lock, Some first, Some lst =>
      if (Uint64 (Number first) <=? pivot) && (Uint64 (Number lst) >=? pivot) then
        let idx := i64 (u64 (pivot - Uint64 (Number first))) in
        if idx <? 0 then Some Panic
        else
          match chunk !! Z.to_nat idx with
          | None => Some Panic
          | Some h =>
              if bool_decide (Hash h ≠ Hash lock)
              then Some (Return (Some errInvalidChain)) else None
          end
      else None
  | _, _, _, _ => None
  end.

(** Scheduling of the chunk for content retrieval ([FullSync], [FastSync]). *)
Definition ph_schedule `{ChainEnv W} (s : lightSync) (st : phState W)
    (chunk : list Header) : phState W + outcome * phState W :=
  match mode s with
  | LightSync => inl st
  | _ =>
      let '(c, w1) := stall (ph_world st) in
      if c then
        inr (Return (Some errCancelHeaderProcessing),
             mkPh w1 (ph_rollback st) (ph_origin st))
      else
        let '(inserts, w2) := Schedule w1 chunk (ph_origin st) in
        if negb (inserts =? len chunk) then
          inr (Return (Some errBadPeer), mkPh w2 (ph_rollback st) (ph_origin st))
        else inl (mkPh w2 (ph_rollback st) (ph_origin st))
  end.

(** What one round of [for len(headers) > 0] does with its chunk, after the
    check of the cancel channel. *)
Definition ph_chunk_step `{ChainEnv W} (s : lightSync) (pivot : Z) (st : phState W)
    (chunk rest : list Header) : phState W + outcome * phState W :=
  match ph_insert s pivot st chunk rest with
  | inr r => inr r
  | inl st1 =>
      match ph_pivot_check s pivot chunk with
      | Some out => inr (out, st1)
      | None => ph_schedule s st1 chunk
      end
  end.

Definition ph_limit (headers : list Header) : Z :=
  if maxHeadersProcess >? len headers then len headers else maxHeadersProcess.

(** [for len(headers) > 0 { ... }], with [fuel] rounds at most. *)
Fixpoint ph_chunks `{ChainEnv W} (fuel : nat) (s : lightSync) (pivot : Z)
    (st : phState W) (headers : list Header)
    : option (phState W + outcome * phState W) :=
  match headers with
  | [] => Some (inl st)
  | _ :: _ =>
      match fuel with
      | O => None
      | S fuel' =>
          if cancelled (ph_world st)
          then Some (inr (Return (Some errCancelHeaderProcessing), st))
          else
            let limit := ph_limit headers in
            match ph_chunk_step s pivot st (take (Z.to_nat limit) headers)
                    (drop (Z.to_nat limit) headers) with
            | inr r => Some (inr r)
            | inl st' =>
                ph_chunks fuel' s pivot
                  (mkPh (ph_world st') (ph_rollback st') (u64 (ph_origin st' + limit)))
                  (drop (Z.to_nat limit) headers)
            end
      end
  end.

(** The loop of [processHeaders] over what arrives on the cancel channel
    and on [headerProcCh]; [None] when the events end with the goroutine
    still waiting.  The result is the outcome and the state at the return,
    before the deferred call. *)
Fixpoint ph_loop `{ChainEnv W} (s : lightSync) (pivot td : Z) (evs : list ph_event)
    (gotHeaders : bool) (st : phState W) : option (outcome * phState W) :=
  match evs with
  | [] => None
  | PhCancel :: _ => Some (Return (Some errCancelHeaderProcessing), st)
  | PhHeaders [] :: _ =>
      if bool_decide (mode s ≠ LightSync) && negb gotHeaders
         && (td >? CurrentBlockTd (ph_world st))
      then Some (Return (Some errStallingPeer), st)
      else if (bool_decide (mode s = FastSync) || bool_decide (mode s = LightSync))
              && (td >? CurrentHeaderTd (ph_world st))
      then Some (Return (Some errStallingPeer), st)
      else Some (Return None, mkPh (ph_world st) [] (ph_origin st))
  | PhHeaders headers :: rest =>
      match ph_chunks (length headers) s pivot st headers with
      | None => None
      | Some (inr r) => Some r
      | Some (inl st') => ph_loop s pivot td rest true st'
      end
  end.

(** The deferred call: roll the uncertain headers back and latch the pivot. *)
Definition ph_deferred `{ChainEnv W} (s : lightSync) (pivot : Z) (st : phState W)
    : lightSync * W :=
  match last (ph_rollback st) with
  | None => (s, ph_world st)
  | Some lst =>
      let w' := Rollback (ph_world st) (map Hash (ph_rollback st)) in
      let s' :=
        if (Uint64 (Number lst) >? pivot) && (fsPivotFails s =? 0)
        then foldl (fun s h => if Uint64 (Number h) =? pivot
                               then set_fsPivotLock (Some h) s else s)
                   s (ph_rollback st)
        else s in
      (s', w')
  end.

Definition processHeaders `{ChainEnv W} (s : lightSync) (w : W) (origin td : Z)
    (evs : list ph_event) : option (outcome * lightSync * W) :=
  let pivot := FastSyncPivot w in
  match ph_loop s pivot td evs false (mkPh w [] origin) with
  | None => None
  | Some (out, st) =>
      let '(s', w') := ph_deferred s pivot st in Some (out, s', w')
  end.




(** The contract of [InsertHeaderChain] that the chain store keeps: the
    index it returns with an error lies inside the chunk. *)
Definition insert_index_ok `{ChainEnv W} : Prop :=
  forall (w : W) chunk f,
    match InsertHeaderChain w chunk f with
    | (n, Some _, _) => chunk <> [] -> 0 <= n < len chunk
    | _ => True
    end.

(** The batches of a run. *)
Definition ph_batches (evs : list ph_event) : list (list Header) :=
  omap (fun ev => match ev with PhHeaders hs => Some hs | PhCancel => None end) evs.

(** ** [findAncestor] *)

(** What the [select] statements of [findAncestor] can receive: the cancel
    channel, a header packet of some peer, the timeout, and packets on the
    body and receipt channels. *)
Inductive fa_event :=
  | FaCancel
  | FaHeaders (peerId : string) (headers : list Header)
  | FaTimeout
  | FaBody
  | FaReceipt.

Definition fa_ceil `{ChainEnv W} (s : lightSync) (w : W) : Z :=
  match mode s with
  | FullSync => CurrentBlockNumber w
  | FastSync => CurrentFastBlockNumber w
  | LightSync => CurrentHeaderNumber w
  end.

Definition fa_floor (ceil : Z) : Z :=
  if ceil >=? MaxForkAncestry then i64 (u64 (ceil - MaxForkAncestry)) else -1.

Definition fa_head (ceil height : Z) : Z :=
  if ceil >? height then height else ceil.

Definition fa_from (head : Z) : Z :=
  let from := i64 (i64 head - i64 MaxHeaderFetch) in
  if from <? 0 then 0 else from.

Definition fa_limit : Z := 2 * MaxHeaderFetch / 16.

(** The number of headers asked for, 16 blocks apart. *)
Definition fa_count (ceil from : Z) : Z :=
  let count := 1 + i64 (Z.quot (i64 (i64 ceil - from)) 16) in
  if count >? fa_limit then fa_limit else count.

(** The reply conforms to the request: header [i] has number [from + 16 i]. *)
Fixpoint fa_conforms (from i : Z) (headers : list Header) : bool :=
  match headers with
  | [] => true
  | h :: hs =>
      (Int64 (Number h) =? i64 (from + i64 (i64 i * 16)))
      && fa_conforms from (i + 1) hs
  end.

Definition fa_known `{ChainEnv W} (s : lightSync) (w : W) (h : Header) : bool :=
  match mode s with
  | FullSync => HasBlockAndState w (Hash h)
  | _ => HasHeader w (Hash h) (Uint64 (Number h))
  end.

Inductive scan_result :=
  | ScanNone
  | ScanFound (number : Z) (hash : common_Hash)
  | ScanStalling.

(** [for i := len(headers) - 1; i >= 0; i--], from index [n - 1] down. *)
Fixpoint fa_scan `{ChainEnv W} (s : lightSync) (w : W) (from ceil height : Z)
    (headers : list Header) (n : nat) : scan_result :=
  match n with
  | O => ScanNone
  | S i =>
      match headers !! i with
      | None => ScanNone
      | Some h =>
          if (Int64 (Number h) <? from) || (Uint64 (Number h) >? ceil)
          then fa_scan s w from ceil height headers i
          else if fa_known s w h then
            if (Uint64 (Number h) >? height) && (Z.of_nat i =? fa_limit - 1)
            then ScanStalling
            else ScanFound (Uint64 (Number h)) (Hash h)
          else fa_scan s w from ceil height headers i
      end
  end.

(** The wait for the reply to the head fetch: the error, or the number and
    hash found (zero when none) and the events left. *)
Fixpoint fa_probe `{ChainEnv W} (s : lightSync) (w : W) (p : peerConnection)
    (from ceil height : Z) (evs : list fa_event)
    : option (error + Z * common_Hash * list fa_event) :=
  match evs with
  | [] => None
  | FaCancel :: _ => Some (inl errCancelHeaderFetch)
  | FaTimeout :: _ => Some (inl errTimeout)
  | FaBody :: rest | FaReceipt :: rest => fa_probe s w p from ceil height rest
  | FaHeaders pid headers :: rest =>
      if bool_decide (pid ≠ id p) then fa_probe s w p from ceil height rest
      else if len headers =? 0 then Some (inl errEmptyHeaderSet)
      else if negb (fa_conforms from 0 headers) then Some (inl errInvalidChain)
      else
        match fa_scan s w from ceil height headers (length headers) with
        | ScanStalling => Some (inl errStallingPeer)
        | ScanFound number hash => Some (inr (number, hash, rest))
        | ScanNone => Some (inr (0, 0, rest))
        end
  end.

(** The binary search: [for start+1 < end], one reply of the master peer
    per round. *)
Fixpoint fa_search `{ChainEnv W} (s : lightSync) (w : W) (p : peerConnection)
    (start end_ : Z) (evs : list fa_event) : option (outcome * Z) :=
  if negb (u64 (start + 1) <? end_) then Some (Return None, start) else
  match evs with
  | [] => None
  | FaCancel :: _ => Some (Return (Some errCancelHeaderFetch), 0)
  | FaTimeout :: _ => Some (Return (Some errTimeout), 0)
  | FaBody :: rest | FaReceipt :: rest => fa_search s w p start end_ rest
  | FaHeaders pid headers :: rest =>
      if bool_decide (pid ≠ id p) then fa_search s w p start end_ rest
      else
        let check := u64 (start + end_) / 2 in
        match headers with
        | [h] =>
            if negb (fa_known s w h) then fa_search s w p start check rest
            else
              match GetHeaderByHash w (Hash h) with
              | None => Some (Panic, 0)
              | Some header =>
                  if negb (Uint64 (Number header) =? check)
                  then Some (Return (Some errBadPeer), 0)
                  else fa_search s w p check end_ rest
              end
        | _ => Some (Return (Some errBadPeer), 0)
        end
  end.

(** [findAncestor]: the outcome and the ancestor's number. *)
Definition findAncestor `{ChainEnv W} (s : lightSync) (w : W) (p : peerConnection)
    (height : Z) (evs : list fa_event) : option (outcome * Z) :=
  let ceil := fa_ceil s w in
  let floor := fa_floor ceil in
  let head := fa_head ceil height in
  let from := fa_from head in
  match fa_probe s w p from ceil height evs with
  | None => None
  | Some (inl err) => Some (Return (Some err), 0)
  | Some (inr (number, hash, rest)) =>
      if negb (hash =? 0) then
        if i64 number <=? floor then Some (Return (Some errInvalidAncestor), 0)
        else Some (Return None, number)
      else
        let start := if floor >? 0 then u64 floor else 0 in
        match fa_search s w p start head rest with
        | None => None
        | Some (Return None, start) =>
            if i64 start <=? floor then Some (Return (Some errInvalidAncestor), 0)
            else Some (Return None, start)
        | Some r => Some r
        end
  end.

(** Events the wait for the master peer's reply passes over. *)
Definition fa_ignored (p : peerConnection) (ev : fa_event) : Prop :=
  match ev with
  | FaBody | FaReceipt => True
  | FaHeaders pid _ => pid <> id p
  | _ => False
  end.

(** ** A small chain store to run the definitions on *)

(** The chain holds the headers [tc_known]; [InsertHeaderChain] stops at the
    first header whose hash is in [tc_bad]; the scheduler accepts every
    header and is never full; nothing is cancelled. *)
Record TestChain := mkTestChain {
  tc_known : list Header;
  tc_bad : list common_Hash;
  tc_number : Z;
  tc_td : Z;
  tc_pivot : Z
}.

Fixpoint tc_first_bad (bad : list common_Hash) (n : Z) (chunk : list Header) : option Z :=
  match chunk with
  | [] => None
  | h :: hs => if bool_decide (Hash h ∈ bad) then Some n else tc_first_bad bad (n + 1) hs
  end.

Definition tc_insert (w : TestChain) (chunk : list Header) (frequency : Z)
    : Z * option error * TestChain :=
  match tc_first_bad (tc_bad w) 0 chunk with
  | Some n =>
      (n, Some (errOther "invalid header"),
       mkTestChain (take (Z.to_nat n) chunk ++ tc_known w) (tc_bad w)
         (tc_number w) (tc_td w) (tc_pivot w))
  | None =>
      (len chunk, None,
       mkTestChain (chunk ++ tc_known w) (tc_bad w)
         (tc_number w) (tc_td w) (tc_pivot w))
  end.

Definition tc_rollback (w : TestChain) (hashes : list common_Hash) : TestChain :=
  mkTestChain (List.filter (fun h => negb (bool_decide (Hash h ∈ hashes))) (tc_known w))
    (tc_bad w) (tc_number w) (tc_td w) (tc_pivot w).

#[global] Instance TestChain_env : ChainEnv TestChain := {
  CurrentHeaderNumber := tc_number;
  CurrentBlockNumber := tc_number;
  CurrentFastBlockNumber := tc_number;
  HasBlockAndState w h := existsb (fun k => Hash k =? h) (tc_known w);
  HasHeader w h n :=
    existsb (fun k => (Hash k =? h) && (Uint64 (Number k) =? n)) (tc_known w);
  GetHeaderByHash w h := List.find (fun k => Hash k =? h) (tc_known w);
  CurrentHeaderTd := tc_td;
  CurrentBlockTd := tc_td;
  InsertHeaderChain := tc_insert;
  Rollback := tc_rollback;
  FastSyncPivot := tc_pivot;
  Schedule w chunk origin := (len chunk, w);
  stall w := (false, w);
  cancelled w := false
}.

(** A chain store that keeps no record of the headers it accepts, and
    whose [InsertHeaderChain] reports the length of the chunk as the index
    when the chunk holds a bad header. *)
Record LaxChain := mkLaxChain { lax_chain : TestChain }.

Definition lax_insert (w : LaxChain) (chunk : list Header) (frequency : Z)
    : Z * option error * LaxChain :=
  match tc_first_bad (tc_bad (lax_chain w)) 0 chunk with
  | Some _ => (len chunk, Some (errOther "invalid header"), w)
  | None => (len chunk, None, w)
  end.

#[global] Instance LaxChain_env : ChainEnv LaxChain := {
  CurrentHeaderNumber w := tc_number (lax_chain w);
  CurrentBlockNumber w := tc_number (lax_chain w);
  CurrentFastBlockNumber w := tc_number (lax_chain w);
  HasBlockAndState w := HasBlockAndState (lax_chain w);
  HasHeader w := HasHeader (lax_chain w);
  GetHeaderByHash w := GetHeaderByHash (lax_chain w);
  CurrentHeaderTd w := tc_td (lax_chain w);
  CurrentBlockTd w := tc_td (lax_chain w);
  InsertHeaderChain := lax_insert;
  Rollback w hashes := mkLaxChain (tc_rollback (lax_chain w) hashes);
  FastSyncPivot w := tc_pivot (lax_chain w);
  Schedule w chunk origin := (len chunk, w);
  stall w := (false, w);
  cancelled w := false
}.

(** The headers numbered [from], [from + step], ..., [count] of them, each
    with its number as hash. *)
Fixpoint mk_headers (from step : Z) (count : nat) : list Header :=
  match count with
  | O => []
  | S c => mkHeader from from 0 :: mk_headers (from + step) step c
  end.

(** A synchroniser at rest, as [newLightsync] leaves it, with the given
    peers registered. *)
Definition newLightsync (ps : gmap string peerConnection) : lightSync :=
  mkLightSync FullSync None 0 rttMaxEstimate 1000000 0 0 None 0 0 "" chNil ps None [].

(** Collaborators of [syncWithPeer] that fail at once, and two peers. *)
Definition env0 : syncEnv :=
  mkSyncEnv 0 (fun _ _ => inr errTimeout) (fun _ _ _ => inr errTimeout) 0
    (fun s _ _ _ _ => (None, s)).

Definition peerA : peerConnection := mkPeerConnection "a" 1.
Definition peerB : peerConnection := mkPeerConnection "b" 1.

(** ** The peer manager and the handshake ([part_001]) *)

(** The codes of [ErrResp] and the errors of package p2p that the peer
    manager and the handshake return: the four package level values,
    [ErrResp] with its code, the disconnect reason [DiscReadTimeout], and
    whatever the transport reports. *)
Inductive errCode :=
  | ErrNoStatusMsg | ErrDecode | ErrGenesisBlockMismatch
  | ErrNetworkIdMismatch | ErrProtocolVersionMismatch.

Inductive p2p_error :=
  | errClosed | errAlreadyRegistered | errNotRegistered | errIncomplete
  | ErrResp (code : errCode)
  | DiscReadTimeout
  | errTransport (msg : string).

(** [Peer] with the head, the total difficulty and the transaction rate it
    holds beside the known sets.  [pp_td] is [None] for the nil pointer that
    [NewPeer] leaves until the handshake. *)
Record hpbPeer := mkHpbPeer {
  pp_base : Peer;
  pp_head : common_Hash;
  pp_td : option Z;
  pp_txsRate : Z
}.

Definition NewHpbPeer (pid : string) (v : Z) : hpbPeer :=
  mkHpbPeer (NewPeer pid v) 0 None 0.

Definition GetID (p : hpbPeer) : string := peer_id (pp_base p).

(** [Head]: a copy of the head hash and of the total difficulty;
    [new(big.Int).Set(p.td)] panics on a nil [p.td], which is [None] here. *)
Definition Peer_Head (p : hpbPeer) : option (common_Hash * Z) :=
  match pp_td p with
  | Some td => Some (pp_head p, td)
  | None => None
  end.

(** [SetHead]: [p.td.Set(td)] panics on a nil [p.td]. *)
Definition Peer_SetHead (p : hpbPeer) (hash : common_Hash) (td : Z) : option hpbPeer :=
  match pp_td p with
  | Some _ => Some (mkHpbPeer (pp_base p) hash (Some td) (pp_txsRate p))
  | None => None
  end.

Definition TxsRate (p : hpbPeer) : Z := pp_txsRate p.

Definition SetTxsRate (p : hpbPeer) (txs : Z) : hpbPeer :=
  mkHpbPeer (pp_base p) (pp_head p) (pp_td p) txs.

(** [PeerManager]: the peers by id, the [closed] flag, and the ids that
    [Close] has disconnected, in call order. *)
Record PeerManager := mkPeerManager {
  pm_peers : gmap string hpbPeer;
  pm_closed : bool;
  pm_disconnected : list string
}.

Definition PeerMgrInst : PeerManager := mkPeerManager ∅ false [].

Definition Register (prm : PeerManager) (p : hpbPeer) : option p2p_error * PeerManager :=
  if pm_closed prm then (Some errClosed, prm)
  else
    match pm_peers prm !! GetID p with
    | Some _ => (Some errAlreadyRegistered, prm)
    | None =>
        (None, mkPeerManager (<[GetID p := p]> (pm_peers prm)) (pm_closed prm)
                 (pm_disconnected prm))
    end.

Definition Unregister (prm : PeerManager) (pid : string) : option p2p_error * PeerManager :=
  match pm_peers prm !! pid with
  | None => (Some errNotRegistered, prm)
  | Some _ =>
      (None, mkPeerManager (delete pid (pm_peers prm)) (pm_closed prm)
               (pm_disconnected prm))
  end.

Definition PeerManager_Peer (prm : PeerManager) (pid : string) : option hpbPeer :=
  pm_peers prm !! pid.

Definition PeerManager_Len (prm : PeerManager) : Z := Z.of_nat (size (pm_peers prm)).

(** Go ranges over the map in an unspecified order; the order used here is
    that of [map_to_list]. *)
Definition PeersAll (prm : PeerManager) : list hpbPeer :=
  (map_to_list (pm_peers prm)).*2.

Definition PeersWithoutBlock (prm : PeerManager) (hash : common_Hash) : list hpbPeer :=
  List.filter (fun p => negb (KnownBlockHas (pp_base p) hash)) (PeersAll prm).

Definition PeersWithoutTx (prm : PeerManager) (hash : common_Hash) : list hpbPeer :=
  List.filter (fun p => negb (KnownTxsHas (pp_base p) hash)) (PeersAll prm).

(** The loop of [BestPeer] over the peers in the order [l]; [None] when
    [Head] panics. *)
Fixpoint BestPeer_loop (l : list hpbPeer) (best : option (hpbPeer * Z))
    : option (option (hpbPeer * Z)) :=
  match l with
  | [] => Some best
  | p :: l' =>
      match Peer_Head p with
      | None => None
      | Some (_, td) =>
          BestPeer_loop l'
            (match best with
             | None => Some (p, td)
             | Some (_, bestTd) => if td >? bestTd then Some (p, td) else best
             end)
      end
  end.

Definition BestPeer (prm : PeerManager) : option (option hpbPeer) :=
  option_map (option_map fst) (BestPeer_loop (PeersAll prm) None).

(** [Close]: every peer is disconnected and the manager is closed; the
    peers stay in the map. *)
Definition Close (prm : PeerManager) : PeerManager :=
  mkPeerManager (pm_peers prm) true (pm_disconnected prm ++ map GetID (PeersAll prm)).

(** A call of [KnownBlockAdd] on the registered peer [pid]: the manager
    holds the peer by pointer and sees the new set. *)
Definition PeerManager_KnownBlockAdd (pc : PopChoice) (prm : PeerManager)
    (pid : string) (hash : common_Hash) : option PeerManager :=
  match pm_peers prm !! pid with
  | None => None
  | Some p =>
      match KnownBlockAdd pc (pp_base p) hash with
      | None => None
      | Some b =>
          Some (mkPeerManager
                  (<[pid := mkHpbPeer b (pp_head p) (pp_td p) (pp_txsRate p)]> (pm_peers prm))
                  (pm_closed prm) (pm_disconnected prm))
      end
  end.

(** [statusData], and a message as [readStatus] sees it: its code and what
    [Decode] makes of it. *)
Record statusData := mkStatusData {
  ProtocolVersion : Z;
  NetworkId : Z;
  TD : Z;
  CurrentBlock : common_Hash;
  GenesisBlock : common_Hash
}.

Record Msg := mkMsg {
  Code : Z;
  Decode : option statusData
}.

(** [readStatus] for the result [read] of [p.rw.ReadMsg()]; [StatusMsg] is
    the message code of the status message, declared outside this file.
    The second component is the status as decoded. *)
Definition readStatus (StatusMsg : Z) (p : hpbPeer) (network : Z)
    (genesis : common_Hash) (read : Msg + p2p_error)
    : option p2p_error * option statusData :=
  match read with
  | inr err => (Some err, None)
  | inl msg =>
      if negb (Code msg =? StatusMsg) then (Some (ErrResp ErrNoStatusMsg), None)
      else
        match Decode msg with
        | None => (Some (ErrResp ErrDecode), None)
        | Some status =>
            if negb (GenesisBlock status =? genesis)
            then (Some (ErrResp ErrGenesisBlockMismatch), Some status)
            else if negb (NetworkId status =? network)
            then (Some (ErrResp ErrNetworkIdMismatch), Some status)
            else if negb (ProtocolVersion status =? peer_version (pp_base p))
            then (Some (ErrResp ErrProtocolVersionMismatch), Some status)
            else (None, Some status)
        end
  end.

(** What the [select] of [Handshake] receives: the result of the sending
    goroutine, that of the reading goroutine, or the timeout. *)
Inductive hs_event := HsSend | HsRead | HsTimeout.

(** The loop [for i := 0; i < 2; i++] with [n] rounds to go; each goroutine
    reports once.  [None] when the events end with the loop still waiting. *)
Fixpoint Handshake_wait (send read : option p2p_error) (sent got : bool)
    (n : nat) (evs : list hs_event) : option (option p2p_error) :=
  match n with
  | O => Some None
  | S n' =>
      match evs with
      | [] => None
      | HsTimeout :: _ => Some (Some DiscReadTimeout)
      | HsSend :: rest =>
          if sent then None
          else match send with
               | Some err => Some (Some err)
               | None => Handshake_wait send read true got n' rest
               end
      | HsRead :: rest =>
          if got then None
          else match read with
               | Some err => Some (Some err)
               | None => Handshake_wait send read sent true n' rest
               end
      end
  end.

(** [Handshake], for the result [send] of sending the own status and the
    result [read] of [ReadMsg]. *)
Definition Handshake (StatusMsg : Z) (p : hpbPeer) (network : Z)
    (genesis : common_Hash) (send : option p2p_error) (read : Msg + p2p_error)
    (evs : list hs_event) : option (option p2p_error * hpbPeer) :=
  let '(rerr, status) := readStatus StatusMsg p network genesis read in
  match Handshake_wait send rerr false false 2 evs with
  | None => None
  | Some (Some err) => Some (Some err, p)
  | Some None =>
      match status with
      | Some st =>
          Some (None, mkHpbPeer (pp_base p) (CurrentBlock st) (Some (TD st)) (pp_txsRate p))
      | None => None
      end
  end.

(** Every peer is filed under its own id, as [Register] files it. *)
Definition pm_wf (prm : PeerManager) : Prop :=
  forall pid p, pm_peers prm !! pid = Some p -> GetID p = pid.


(** ** Peer registration and the QoS tuner ([part_000]) *)

Definition set_peers (ps : gmap string peerConnection) (s : lightSync) : lightSync :=
  mkLightSync (mode s) (fsPivotLock s) (fsPivotFails s) (rttEstimate s)
    (rttConfidence s) (syncStatsChainOrigin s) (syncStatsChainHeight s)
    (synchroniseMock s) (synchronising s) (notified s) (cancelPeer s)
    (cancelCh s) ps (sch_prepared s) (calls s).

Definition set_rttEstimate (r : Z) (s : lightSync) : lightSync :=
  mkLightSync (mode s) (fsPivotLock s) (fsPivotFails s) r
    (rttConfidence s) (syncStatsChainOrigin s) (syncStatsChainHeight s)
    (synchroniseMock s) (synchronising s) (notified s) (cancelPeer s)
    (cancelCh s) (peers s) (sch_prepared s) (calls s).

(** [peers.Register] and [peers.Unregister] of the peer set, which is
    declared outside these files: each gives an error or nil and the peers
    it leaves.  Nothing is assumed of them. *)
Record peerSetOps := mkPeerSetOps {
  peers_Register :
    gmap string peerConnection -> peerConnection ->
    option error * gmap string peerConnection;
  peers_Unregister :
    gmap string peerConnection -> string ->
    option error * gmap string peerConnection
}.

Definition registerPeer (ops : peerSetOps) (s : lightSync) (pid : string) (v : Z)
    : option error * lightSync :=
  match peers_Register ops (peers s) (mkPeerConnection pid v) with
  | (Some err, ps) => (Some err, set_peers ps s)
  | (None, ps) => (None, qosReduceConfidence (set_peers ps s))
  end.

(** [unregisterPeer]; [sch.Revoke] acts on the task pools of the scheduler,
    of which this state holds nothing. *)
Definition unregisterPeer (ops : peerSetOps) (s : lightSync) (pid : string)
    : option error * lightSync :=
  match peers_Unregister ops (peers s) pid with
  | (Some err, ps) => (Some err, set_peers ps s)
  | (None, ps) =>
      let s := set_peers ps s in
      let master := String.eqb pid (cancelPeer s) in
      (None, if master then cancel s else s)
  end.

(** One round of the loop of [qosTuner], for the blended round trip time
    [rtt] (a [time.Duration]) that its first statement computes. *)
Definition qosTuner_cycle (rtt : Z) (s : lightSync) : lightSync :=
  let s := set_rttEstimate (u64 rtt) s in
  let conf := rttConfidence s in
  let conf := u64 (conf + u64 (1000000 - conf) / 2) in
  set_rttConfidence conf s.

(** [syning]. *)
Definition syning (s : lightSync) : bool := synchronising s >? 0.

(** What reaches the QoS values from outside: registrations, removals and
    rounds of the tuner. *)
Inductive qos_op :=
  | OpRegister (pid : string) (v : Z)
  | OpUnregister (pid : string)
  | OpTune (rtt : Z).

Definition qos_step (ops : peerSetOps) (s : lightSync) (op : qos_op) : lightSync :=
  match op with
  | OpRegister pid v => snd (registerPeer ops s pid v)
  | OpUnregister pid => snd (unregisterPeer ops s pid)
  | OpTune rtt => qosTuner_cycle rtt s
  end.

(** A peer set that refuses an id that is taken and an id that is unknown. *)
Definition mapPeerSet : peerSetOps :=
  mkPeerSetOps
    (fun ps p => match ps !! id p with
                 | Some _ => (Some (errOther "already registered"), ps)
                 | None => (None, <[id p := p]> ps)
                 end)
    (fun ps pid => match ps !! pid with
                   | Some _ => (None, delete pid ps)
                   | None => (Some (errOther "not registered"), ps)
                   end).

(** ** Repeated sessions *)

(** [n] calls of [syn] in fast mode, one after the other, with the same
    master peer: the state after the last one. *)
Fixpoint syn_repeat (env : syncEnv) (n : nat) (s : lightSync) (pid : string)
    (hash : common_Hash) (td : Z) : lightSync :=
  match n with
  | O => s
  | S k => snd (syn env (syn_repeat env k s pid hash td) pid hash td FastSync)
  end.

(** Collaborators with which every session of the peer [p] gets as far as
    the workers and fails there, the workers leaving mode, pivot lock,
    failure counter, peers and mock as they find them. *)
Definition env_fails_in_sync (env : syncEnv) (p : peerConnection) : Prop :=
  (version p <? ProtocolV111 env) = false
  /\ (forall s, exists latest, env_fetchHeight env s p = inl latest)
  /\ (forall s h, exists origin, env_findAncestor env s p h = inl origin)
  /\ forall s o td latest,
       fst (env_spawnSync env s p o td latest) <> None
       /\ mode (snd (env_spawnSync env s p o td latest)) = mode s
       /\ fsPivotLock (snd (env_spawnSync env s p o td latest)) = fsPivotLock s
       /\ fsPivotFails (snd (env_spawnSync env s p o td latest)) = fsPivotFails s
       /\ peers (snd (env_spawnSync env s p o td latest)) = peers s
       /\ synchroniseMock (snd (env_spawnSync env s p o td latest)) = synchroniseMock s.

(** Collaborators whose workers time out at once. *)
Definition env_timeout : syncEnv :=
  mkSyncEnv 0 (fun _ _ => inl (mkHeader 100 100 0)) (fun _ _ _ => inl 0) 0
    (fun s _ _ _ _ => (Some errTimeout, s)).

(** ** [deliver] *)

(** [deliver], for a destination channel that can take the packet at once
    ([room]) or not; when both cases of the [select] are ready Go picks
    one, the send if [send_first].  [None] when it blocks. *)
Definition deliver (s : lightSync) (room send_first : bool) : option (option error) :=
  match cancelCh s with
  | chNil => Some (Some errNoSyncActive)
  | chOpen => if room then Some None else None
  | chClosed =>
      if room && send_first then Some None else Some (Some errNoSyncActive)
  end.


(** ** [fetchHeight] and the events of the header waits *)

(** The events a wait for the master peer's reply acts on: the others are
    packets of other peers and packets on the body and receipt channels. *)
Definition fa_relevant (p : peerConnection) (ev : fa_event) : bool :=
  match ev with
  | FaBody | FaReceipt => false
  | FaHeaders pid _ => bool_decide (pid = id p)
  | FaCancel | FaTimeout => true
  end.

(** [fetchHeight]: the head header of the peer, or the error; [None] while
    the loop waits. *)
Fixpoint fetchHeight (p : peerConnection) (evs : list fa_event)
    : option (Header + error) :=
  match evs with
  | [] => None
  | FaCancel :: _ => Some (inr errCancelBlockFetch)
  | FaTimeout :: _ => Some (inr errTimeout)
  | FaBody :: rest | FaReceipt :: rest => fetchHeight p rest
  | FaHeaders pid headers :: rest =>
      if bool_decide (pid ≠ id p) then fetchHeight p rest
      else match headers with
           | [head] => Some (inl head)
           | _ => Some (inr errBadPeer)
           end
  end.

(** The replies of a peer that answers each request of the binary search
    with [reply check], seen from a chain that knows these headers up to
    number [a]: the requests the search makes between [start] and [end_],
    one reply each, with ignored events anywhere between them. *)
Inductive fa_honest (p : peerConnection) (reply : Z -> Header) (a : Z)
    : Z -> Z -> list fa_event -> Prop :=
  | fa_honest_done start end_ evs :
      ~ (start + 1 < end_) -> fa_honest p reply a start end_ evs
  | fa_honest_skip start end_ ev evs :
      fa_relevant p ev = false ->
      fa_honest p reply a start end_ evs ->
      fa_honest p reply a start end_ (ev :: evs)
  | fa_honest_known start end_ evs :
      start + 1 < end_ -> (start + end_) / 2 <= a ->
      fa_honest p reply a ((start + end_) / 2) end_ evs ->
      fa_honest p reply a start end_
        (FaHeaders (id p) [reply ((start + end_) / 2)] :: evs)
  | fa_honest_unknown start end_ evs :
      start + 1 < end_ -> a < (start + end_) / 2 ->
      fa_honest p reply a start ((start + end_) / 2) evs ->
      fa_honest p reply a start end_
        (FaHeaders (id p) [reply ((start + end_) / 2)] :: evs).


(** ** Import of fetch results ([part_000]) *)

(** Modelled from the spec: the constant is declared outside the sources at
    hand; the value is that of the specification's list of constants. *)
Definition maxResultsProcess : Z := 2048.

(** A fetch result and the block made of it; transactions and receipts by
    their hashes. *)
Record fetchResult := mkFetchResult {
  fr_Header : Header;
  fr_Transactions : list common_Hash;
  fr_Uncles : list Header;
  fr_Receipts : list common_Hash
}.

Record Block := mkBlock {
  b_header : Header;
  b_transactions : list common_Hash;
  b_uncles : list Header
}.

(** [types.NewBlockWithHeader(result.Header).WithBody(result.Transactions, result.Uncles)]. *)
Definition block_of (r : fetchResult) : Block :=
  mkBlock (fr_Header r) (fr_Transactions r) (fr_Uncles r).

(** The block chain as the import sees it: whether the quit channel is
    closed, and [InsertChain], which gives an index, an error or nil, and
    the chain after it. *)
Class ImportEnv (W : Type) := {
  quit : W -> bool;
  InsertChain : W -> list Block -> Z * option error * W
}.

(** [items := int(math.Min(float64(len(results)), float64(maxResultsProcess)))]. *)
Definition import_items (results : list fetchResult) : Z :=
  Z.min (len results) maxResultsProcess.

(** [importBlockResults], with [fuel] rounds of [for len(results) != 0].
    On an error of [InsertChain] the source reads [results[index]] for the
    log line, which panics unless [0 <= index < len(results)]. *)
Fixpoint importBlockResults `{ImportEnv W} (fuel : nat) (w : W)
    (results : list fetchResult) : option (outcome * W) :=
  match results with
  | [] => Some (Return None, w)
  | _ :: _ =>
      match fuel with
      | O => None
      | S fuel' =>
          if quit w then Some (Return (Some errCancelContentProcessing), w)
          else
            let items := import_items results in
            let blocks := map block_of (take (Z.to_nat items) results) in
            let '(index, err, w') := InsertChain w blocks in
            match err with
            | Some _ =>
                if (index <? 0) || (index >=? len results) then Some (Panic, w')
                else Some (Return (Some errInvalidChain), w')
            | None => importBlockResults fuel' w' (drop (Z.to_nat items) results)
            end
      end
  end.

(** [processFullSyncContent] over the result sets that [sch.WaitResults]
    gives one after the other (no [chainInsertHook] is set); [None] while it
    waits for the next one. *)
Fixpoint processFullSyncContent `{ImportEnv W} (w : W)
    (waits : list (list fetchResult)) : option (outcome * W) :=
  match waits with
  | [] => None
  | results :: rest =>
      if len results =? 0 then Some (Return None, w)
      else
        match importBlockResults (length results) w results with
        | None => None
        | Some (Return None, w') => processFullSyncContent w' rest
        | Some r => Some r
        end
  end.

(** The chain after inserting the batches one after the other, if every
    insertion succeeds. *)
Fixpoint insert_batches `{ImportEnv W} (w : W) (batches : list (list Block)) : option W :=
  match batches with
  | [] => Some w
  | b :: rest =>
      let '(_, err, w') := InsertChain w b in
      match err with
      | Some _ => None
      | None => insert_batches w' rest
      end
  end.

(** A chain that keeps the blocks inserted, oldest first, and refuses a
    batch that holds a block whose header hash is in [ic_bad]. *)
Record ImportChain := mkImportChain {
  ic_blocks : list Block;
  ic_bad : list common_Hash;
  ic_quit : bool
}.

#[global] Instance ImportChain_env : ImportEnv ImportChain := {
  quit := ic_quit;
  InsertChain w blocks :=
    match tc_first_bad (ic_bad w) 0 (map b_header blocks) with
    | Some n =>
        (n, Some (errOther "invalid block"),
         mkImportChain (ic_blocks w ++ take (Z.to_nat n) blocks) (ic_bad w) (ic_quit w))
    | None =>
        (len blocks, None, mkImportChain (ic_blocks w ++ blocks) (ic_bad w) (ic_quit w))
    end
}.

(** The results for the headers [mk_headers from 1 count], without bodies. *)
Definition mk_results (from : Z) (count : nat) : list fetchResult :=
  map (fun h => mkFetchResult h [] [] []) (mk_headers from 1 count).


(** ** The fetch loop [fetchParts] ([part_000]) *)

(** A fetch request, by the number it starts from and its headers. *)
Record fetchRequest := mkFetchRequest {
  req_From : Z;
  req_Headers : list Header
}.

(** The callbacks of [fetchParts] on the state [W] of the scheduler; each
    may depend on the synchroniser as well, whose peers they read.
    [fp_fetch] is the network callback: an error makes the loop panic. *)
Class FetchEnv (W : Type) := {
  fp_deliver : lightSync -> W -> string -> Z -> Z * option error * W;
  fp_expire : lightSync -> W -> gmap string Z * W;
  fp_pending : lightSync -> W -> Z;
  fp_inFlight : lightSync -> W -> bool;
  fp_throttle : lightSync -> W -> bool;
  fp_reserve :
    lightSync -> W -> peerConnection -> Z -> option fetchRequest * bool * option error * W;
  fp_fetch : lightSync -> W -> peerConnection -> fetchRequest -> option error * W;
  fp_capacity : lightSync -> W -> peerConnection -> Z;
  fp_idle : lightSync -> W -> list peerConnection * Z
}.

(** What the [select] of [fetchParts] receives: the cancel channel, a
    packet of [items] items of peer [pid] on the delivery channel, a wake-up
    with its continuation flag, the ticker, and the token of the [update]
    channel. *)
Inductive fp_event :=
  | FpCancel
  | FpDelivery (pid : string) (items : Z)
  | FpWake (cont : bool)
  | FpTick
  | FpUpdate.

Record fpState (W : Type) := mkFp {
  fp_sync : lightSync;
  fp_world : W;
  fp_finished : bool;
  (** whether the [update] channel, of capacity 1, holds its token *)
  fp_update : bool
}.
Arguments mkFp {W}.
Arguments fp_sync {W}.
Arguments fp_world {W}.
Arguments fp_finished {W}.
Arguments fp_update {W}.

(** The [deliveryCh] case up to the non-blocking send on [update]: [inr]
    when the loop returns, with the state it leaves. *)
Definition fetchParts_delivery `{FetchEnv W} (st : fpState W) (pid : string) (items : Z)
    : fpState W + outcome * fpState W :=
  let s := fp_sync st in
  match peers_Peer s pid with
  | None => inl (mkFp s (fp_world st) (fp_finished st) true)
  | Some peer =>
      let '(accepted, err, w') := fp_deliver s (fp_world st) pid items in
      if bool_decide (err = Some errInvalidChain)
      then inr (Return err, mkFp s w' (fp_finished st) (fp_update st))
      else
        let s' := if bool_decide (err ≠ Some errStaleDelivery)
                  then setIdle peer accepted s else s in
        inl (mkFp s' w' (fp_finished st) true)
  end.

Record fp_flags := mkFpFlags {
  progressed : bool;
  throttled : bool;
  running : bool
}.

(** [for _, peer := range idles]: the flags and the scheduler after it,
    [inr] when the loop returns an error or panics. *)
Fixpoint fetchParts_assign `{FetchEnv W} (s : lightSync) (w : W) (fl : fp_flags)
    (idles : list peerConnection) : fp_flags * W + outcome * W :=
  match idles with
  | [] => inl (fl, w)
  | peer :: rest =>
      if fp_throttle s w then inl (mkFpFlags (progressed fl) true (running fl), w)
      else if fp_pending s w =? 0 then inl (fl, w)
      else
        let '(request, progress, err, w1) := fp_reserve s w peer (fp_capacity s w peer) in
        match err with
        | Some e => inr (Return (Some e), w1)
        | None =>
            let fl1 := if progress then mkFpFlags true (throttled fl) (running fl) else fl in
            match request with
            | None => fetchParts_assign s w1 fl1 rest
            | Some req =>
                let '(ferr, w2) := fp_fetch s w1 peer req in
                match ferr with
                | Some _ => inr (Panic, w2)
                | None =>
                    fetchParts_assign s w2
                      (mkFpFlags (progressed fl1) (throttled fl1) true) rest
                end
            end
        end
  end.

(** The [update] case, entered with the token taken from the channel:
    [inr] when the loop returns or panics, with the state it leaves. *)
Definition fetchParts_update `{FetchEnv W} (st : fpState W)
    : fpState W + outcome * fpState W :=
  let s0 := fp_sync st in
  if peers_Len s0 =? 0
  then inr (Return (Some errNoPeers), mkFp s0 (fp_world st) (fp_finished st) false)
  else
    let '(expired, w1) := fp_expire s0 (fp_world st) in
    match fetchParts_update_expire s0 expired with
    | inr err => inr (Return (Some err), mkFp s0 w1 (fp_finished st) false)
    | inl s =>
        if fp_pending s w1 =? 0 then
          if negb (fp_inFlight s w1) && fp_finished st
          then inr (Return None, mkFp s w1 (fp_finished st) false)
          else inl (mkFp s w1 (fp_finished st) false)
        else
          let fl := mkFpFlags false false (fp_inFlight s w1) in
          let '(idles, total) := fp_idle s w1 in
          match fetchParts_assign s w1 fl idles with
          | inr (out, w2) => inr (out, mkFp s w2 (fp_finished st) false)
          | inl (fl', w2) =>
              if negb (progressed fl') && negb (throttled fl') && negb (running fl')
                 && (len idles =? total) && (fp_pending s w2 >? 0)
              then inr (Return (Some errPeersUnavailable),
                        mkFp s w2 (fp_finished st) false)
              else inl (mkFp s w2 (fp_finished st) false)
          end
    end.

(** [fetchParts] over what its [select] receives; [None] when the events
    end with the loop waiting, or name the [update] token while the channel
    is empty. *)
Fixpoint fetchParts `{FetchEnv W} (errCancel : error) (st : fpState W)
    (evs : list fp_event) : option (outcome * fpState W) :=
  match evs with
  | [] => None
  | FpCancel :: _ => Some (Return (Some errCancel), st)
  | FpDelivery pid items :: rest =>
      match fetchParts_delivery st pid items with
      | inr r => Some r
      | inl st' => fetchParts errCancel st' rest
      end
  | FpWake cont :: rest =>
      fetchParts errCancel
        (mkFp (fp_sync st) (fp_world st) (if cont then fp_finished st else true) true) rest
  | FpTick :: rest =>
      fetchParts errCancel (mkFp (fp_sync st) (fp_world st) (fp_finished st) true) rest
  | FpUpdate :: rest =>
      if negb (fp_update st) then None
      else
        match fetchParts_update st with
        | inr r => Some r
        | inl st' => fetchParts errCancel st' rest
        end
  end.

(** A scheduler to run the loop on: [fs_pending] tasks are open; every
    reservation hands out one task, which the next delivery of that peer
    completes; nothing expires and nothing is throttled. *)
Record FetchSched := mkFetchSched {
  fs_pending : Z;
  fs_active : list string
}.

#[global] Instance FetchSched_env : FetchEnv FetchSched := {
  fp_deliver s w pid items :=
    if bool_decide (pid ∈ fs_active w)
    then (items, None,
          mkFetchSched (fs_pending w) (List.filter (fun q => negb (String.eqb q pid)) (fs_active w)))
    else (0, Some errStaleDelivery, w);
  fp_expire s w := (∅, w);
  fp_pending s w := fs_pending w;
  fp_inFlight s w := negb (len (fs_active w) =? 0);
  fp_throttle s w := false;
  fp_reserve s w peer cap :=
    (Some (mkFetchRequest 0 []), true, None,
     mkFetchSched (fs_pending w - 1) (id peer :: fs_active w));
  fp_fetch s w peer req := (None, w);
  fp_capacity s w peer := 1;
  fp_idle s w :=
    (List.filter (fun p => negb (bool_decide (id p ∈ fs_active w)))
       ((map_to_list (peers s)).*2),
     Z.of_nat (size (peers s)) - len (fs_active w))
}.

(** A callback invocation names a registered peer. *)
Definition fp_call_ok (ps : gmap string peerConnection) (c : call) : Prop :=
  match c with
  | CallSetIdle peer _ => exists pid, ps !! pid = Some peer
  | CallDropPeer pid => is_Some (ps !! pid)
  end.

(** The state [st'] extends [st]: the loop has looked peers up in the same
    registry, and has added only invocations for peers found there.  The
    callbacks are recorded, not run: what [dropPeer] does to the registry
    lies outside the loop. *)
Definition fp_extends {W} (st st' : fpState W) : Prop :=
  peers (fp_sync st') = peers (fp_sync st)
  /\ exists new, calls (fp_sync st') = calls (fp_sync st) ++ new
                 /\ Forall (fp_call_ok (peers (fp_sync st))) new.

(** As [fp_extends], with no invocation of [dropPeer] added. *)
Definition fp_extends_idle {W} (st st' : fpState W) : Prop :=
  exists new, calls (fp_sync st') = calls (fp_sync st) ++ new
              /\ Forall (fun c => forall pid, c <> CallDropPeer pid) new.


(** ** The keep-alive loop of a slice ([p2p/discover/slice.go]) *)

(** What the [select] of [keepLiveLoop] receives: the ticker, a refresh
    request with the channel [req] of its caller, the close of [done] by the
    running [keepLive], and the close request. *)
Inductive kl_event :=
  | KlTick
  | KlRefresh (req : nat)
  | KlDone
  | KlCloseReq.

#[global] Instance kl_event_eq_dec : EqDecision kl_event.
Proof. solve_decision. Defined.

(** The variables of the loop, [kl_running] for [done != nil], and what it
    has done so far: the number of [keepLive] goroutines started, the
    channels of callers closed, oldest first, and whether [net], [db] and
    [sl.closed] are closed. *)
Record klState := mkKl {
  kl_waiting : list nat;
  kl_running : bool;
  kl_started : nat;
  kl_released : list nat;
  kl_netClosed : bool;
  kl_dbClosed : bool;
  kl_closed : bool
}.

Definition kl_init : klState := mkKl [] false 0 [] false false false.

(** [if done == nil { done = make(chan struct{}); go sl.keepLive(done) }]. *)
Definition kl_start (st : klState) : klState :=
  if kl_running st then st
  else mkKl (kl_waiting st) true (S (kl_started st)) (kl_released st)
         (kl_netClosed st) (kl_dbClosed st) (kl_closed st).

(** One round of the loop; [None] for [KlDone] while no [keepLive] runs (a
    receive from the nil channel never happens), [inr] when the loop is
    left. *)
Definition kl_step (st : klState) (ev : kl_event) : option (klState + klState) :=
  match ev with
  | KlTick => Some (inl (kl_start st))
  | KlRefresh req =>
      Some (inl (kl_start
                   (mkKl (kl_waiting st ++ [req]) (kl_running st) (kl_started st)
                      (kl_released st) (kl_netClosed st) (kl_dbClosed st) (kl_closed st))))
  | KlDone =>
      if kl_running st
      then Some (inl (mkKl [] false (kl_started st) (kl_released st ++ kl_waiting st)
                        (kl_netClosed st) (kl_dbClosed st) (kl_closed st)))
      else None
  | KlCloseReq => Some (inr st)
  end.

(** What follows the loop: [net] is closed, the running [keepLive] is
    waited for, the callers still waiting are released, [db] and
    [sl.closed] are closed. *)
Definition kl_shutdown (st : klState) : klState :=
  mkKl (kl_waiting st) (kl_running st) (kl_started st)
    (kl_released st ++ kl_waiting st) true true true.

(** [keepLiveLoop]; [None] while the loop runs. *)
Fixpoint keepLiveLoop (st : klState) (evs : list kl_event) : option klState :=
  match evs with
  | [] => None
  | ev :: rest =>
      match kl_step st ev with
      | None => None
      | Some (inr st') => Some (kl_shutdown st')
      | Some (inl st') => keepLiveLoop st' rest
      end
  end.

(** The channels of the refresh requests among the events, and the number
    of completions of [keepLive]. *)
Definition kl_requests (evs : list kl_event) : list nat :=
  omap (fun ev => match ev with KlRefresh req => Some req | _ => None end) evs.

Definition kl_completions (evs : list kl_event) : nat :=
  length (List.filter (fun ev => bool_decide (ev = KlDone)) evs).

(** ** [keepLive] and [test] *)

Record Node := mkNode {
  n_ID : Z;
  n_Role : Z;
  n_IP : Z;
  n_UDP : Z;
  n_TCP : Z
}.

(** [NewNode(id, role, ip, udpPort, tcpPort)]. *)
Definition NewNode (id_ role ip udp tcp : Z) : Node := mkNode id_ role ip udp tcp.

(** [test] with [pingPong] and [ping], for the answer [ping] of the network
    to the ping of a node: the node bonded with, or nil.  A test that
    finds a bonding process running for the same id takes the result of
    that one, which is the same when the ids tell the nodes apart. *)
Definition Slice_test (self : Node) (ping : Node -> bool) (n : Node) : option Node :=
  if n_ID n =? n_ID self then None
  else if ping n then Some (NewNode (n_ID n) (n_Role n) (n_IP n) (n_UDP n) (n_TCP n))
  else None.

(** [keepLive]: the members after it.  [tested] are the nodes that the
    goroutines test, in the order in which their results arrive on [rc]:
    the goroutines read the loop variable [n], so each of them tests the
    member of its round or one of a later round. *)
Definition keepLive (self : Node) (ping : Node -> bool) (tested : list Node) : list Node :=
  omap (Slice_test self ping) tested.


(** ** [runStateSync] ([part_000]) *)

(** A state request: [sr_id] stands for the identity of the pointer, by
    which the source compares requests. *)
Record stateReq := mkStateReq {
  sr_id : nat;
  sr_peer : string;
  sr_items : Z;
  sr_response : option (list common_Hash);
  sr_dropped : bool
}.

(** What the [select] of [runStateSync] receives: another sync to switch
    to, the end of the running one, the running sync taking the first
    finished request from [s.deliver], a state pack of a peer, the drop of a
    peer, the timeout of a request, and a request to track. *)
Inductive ss_event :=
  | SsStart (next : nat)
  | SsDone
  | SsDeliver
  | SsPack (pid : string) (states : list common_Hash)
  | SsPeerDrop (pid : string)
  | SsTimeout (req : stateReq)
  | SsTrack (req : stateReq).

(** [active] and [finished], and what the loop has handed on: the requests
    sent on [s.deliver], oldest first, and the peers set idle at the exit,
    each with the number of items of its request. *)
Record ssState := mkSs {
  ss_active : gmap string stateReq;
  ss_finished : list stateReq;
  ss_delivered : list stateReq;
  ss_idled : list (string * Z)
}.

Definition ss_init : ssState := mkSs ∅ [] [] [].

(** The deferred function: the peers of the active requests are set idle. *)
Definition ss_exit (st : ssState) : ssState :=
  mkSs (ss_active st) (ss_finished st) (ss_delivered st)
    (ss_idled st ++ map (fun r => (sr_peer r, sr_items r)) (map_to_list (ss_active st)).*2).

(** One round of the loop: [inr] when it returns, with the sync to switch
    to; [None] when the event cannot be received, which is the case for
    [SsDeliver] while [finished] is empty. *)
Definition ss_step (st : ssState) (ev : ss_event) : option (ssState + option nat * ssState) :=
  match ev with
  | SsStart next => Some (inr (Some next, ss_exit st))
  | SsDone => Some (inr (None, ss_exit st))
  | SsDeliver =>
      match ss_finished st with
      | [] => None
      | req :: rest =>
          Some (inl (mkSs (ss_active st) rest (ss_delivered st ++ [req]) (ss_idled st)))
      end
  | SsPack pid states =>
      match ss_active st !! pid with
      | None => Some (inl st)
      | Some req =>
          let req := mkStateReq (sr_id req) (sr_peer req) (sr_items req)
                       (Some states) (sr_dropped req) in
          Some (inl (mkSs (delete pid (ss_active st)) (ss_finished st ++ [req])
                       (ss_delivered st) (ss_idled st)))
      end
  | SsPeerDrop pid =>
      match ss_active st !! pid with
      | None => Some (inl st)
      | Some req =>
          let req := mkStateReq (sr_id req) (sr_peer req) (sr_items req)
                       (sr_response req) true in
          Some (inl (mkSs (delete pid (ss_active st)) (ss_finished st ++ [req])
                       (ss_delivered st) (ss_idled st)))
      end
  | SsTimeout req =>
      match ss_active st !! sr_peer req with
      | Some cur =>
          if bool_decide (sr_id cur = sr_id req)
          then Some (inl (mkSs (delete (sr_peer req) (ss_active st))
                            (ss_finished st ++ [cur]) (ss_delivered st) (ss_idled st)))
          else Some (inl st)
      | None => Some (inl st)
      end
  | SsTrack req =>
      let finished :=
        match ss_active st !! sr_peer req with
        | Some old =>
            ss_finished st ++ [mkStateReq (sr_id old) (sr_peer old) (sr_items old)
                                 (sr_response old) true]
        | None => ss_finished st
        end in
      Some (inl (mkSs (<[sr_peer req := req]> (ss_active st)) finished
                   (ss_delivered st) (ss_idled st)))
  end.

(** [runStateSync]: the sync to switch to, or nil; [None] while the loop
    runs. *)
Fixpoint runStateSync (st : ssState) (evs : list ss_event) : option (option nat * ssState) :=
  match evs with
  | [] => None
  | ev :: rest =>
      match ss_step st ev with
      | None => None
      | Some (inr r) => Some r
      | Some (inl st') => runStateSync st' rest
      end
  end.

(** The identities of the requests the loop holds or has handed on, and of
    the requests given to it to track. *)
Definition ss_ids (st : ssState) : list nat :=
  map sr_id (ss_delivered st ++ ss_finished st ++ (map_to_list (ss_active st)).*2).

Definition ss_tracked (evs : list ss_event) : list nat :=
  omap (fun ev => match ev with SsTrack req => Some (sr_id req) | _ => None end) evs.

(** The events up to the one that ends the loop. *)
Fixpoint ss_processed (evs : list ss_event) : list ss_event :=
  match evs with
  | [] => []
  | SsStart _ :: _ | SsDone :: _ => []
  | ev :: rest => ev :: ss_processed rest
  end.

(** Every active request is filed under the id of its peer. *)
Definition ss_wf (st : ssState) : Prop :=
  forall pid r, ss_active st !! pid = Some r -> sr_peer r = pid.

(** ** [fetchHeaders] and [fillHeaderSkeleton] ([part_000]) *)

(** Modelled from the spec: declared outside the sources at hand; the value
    is that of the specification's list of constants. *)
Definition MaxSkeletonSize : Z := 128.

(** A call of [RequestHeadersByNumber]: origin, amount and skip. *)
Record headerRequest := mkHeaderRequest {
  hr_origin : Z;
  hr_amount : Z;
  hr_skip : Z
}.

#[global] Instance headerRequest_eq_dec : EqDecision headerRequest.
Proof. solve_decision. Defined.

(** The methods of the scheduler [this.sch], of the peers and of the peer
    set that [fillHeaderSkeleton] uses, on the state [W] of the scheduler.
    A delivered packet is given by its peer and its number of items, as in
    [fetchParts]. *)
Class HeaderSched (W : Type) := {
  ScheduleSkeleton : W -> Z -> list Header -> W;
  DeliverHeaders : W -> string -> Z -> Z * option error * W;
  ExpireHeaders : W -> Z -> gmap string Z * W;
  PendingHeaders : W -> Z;
  InFlightHeaders : W -> bool;
  ReserveHeaders : W -> peerConnection -> Z -> option fetchRequest * W;
  FetchHeaders : W -> peerConnection -> Z -> Z -> option error * W;
  HeaderCapacity : W -> peerConnection -> Z -> Z;
  HeaderIdlePeers : lightSync -> W -> list peerConnection * Z;
  RetrieveHeaders : W -> list Header * Z * W
}.

(** The callbacks that [fillHeaderSkeleton] hands to [fetchParts]. *)
Definition header_env `{HeaderSched W} : FetchEnv W := {|
  fp_deliver s w pid items := DeliverHeaders w pid items;
  fp_expire s w := ExpireHeaders w (requestTTL s);
  fp_pending s w := PendingHeaders w;
  fp_inFlight s w := InFlightHeaders w;
  fp_throttle s w := false;
  fp_reserve s w p count :=
    let '(request, w') := ReserveHeaders w p count in (request, false, None, w');
  fp_fetch s w p req := FetchHeaders w p (req_From req) MaxHeaderFetch;
  fp_capacity s w p := HeaderCapacity w p (requestRTT s);
  fp_idle s w := HeaderIdlePeers s w
|}.

(** How [fillHeaderSkeleton] ends: with the filled skeleton, the number of
    headers already forwarded and the error of [fetchParts], or with the
    panic of [fetchParts]. *)
Inductive fill_result (W : Type) :=
  | FillReturn (filled : list Header) (proced : Z) (err : option error)
      (s : lightSync) (w : W)
  | FillPanic (s : lightSync) (w : W).
Arguments FillReturn {W}.
Arguments FillPanic {W}.

(** [fillHeaderSkeleton(from, skeleton)], over what the [select] of its
    [fetchParts] run receives; [None] when that run is left waiting. *)
Definition fillHeaderSkeleton `{HeaderSched W} (s : lightSync) (w : W) (from : Z)
    (skeleton : list Header) (evs : list fp_event) : option (fill_result W) :=
  let w1 := ScheduleSkeleton w from skeleton in
  match @fetchParts W header_env errCancelHeaderFetch (mkFp s w1 false false) evs with
  | None => None
  | Some (Panic, st) => Some (FillPanic (fp_sync st) (fp_world st))
  | Some (Return err, st) =>
      let '(filled, proced, w2) := RetrieveHeaders (fp_world st) in
      Some (FillReturn filled proced err (fp_sync st) w2)
  end.

(** What the [select] of [fetchHeaders] receives: the cancel channel, a
    header packet of some peer, and the timeout.  A packet comes with what
    the [fetchParts] run receives while [fillHeaderSkeleton] fills the
    skeleton that the packet holds; it is not looked at when the packet
    starts no fill. *)
Inductive fh_event :=
  | FhCancel
  | FhHeaders (pid : string) (headers : list Header) (fill : list fp_event)
  | FhTimeout.

(** The variables [skeleton] and [from], the synchroniser and the
    scheduler, and what the function has sent: the header requests, the
    batches put on [headerProcCh] (nil is the empty batch), and the sum of
    the counts that [fillHeaderSkeleton] reported as forwarded by
    itself. *)
Record fhState (W : Type) := mkFh {
  fh_skeleton : bool;
  fh_from : Z;
  fh_sync : lightSync;
  fh_world : W;
  fh_requests : list headerRequest;
  fh_forwarded : list (list Header);
  fh_proced : Z
}.
Arguments mkFh {W}.
Arguments fh_skeleton {W}.
Arguments fh_from {W}.
Arguments fh_sync {W}.
Arguments fh_world {W}.
Arguments fh_requests {W}.
Arguments fh_forwarded {W}.
Arguments fh_proced {W}.

(** [getHeaders(from)]. *)
Definition getHeaders {W} (st : fhState W) : fhState W :=
  let req :=
    if fh_skeleton st
    then mkHeaderRequest (u64 (u64 (fh_from st + u64 MaxHeaderFetch) - 1))
           MaxSkeletonSize (MaxHeaderFetch - 1)
    else mkHeaderRequest (fh_from st) MaxHeaderFetch 0 in
  mkFh (fh_skeleton st) (fh_from st) (fh_sync st) (fh_world st)
    (fh_requests st ++ [req]) (fh_forwarded st) (fh_proced st).

(** A send on [headerProcCh] in a [select] with the cancel channel: the
    cancel channel wins when its close is the next thing to happen. *)
Definition fh_send_ok (rest : list fh_event) : bool :=
  match rest with
  | FhCancel :: _ => false
  | _ => true
  end.

Definition fh_forward {W} (batch : list Header) (st : fhState W) : fhState W :=
  mkFh (fh_skeleton st) (fh_from st) (fh_sync st) (fh_world st) (fh_requests st)
    (fh_forwarded st ++ [batch]) (fh_proced st).

(** The skeleton branch of the header case: [inl] with the headers
    [filled[proced:]] to forward and the state, [inr] when
    [fetchHeaders] ends there; [None] when [fillHeaderSkeleton] is left
    waiting.  [filled[proced:]] panics unless
    [0 <= proced <= len(filled)]. *)
Definition fh_fill `{HeaderSched W} (st : fhState W) (headers : list Header)
    (inner : list fp_event) : option (list Header * fhState W + outcome * fhState W) :=
  match fillHeaderSkeleton (fh_sync st) (fh_world st) (fh_from st) headers inner with
  | None => None
  | Some (FillPanic s1 w1) =>
      Some (inr (Panic, mkFh (fh_skeleton st) (fh_from st) s1 w1 (fh_requests st)
                          (fh_forwarded st) (fh_proced st)))
  | Some (FillReturn filled proced err s1 w1) =>
      let st0 := mkFh (fh_skeleton st) (fh_from st) s1 w1 (fh_requests st)
                   (fh_forwarded st) (fh_proced st) in
      match err with
      | Some _ => Some (inr (Return (Some errInvalidChain), st0))
      | None =>
          if (proced <? 0) || (proced >? len filled) then Some (inr (Panic, st0))
          else Some (inl (drop (Z.to_nat proced) filled,
                          mkFh (fh_skeleton st) (u64 (fh_from st + u64 proced)) s1 w1
                            (fh_requests st) (fh_forwarded st) (fh_proced st + proced)))
      end
  end.

(** The loop of [fetchHeaders]; [None] while the loop waits. *)
Fixpoint fetchHeaders_loop `{HeaderSched W} (p : peerConnection) (st : fhState W)
    (evs : list fh_event) : option (outcome * fhState W) :=
  match evs with
  | [] => None
  | FhCancel :: _ => Some (Return (Some errCancelHeaderFetch), st)
  | FhTimeout :: rest =>
      let st := mkFh (fh_skeleton st) (fh_from st) (dropPeer (id p) (fh_sync st))
                  (fh_world st) (fh_requests st) (fh_forwarded st) (fh_proced st) in
      Some (Return (Some errBadPeer), if fh_send_ok rest then fh_forward [] st else st)
  | FhHeaders pid headers inner :: rest =>
      if bool_decide (pid ≠ id p) then fetchHeaders_loop p st rest
      else if (len headers =? 0) && fh_skeleton st then
        fetchHeaders_loop p
          (getHeaders (mkFh false (fh_from st) (fh_sync st) (fh_world st)
                         (fh_requests st) (fh_forwarded st) (fh_proced st))) rest
      else if len headers =? 0 then
        if fh_send_ok rest then Some (Return None, fh_forward [] st)
        else Some (Return (Some errCancelHeaderFetch), st)
      else
        match (if fh_skeleton st then fh_fill st headers inner
               else Some (inl (headers, st))) with
        | None => None
        | Some (inr r) => Some r
        | Some (inl (headers, st1)) =>
            if len headers >? 0 then
              if fh_send_ok rest then
                let st2 := fh_forward headers st1 in
                fetchHeaders_loop p
                  (getHeaders (mkFh (fh_skeleton st2) (u64 (fh_from st2 + len headers))
                                 (fh_sync st2) (fh_world st2) (fh_requests st2)
                                 (fh_forwarded st2) (fh_proced st2))) rest
              else Some (Return (Some errCancelHeaderFetch), st1)
            else fetchHeaders_loop p (getHeaders st1) rest
        end
  end.

(** [fetchHeaders]: the first request, then the loop. *)
Definition fetchHeaders `{HeaderSched W} (s : lightSync) (w : W) (p : peerConnection)
    (from : Z) (evs : list fh_event) : option (outcome * fhState W) :=
  fetchHeaders_loop p (getHeaders (mkFh true from s w [] [] 0)) evs.

(** The number of headers in the batches put on [headerProcCh]. *)
Definition fh_total (batches : list (list Header)) : Z :=
  len (concat batches).

(** The request that [getHeaders] sends in the state [st]. *)
Definition fh_request {W} (st : fhState W) : headerRequest :=
  if fh_skeleton st
  then mkHeaderRequest (u64 (u64 (fh_from st + u64 MaxHeaderFetch) - 1))
         MaxSkeletonSize (MaxHeaderFetch - 1)
  else mkHeaderRequest (fh_from st) MaxHeaderFetch 0.

(** A callback invocation of a skeleton fill: for a registered peer, and
    no [dropPeer] when [quiet] holds. *)
Definition fh_call_ok (ps : gmap string peerConnection) (quiet : Prop) (c : call) : Prop :=
  fp_call_ok ps c /\ (quiet -> forall pid, c <> CallDropPeer pid).

(** The synchroniser [s'] is [s] after skeleton fills: the registry they
    looked peers up in is the same, and only invocations of fills were
    added. *)
Definition fh_extends (quiet : Prop) (s s' : lightSync) : Prop :=
  peers s' = peers s
  /\ exists new, calls s' = calls s ++ new /\ Forall (fh_call_ok (peers s) quiet) new.

(** At the head of the loop: [from] is the origin advanced by the headers
    accounted for, the last request sent is the one for [from], the
    synchroniser is as the skeleton fills have left it, and only batches
    that hold headers were put on [headerProcCh]. *)
Definition fh_inv {W} (quiet : Prop) (s : lightSync) (from0 : Z) (st : fhState W) : Prop :=
  fh_from st = u64 (from0 + fh_proced st + fh_total (fh_forwarded st))
  /\ fh_extends quiet s (fh_sync st)
  /\ Forall (fun b => b <> []) (fh_forwarded st)
  /\ last (fh_requests st) = Some (fh_request st).

(** A packet of the peer [p] without headers. *)
Definition fh_empty_reply (p : peerConnection) (ev : fh_event) : bool :=
  match ev with
  | FhHeaders pid [] _ => bool_decide (pid = id p)
  | _ => false
  end.

(** No skeleton fill that the event starts makes an update pass. *)
Definition fh_no_update (ev : fh_event) : Prop :=
  match ev with
  | FhHeaders _ _ inner => FpUpdate ∉ inner
  | _ => True
  end.

(** A scheduler to run the loop on: the skeleton is filled as it is, no
    task is ever pending, nothing is forwarded by the fill itself, and the
    requests listed in [sk_expired] expire in the next update pass. *)
Record SkelSched := mkSkelSched {
  sk_filled : list Header;
  sk_expired : list (string * Z)
}.

#[global] Instance SkelSched_env : HeaderSched SkelSched := {
  ScheduleSkeleton w from skeleton := mkSkelSched skeleton (sk_expired w);
  DeliverHeaders w pid items := (items, None, w);
  ExpireHeaders w ttl := (list_to_map (sk_expired w), mkSkelSched (sk_filled w) []);
  PendingHeaders w := 0;
  InFlightHeaders w := false;
  ReserveHeaders w p count := (None, w);
  FetchHeaders w p from count := (None, w);
  HeaderCapacity w p rtt := 1;
  HeaderIdlePeers s w := ([], 0);
  RetrieveHeaders w := (sk_filled w, 0, w)
}.


(** ** Snapshots in the database ([consensus/snapshots]) *)

(** [hash[:]]: the 32 bytes of a hash, the first one the most significant. *)
Fixpoint be_bytes (n : nat) (z : Z) : string :=
  match n with
  | O => EmptyString
  | S k =>
      String (Ascii.ascii_of_N (Z.to_N ((z / 256 ^ Z.of_nat k) mod 256))) (be_bytes k z)
  end.

Definition hash_bytes (h : common_Hash) : string := be_bytes 32 h.

(** The errors of the snapshot functions: those of the database, and the
    one of the JSON codec. *)
Inductive snap_error := errNotFound | errDb (msg : string) | errJSON.

(** [hpbdb.Database], as far as the snapshots use it: [Get] gives the
    value or an error, [Put] gives an error or nil and the database as
    the call leaves it. *)
Class Database (D : Type) := {
  db_Get : D -> string -> string + snap_error;
  db_Put : D -> string -> string -> option snap_error * D
}.

(** What a successful [Put] does: the key holds the value, and the other
    keys read as before. *)
Definition db_lawful (D : Type) `{Database D} : Prop :=
  forall (db db' : D) key blob,
    db_Put db key blob = (None, db') ->
    db_Get db' key = inl blob
    /\ forall key', key' <> key -> db_Get db' key' = db_Get db key'.

(** A database in memory, whose [Put] always succeeds. *)
#[global] Instance MemDb : Database (gmap string string) := {
  db_Get db key :=
    match db !! key with
    | Some blob => inl blob
    | None => inr errNotFound
    end;
  db_Put db key blob := (None, <[key := blob]> db)
}.

(** A database that takes no writes. *)
Record ReadOnlyDb := mkReadOnlyDb { ro_data : gmap string string }.

#[global] Instance ReadOnlyDb_db : Database ReadOnlyDb := {
  db_Get db key := db_Get (ro_data db) key;
  db_Put db key blob := (Some (errDb "read-only"), db)
}.

(** [json.Marshal] and [json.Unmarshal] for one type of snapshot. *)
Record jsonCodec (A : Type) := mkJsonCodec {
  json_Marshal : A -> option string;
  json_Unmarshal : string -> option A
}.
Arguments json_Marshal {A}.
Arguments json_Unmarshal {A}.

Record CanNodeSnap := mkCanNodeSnap {
  can_Number : Z;
  can_Hash : common_Hash
}.

Record Winner := mkWinner {
  win_Name : string;
  win_NetworkId : string;
  win_Address : Z
}.

Record ComNodeSnap := mkComNodeSnap {
  com_Number : Z;
  com_Hash : common_Hash;
  com_Winners : gmap Z Winner
}.

Definition LoadCanNodeSnap `{Database D} (js : jsonCodec CanNodeSnap) (db : D) (hash : common_Hash)
    : CanNodeSnap + snap_error :=
  match db_Get db ("cannodesnap-" +:+ hash_bytes hash) with
  | inr err => inr err
  | inl blob =>
      match json_Unmarshal js blob with
      | None => inr errJSON
      | Some snap => inl snap
      end
  end.

Definition CanNodeSnap_Store `{Database D} (js : jsonCodec CanNodeSnap) (s : CanNodeSnap) (db : D)
    : option snap_error * D :=
  match json_Marshal js s with
  | None => (Some errJSON, db)
  | Some blob => db_Put db ("cannodesnap-" +:+ hash_bytes (can_Hash s)) blob
  end.

Definition LoadComNodeSnap `{Database D} (js : jsonCodec ComNodeSnap) (db : D) (hash : common_Hash)
    : ComNodeSnap + snap_error :=
  match db_Get db ("comnodesnap-" +:+ hash_bytes hash) with
  | inr err => inr err
  | inl blob =>
      match json_Unmarshal js blob with
      | None => inr errJSON
      | Some snap => inl snap
      end
  end.

Definition ComNodeSnap_Store `{Database D} (js : jsonCodec ComNodeSnap) (s : ComNodeSnap) (db : D)
    : option snap_error * D :=
  match json_Marshal js s with
  | None => (Some errJSON, db)
  | Some blob => db_Put db ("comnodesnap-" +:+ hash_bytes (com_Hash s)) blob
  end.

(** A codec is faithful when what it writes it reads back. *)
Definition json_faithful {A} (js : jsonCodec A) : Prop :=
  forall s blob, json_Marshal js s = Some blob -> json_Unmarshal js blob = Some s.

(** A codec that knows a single snapshot. *)
Definition json_single (s0 : CanNodeSnap) : jsonCodec CanNodeSnap :=
  mkJsonCodec _
    (fun s => if bool_decide (can_Number s = can_Number s0 /\ can_Hash s = can_Hash s0)
              then Some "snap" else None)
    (fun blob => if String.eqb blob "snap" then Some s0 else None).

(* ================================================================== *)
(** * Properties *)
(* ================================================================== *)

(** ** [start] and [syn] *)


Lemma syn_enter_fields s pid m :
  fsPivotLock (syn_enter s pid m) = fsPivotLock s
  /\ fsPivotFails (syn_enter s pid m) = fsPivotFails s
  /\ peers (syn_enter s pid m) = peers s
  /\ calls (syn_enter s pid m) = calls s
  /\ cancelPeer (syn_enter s pid m) = pid
  /\ mode (syn_enter s pid m) = syn_mode s m.
Proof.
  unfold syn_enter. destruct (notified _ =? 0); cbn; repeat split; reflexivity.
Qed.

(** C3. A session asked to run in fast mode runs in full mode when the pivot
    failure counter has reached [fsCriticalTrials], and in fast mode for any
    smaller count: that is the mode of the state [syn] hands to
    [syncWithPeer] (or returns with, when the peer is unknown). *)
Theorem syn_fast_degrades_to_full env s pid hash td :
  synchroniseMock s = None ->
  synchronising s = 0 ->
  exists s1,
    syn env s pid hash td FastSync =
      syn_exit (match peers s !! pid with
                | Some p => syncWithPeer env s1 p hash td
                | None => (Some errUnknownPeer, s1)
                end)
    /\ fsPivotFails s1 = fsPivotFails s
    /\ (fsCriticalTrials <= fsPivotFails s -> mode s1 = FullSync)
    /\ (fsPivotFails s < fsCriticalTrials -> mode s1 = FastSync).
Proof.
  intros Hmock Hsync. exists (syn_enter s pid FastSync).
  destruct (syn_enter_fields s pid FastSync) as (_ & Hf & Hp & _ & _ & Hm).
  split; [|split; [exact Hf|]].
  - unfold syn. rewrite Hmock, Hsync. cbn [Z.eqb negb].
    unfold peers_Peer. rewrite Hp. destruct (peers s !! pid); reflexivity.
  - rewrite Hm. unfold syn_mode. split; intros H.
    + destruct (Z.geb_spec (fsPivotFails s) fsCriticalTrials); [reflexivity | lia].
    + destruct (Z.geb_spec (fsPivotFails s) fsCriticalTrials); [lia | reflexivity].
Qed.

Lemma syn_fast_degrades_to_full_witness :
  let s := set_fsPivotFails 10 (newLightsync {["a" := peerA]}) in
  synchroniseMock s = None /\ synchronising s = 0 /\
  exists s1,
    syn env0 s "a" 0 0 FastSync =
      syn_exit (match peers s !! "a" with
                | Some p => syncWithPeer env0 s1 p 0 0
                | None => (Some errUnknownPeer, s1)
                end)
    /\ fsPivotFails s1 = fsPivotFails s
    /\ (fsCriticalTrials <= fsPivotFails s -> mode s1 = FullSync)
    /\ (fsPivotFails s < fsCriticalTrials -> mode s1 = FastSync).
Proof.
  split; [reflexivity | split; [reflexivity |]].
  apply (syn_fast_degrades_to_full env0
           (set_fsPivotFails 10 (newLightsync {["a" := peerA]})) "a" 0 0);
    reflexivity.
Defined.

(** C9. [start] returns the error of [syn] and reports the master peer to
    [dropPeer] exactly when that error is one of Timeout, BadPeer,
    StallingPeer, EmptyHeaderSet, PeersUnavailable, ProVLowerBase,
    InvalidAncestor and InvalidChain; for [nil], Busy and every other error
    it leaves the state of [syn] as it is. *)
Theorem start_drops_master_peer env s pid head td m :
  let r := syn env s pid head td m in
  let r' := start env s pid head td m in
  fst r' = fst r
  /\ snd r' =
       (if bool_decide
             (fst r ∈ [Some errTimeout; Some errBadPeer; Some errStallingPeer;
                       Some errEmptyHeaderSet; Some errPeersUnavailable;
                       Some errProVLowerBase; Some errInvalidAncestor;
                       Some errInvalidChain])
        then dropPeer pid (snd r) else snd r)
  /\ calls (dropPeer pid (snd r)) = calls (snd r) ++ [CallDropPeer pid].
Proof.
  cbn zeta. unfold start. destruct (syn env s pid head td m) as [err s'].
  cbn [fst snd]. split; [|split; [|reflexivity]].
  - destruct err as [[]|]; reflexivity.
  - destruct err as [e|].
    + destruct e; try reflexivity.
    + reflexivity.
Qed.

(** ** The fetch loop *)

Lemma fetchParts_expire_one_fields s e :
  peers (fetchParts_expire_one s e) = peers s
  /\ calls (fetchParts_expire_one s e) =
       calls s ++ match peers s !! e.1 with
                  | Some peer =>
                      [if e.2 >? 2 then CallSetIdle peer 0 else CallDropPeer e.1]
                  | None => []
                  end.
Proof.
  unfold fetchParts_expire_one, peers_Peer.
  destruct (peers s !! e.1) as [peer|]; [destruct (e.2 >? 2)|]; cbn;
    rewrite ?app_nil_r; auto.
Qed.

(** The calls made by the expiry loop over the entries [l]. *)
Lemma fetchParts_expire_loop l : forall s,
  exists new,
    peers (foldl fetchParts_expire_one s l) = peers s
    /\ calls (foldl fetchParts_expire_one s l) = calls s ++ new
    /\ forall c, c ∈ new <->
          exists e peer, e ∈ l /\ peers s !! e.1 = Some peer
            /\ c = (if e.2 >? 2 then CallSetIdle peer 0 else CallDropPeer e.1).
Proof.
  induction l as [|e l IH]; intros s.
  - exists []. cbn. rewrite app_nil_r. repeat split; auto.
    + intros Hc. inversion Hc.
    + intros (e & peer & He & _). inversion He.
  - cbn [foldl].
    destruct (IH (fetchParts_expire_one s e)) as (new & Hp & Hc & Hnew).
    destruct (fetchParts_expire_one_fields s e) as [Hp1 Hc1].
    rewrite Hp1 in Hp. rewrite Hc1 in Hc.
    eexists. split; [exact Hp|]. split; [rewrite Hc, <- app_assoc; reflexivity|].
    intros c. rewrite elem_of_app, Hnew. split.
    + intros [Hin|(e' & peer & He' & Hl & ->)].
      * destruct (peers s !! e.1) as [peer|] eqn:Hl; [|inversion Hin].
        apply list_elem_of_singleton in Hin. exists e, peer. split; [left|]. auto.
      * rewrite Hp1 in Hl. exists e', peer. split; [right; exact He'|]. auto.
    + intros (e' & peer & He' & Hl & ->).
      apply elem_of_cons in He' as [->|He'].
      * left. rewrite Hl. apply list_elem_of_singleton. reflexivity.
      * right. exists e', peer. rewrite Hp1. auto.
Qed.

(** C1 (as the code has it). On an update pass, for every registered peer
    that [expire()] reports with a failure count: when the count exceeds 2
    the peer is kept and set idle with 0 accepted items, and is not handed
    to [dropPeer]; when the count is at most 2 the peer is handed to
    [dropPeer].  The pass itself leaves the registry as it is. *)
Theorem fetchParts_expire_demotes_or_drops s (expired : gmap string Z) pid fails peer :
  expired !! pid = Some fails ->
  peers s !! pid = Some peer ->
  exists s' new,
    fetchParts_update_expire s expired = inl s'
    /\ peers s' = peers s
    /\ calls s' = calls s ++ new
    /\ (2 < fails -> CallSetIdle peer 0 ∈ new /\ CallDropPeer pid ∉ new)
    /\ (fails <= 2 -> CallDropPeer pid ∈ new).
Proof.
  intros Hexp Hpeer. unfold fetchParts_update_expire.
  destruct (Z.eqb_spec (peers_Len s) 0) as [Hlen|_].
  { unfold peers_Len in Hlen.
    assert (Hempty : peers s = ∅) by (apply map_size_empty_inv; lia).
    rewrite Hempty, lookup_empty in Hpeer. discriminate. }
  destruct (fetchParts_expire_loop (map_to_list expired) s) as (new & Hp & Hc & Hnew).
  exists (foldl fetchParts_expire_one s (map_to_list expired)), new.
  split; [reflexivity|]. split; [exact Hp|]. split; [exact Hc|].
  assert (Hin : (pid, fails) ∈ map_to_list expired) by (apply elem_of_map_to_list; exact Hexp).
  split; intros Hf.
  - split.
    + apply Hnew. exists (pid, fails), peer. cbn. repeat split; auto.
      destruct (Z.gtb_spec fails 2); [reflexivity | lia].
    + intros Hd. apply Hnew in Hd as ([pid' fails'] & peer' & He & Hl & Heq).
      cbn in Hl, Heq. destruct (Z.gtb_spec fails' 2); [discriminate|].
      injection Heq as <-. apply elem_of_map_to_list in He.
      rewrite Hexp in He. injection He as <-. lia.
  - apply Hnew. exists (pid, fails), peer. cbn. repeat split; auto.
    destruct (Z.gtb_spec fails 2); [lia | reflexivity].
Qed.

Lemma fetchParts_expire_demotes_or_drops_witness :
  let s := newLightsync {["a" := peerA; "b" := peerB]} in
  let expired : gmap string Z := {["a" := 3; "b" := 1]} in
  (expired !! "a" = Some 3 /\ peers s !! "a" = Some peerA)
  /\ exists s' new,
    fetchParts_update_expire s expired = inl s'
    /\ peers s' = peers s
    /\ calls s' = calls s ++ new
    /\ (2 < 3 -> CallSetIdle peerA 0 ∈ new /\ CallDropPeer "a" ∉ new)
    /\ (3 <= 2 -> CallDropPeer "a" ∈ new).
Proof.
  split; [split; reflexivity|].
  apply (fetchParts_expire_demotes_or_drops
           (newLightsync {["a" := peerA; "b" := peerB]}) {["a" := 3; "b" := 1]}
           "a" 3 peerA);
    reflexivity.
Defined.

(** C1, as stated, fails: a registered peer reported with one failure is
    handed to [dropPeer] and is not set idle. *)
Lemma fetchParts_expire_low_count_counterexample :
  let s := newLightsync {["a" := peerA]} in
  let expired : gmap string Z := {["a" := 1]} in
  fetchParts_update_expire s expired = inl (dropPeer "a" s)
  /\ calls (dropPeer "a" s) = [CallDropPeer "a"]
  /\ ~ (CallSetIdle peerA 0 ∈ calls (dropPeer "a" s)
        /\ CallDropPeer "a" ∉ calls (dropPeer "a" s)).
Proof.
  cbn zeta. split; [vm_compute; reflexivity|]. split; [reflexivity|].
  intros [_ H]. apply H. cbn. left.
Qed.

(** ** Pivot selection *)

Lemma u64_small z : 0 <= z < 2 ^ 64 -> u64 z = z.
Proof. intros H. unfold u64. apply Z.mod_small. exact H. Qed.

Lemma Uint64_small z : 0 <= z < 2 ^ 64 -> Uint64 z = z.
Proof. intros H. unfold Uint64. rewrite Z.abs_eq by lia. apply u64_small, H. Qed.

Lemma Uint64_range z : 0 <= Uint64 z < 2 ^ 64.
Proof. unfold Uint64, u64. apply Z.mod_pos_bound. lia. Qed.

(** C2 (as the code has it). In fast mode the pivot selection leaves
    [origin <= pivot]; without a pivot lock [pivot <= height], with one the
    pivot is the number of the locked header; and when the pivot is below
    the ancestor found, the origin is rewound to [pivot - 1], or to 0 when
    the pivot is 0, which puts it strictly below a non-zero pivot. *)
Theorem syncWithPeer_pivot_fast s offset height origin :
  mode s = FastSync ->
  0 <= origin < 2 ^ 64 ->
  0 <= height < 2 ^ 64 ->
  0 <= offset < fsPivotInterval ->
  let origin' := fst (syncWithPeer_pivot s offset height origin) in
  let pivot := snd (syncWithPeer_pivot s offset height origin) in
  0 <= origin' <= pivot
  /\ (fsPivotLock s = None -> pivot <= height)
  /\ (forall lock, fsPivotLock s = Some lock -> pivot = Uint64 (Number lock))
  /\ (pivot < origin -> origin' = if pivot >? 0 then pivot - 1 else 0)
  /\ (pivot < origin -> 0 < pivot -> origin' < pivot)
  /\ (origin <= pivot -> origin' = origin).
Proof.
  intros Hm Ho Hh Hoff. cbn zeta. unfold syncWithPeer_pivot. rewrite Hm.
  unfold fsPivotInterval in Hoff. cbn [fst snd].
  set (pivot := match fsPivotLock s with
                | Some lock => Uint64 (Number lock)
                | None => _ end).
  assert (Hp : 0 <= pivot < 2 ^ 64
               /\ (fsPivotLock s = None -> pivot <= height)
               /\ (forall lock, fsPivotLock s = Some lock -> pivot = Uint64 (Number lock))).
  { subst pivot. destruct (fsPivotLock s) as [lock|].
    - split; [apply Uint64_range|]. split; [discriminate|].
      intros l [= <-]. reflexivity.
    - rewrite (Uint64_small offset) by lia. unfold fsMinFullBlocks.
      rewrite (u64_small (64 + offset)) by lia.
      split; [|split; [|discriminate]].
      + destruct (Z.gtb_spec height (64 + offset)); [|lia].
        rewrite (u64_small (height - 64)) by lia.
        rewrite u64_small by lia. lia.
      + intros _. destruct (Z.gtb_spec height (64 + offset)); [|lia].
        rewrite (u64_small (height - 64)) by lia.
        rewrite u64_small by lia. lia. }
  destruct Hp as (Hr & Hnone & Hsome).
  destruct (Z.ltb_spec pivot origin) as [Hlt|Hge].
  - destruct (Z.gtb_spec pivot 0) as [Hpos|Hz].
    + rewrite (u64_small (pivot - 1)) by lia. repeat split; auto; lia.
    + repeat split; auto; lia.
  - repeat split; auto; lia.
Qed.

(** The origin and pivot of [syncWithPeer_pivot] are what [syncWithPeer]
    hands to [sch.Prepare] and, with the origin, to the workers. *)
Lemma syncWithPeer_prepare env s p hash td latest origin :
  (version p <? ProtocolV111 env) = false ->
  env_fetchHeight env s p = inl latest ->
  env_findAncestor env s p (Uint64 (Number latest)) = inl origin ->
  let height := Uint64 (Number latest) in
  let s1 :=
    set_syncStats
      (if (syncStatsChainHeight s <=? origin) || (syncStatsChainOrigin s >? origin)
       then origin else syncStatsChainOrigin s)
      height s in
  let op := syncWithPeer_pivot s1 (pivotOffset env) height origin in
  let s2 := set_sch_prepared (mkPrepared (u64 (fst op + 1)) (mode s) (snd op) latest) s1 in
  sch_prepared s2 = Some (mkPrepared (u64 (fst op + 1)) (mode s) (snd op) latest)
  /\ fst (syncWithPeer env s p hash td)
     = fst (env_spawnSync env s2 p (u64 (fst op + 1)) td latest).
Proof.
  intros Hv Hh Ha. cbn zeta. split; [reflexivity|].
  unfold syncWithPeer. rewrite Hv, Hh, Ha.
  destruct (syncWithPeer_pivot _ _ _ _) as [o pv]. cbn [fst snd mode set_syncStats].
  destruct (env_spawnSync _ _ _ _ _ _) as [err s3]. cbn [fst].
  destruct err; [destruct (mode s3); [| destruct (fsPivotLock s3) |] |]; reflexivity.
Qed.

Lemma syncWithPeer_pivot_fast_witness :
  let s := set_mode FastSync (newLightsync ∅) in
  (mode s = FastSync /\ 0 <= 9000 < 2 ^ 64 /\ 0 <= 10000 < 2 ^ 64
   /\ 0 <= 0 < fsPivotInterval)
  /\ let origin' := fst (syncWithPeer_pivot s 0 10000 9000) in
     let pivot := snd (syncWithPeer_pivot s 0 10000 9000) in
     0 <= origin' <= pivot
     /\ (fsPivotLock s = None -> pivot <= 10000)
     /\ (forall lock, fsPivotLock s = Some lock -> pivot = Uint64 (Number lock))
     /\ (pivot < 9000 -> origin' = if pivot >? 0 then pivot - 1 else 0)
     /\ (pivot < 9000 -> 0 < pivot -> origin' < pivot)
     /\ (9000 <= pivot -> origin' = 9000).
Proof.
  split; [repeat split; (reflexivity || (vm_compute; discriminate))|].
  apply (syncWithPeer_pivot_fast (set_mode FastSync (newLightsync ∅)) 0 10000 9000);
    [reflexivity | | | ]; split; (reflexivity || (vm_compute; discriminate)).
Defined.

(** C2, as stated, fails: a peer at height 10 and a common ancestor at the
    genesis block give pivot 0 and origin 0, so [origin < pivot] does not
    hold; and with the pivot locked at block 100, a peer at height 50 gives
    a pivot above the height. *)
Lemma syncWithPeer_pivot_counterexample :
  let s := set_mode FastSync (newLightsync ∅) in
  let s' := set_fsPivotLock (Some (mkHeader 100 100 0)) s in
  syncWithPeer_pivot s 0 10 0 = (0, 0)
  /\ ~ (fst (syncWithPeer_pivot s 0 10 0) < snd (syncWithPeer_pivot s 0 10 0)
        /\ snd (syncWithPeer_pivot s 0 10 0) <= 10)
  /\ syncWithPeer_pivot s' 0 50 0 = (0, 100)
  /\ ~ (fst (syncWithPeer_pivot s' 0 50 0) < snd (syncWithPeer_pivot s' 0 50 0)
        /\ snd (syncWithPeer_pivot s' 0 50 0) <= 50).
Proof.
  cbn zeta. split; [reflexivity|]. split; [vm_compute; intros [H _]; discriminate|].
  split; [reflexivity|]. vm_compute. intros [_ H]. apply H. reflexivity.
Qed.

(** ** Known hashes of a peer *)

Section KnownSets.
Variable pc : PopChoice.

Lemma set_Pop_subseteq s : set_Pop pc s ⊆ s.
Proof. unfold set_Pop. destruct (pick pc s); set_solver. Qed.

Lemma set_Pop_size s : s ≠ ∅ -> S (size (set_Pop pc s)) = size s.
Proof.
  intros Hne. unfold set_Pop. destruct (pick pc s) as [x|] eqn:Hp.
  - apply pick_elem in Hp.
    rewrite size_difference by set_solver. rewrite size_singleton.
    assert (size s ≠ 0%nat) by (intros H0; apply size_empty_inv in H0; set_solver).
    lia.
  - apply pick_empty in Hp. contradiction.
Qed.

(** The eviction loop ends within [size s] rounds, below [max], with a
    subset of the set, and touches nothing when the set is below [max]. *)
Lemma evict_spec max : 0 < max -> forall fuel s,
  (size s <= fuel)%nat ->
  exists s', evict pc max fuel s = Some s'
             /\ s' ⊆ s /\ set_Size s' < max
             /\ (set_Size s < max -> s' = s).
Proof.
  intros Hmax. induction fuel as [|fuel IH]; intros s Hs.
  - exists s. cbn. unfold set_Size.
    destruct (Z.geb_spec (Z.of_nat (size s)) max); [lia|].
    repeat split; auto; lia.
  - cbn. destruct (Z.geb_spec (set_Size s) max) as [Hge|Hlt].
    + assert (Hne : s ≠ ∅).
      { intros ->. unfold set_Size in Hge. rewrite size_empty in Hge. lia. }
      pose proof (set_Pop_size s Hne) as Hsz.
      destruct (IH (set_Pop pc s)) as (s' & He & Hsub & Hlt & _); [lia|].
      exists s'. split; [exact He|]. split; [|split; [exact Hlt | lia]].
      pose proof (set_Pop_subseteq s). set_solver.
    + exists s. repeat split; auto; lia.
Qed.

Lemma size_add_le (h : common_Hash) (s : gset common_Hash) :
  set_Size ({[h]} ∪ s) <= 1 + set_Size s.
Proof.
  unfold set_Size. pose proof (size_union_alt {[h]} s) as H.
  assert (size (s ∖ {[h]}) <= size s)%nat by (apply subseteq_size; set_solver).
  rewrite size_singleton in H. lia.
Qed.

Lemma KnownBlockAdd_spec p h :
  exists p', KnownBlockAdd pc p h = Some p'
    /\ KnownBlockSize p' <= maxKnownBlocks
    /\ KnownBlockHas p' h = true
    /\ knownBlocks p' ⊆ {[h]} ∪ knownBlocks p
    /\ (KnownBlockSize p < maxKnownBlocks -> knownBlocks p' = {[h]} ∪ knownBlocks p)
    /\ knownTxs p' = knownTxs p.
Proof.
  unfold KnownBlockAdd.
  destruct (evict_spec maxKnownBlocks eq_refl (size (knownBlocks p)) (knownBlocks p))
    as (s' & -> & Hsub & Hlt & Hsame); [lia|].
  eexists. split; [reflexivity|]. unfold KnownBlockSize, KnownBlockHas. cbn.
  pose proof (size_add_le h s'). repeat split.
  - lia.
  - apply bool_decide_eq_true. set_solver.
  - set_solver.
  - intros H'. rewrite (Hsame H'). reflexivity.
Qed.

Lemma KnownTxsAdd_spec p h :
  exists p', KnownTxsAdd pc p h = Some p'
    /\ KnownTxsSize p' <= maxKnownTxs
    /\ KnownTxsHas p' h = true
    /\ knownTxs p' ⊆ {[h]} ∪ knownTxs p
    /\ (KnownTxsSize p < maxKnownTxs -> knownTxs p' = {[h]} ∪ knownTxs p)
    /\ knownBlocks p' = knownBlocks p.
Proof.
  unfold KnownTxsAdd.
  destruct (evict_spec maxKnownTxs eq_refl (size (knownTxs p)) (knownTxs p))
    as (s' & -> & Hsub & Hlt & Hsame); [lia|].
  eexists. split; [reflexivity|]. unfold KnownTxsSize, KnownTxsHas. cbn.
  pose proof (size_add_le h s'). repeat split.
  - lia.
  - apply bool_decide_eq_true. set_solver.
  - set_solver.
  - intros H'. rewrite (Hsame H'). reflexivity.
Qed.

Lemma KnownBlockAdd_all_spec l : forall p,
  KnownBlockSize p <= maxKnownBlocks ->
  exists p', KnownBlockAdd_all pc p l = Some p'
             /\ KnownBlockSize p' <= maxKnownBlocks.
Proof.
  induction l as [|h l IH]; intros p Hp; cbn.
  - exists p. auto.
  - destruct (KnownBlockAdd_spec p h) as (p1 & -> & Hsz & _). apply IH, Hsz.
Qed.

Lemma KnownTxsAdd_all_spec l : forall p,
  KnownTxsSize p <= maxKnownTxs ->
  exists p', KnownTxsAdd_all pc p l = Some p'
             /\ KnownTxsSize p' <= maxKnownTxs.
Proof.
  induction l as [|h l IH]; intros p Hp; cbn.
  - exists p. auto.
  - destruct (KnownTxsAdd_spec p h) as (p1 & -> & Hsz & _). apply IH, Hsz.
Qed.

(** C10. Every sequence of [KnownBlockAdd] calls on a new peer returns
    and leaves at most [maxKnownBlocks] hashes in the known-block set,
    and likewise [KnownTxsAdd] with [maxKnownTxs]; a single call, on any
    peer, evicts until the set is below capacity and then inserts: the
    result holds the new hash, nothing that was not there before, and
    everything that was there when the set was below capacity. *)
Theorem known_sets_bounded pid v (blocks txs : list common_Hash) :
  (exists p, KnownBlockAdd_all pc (NewPeer pid v) blocks = Some p
             /\ KnownBlockSize p <= maxKnownBlocks)
  /\ (exists p, KnownTxsAdd_all pc (NewPeer pid v) txs = Some p
                /\ KnownTxsSize p <= maxKnownTxs)
  /\ (forall p h, exists p',
        KnownBlockAdd pc p h = Some p'
        /\ KnownBlockSize p' <= maxKnownBlocks
        /\ KnownBlockHas p' h = true
        /\ knownBlocks p' ⊆ {[h]} ∪ knownBlocks p
        /\ (KnownBlockSize p < maxKnownBlocks ->
            knownBlocks p' = {[h]} ∪ knownBlocks p)
        /\ knownTxs p' = knownTxs p)
  /\ (forall p h, exists p',
        KnownTxsAdd pc p h = Some p'
        /\ KnownTxsSize p' <= maxKnownTxs
        /\ KnownTxsHas p' h = true
        /\ knownTxs p' ⊆ {[h]} ∪ knownTxs p
        /\ (KnownTxsSize p < maxKnownTxs ->
            knownTxs p' = {[h]} ∪ knownTxs p)
        /\ knownBlocks p' = knownBlocks p).
Proof.
  split; [|split; [|split]].
  - apply KnownBlockAdd_all_spec. vm_compute. discriminate.
  - apply KnownTxsAdd_all_spec. vm_compute. discriminate.
  - apply KnownBlockAdd_spec.
  - apply KnownTxsAdd_spec.
Qed.
End KnownSets.

Example KnownBlockAdd_run :
  option_map KnownBlockSize (KnownBlockAdd_all PopFirst (NewPeer "a" 1) [7; 8; 7; 9]) = Some 3.
Proof. vm_compute. reflexivity. Qed.

(** ** [processHeaders]: the rollback list and the pivot cross-check *)

Lemma len_nonneg {A} (l : list A) : 0 <= len l.
Proof. unfold len. lia. Qed.


Section ProcessHeaders.
Context `{ChainEnv W}.









End ProcessHeaders.



(** The test chain keeps the contract on the error index. *)
Lemma tc_first_bad_range bad : forall chunk n k,
  tc_first_bad bad n chunk = Some k -> n <= k < n + len chunk.
Proof.
  induction chunk as [|h hs IH]; intros n k Hk; [discriminate|].
  cbn in Hk. unfold len in *. cbn [length].
  destruct (bool_decide (Hash h ∈ bad)).
  - injection Hk as <-. lia.
  - apply IH in Hk. lia.
Qed.

Lemma TestChain_insert_index_ok : insert_index_ok (W := TestChain).
Proof.
  intros w chunk f. cbn. unfold tc_insert.
  destruct (tc_first_bad (tc_bad w) 0 chunk) as [k|] eqn:E; [|exact I].
  intros _. apply tc_first_bad_range in E. lia.
Qed.

(** With a chain store that reports the length of the chunk as the error
    index, the whole chunk is appended before [chunk[n]] panics: the
    deferred call sees 2048 + 2048 headers. *)
Example processHeaders_panic_rollback :
  let s := set_mode LightSync (newLightsync ∅) in
  let w := mkLaxChain (mkTestChain [] [2049] 0 0 5000) in
  let evs := [PhHeaders (mk_headers 1 1 2048); PhHeaders (mk_headers 2049 1 2048)] in
  option_map (fun r => (fst r, len (ph_rollback (snd r))))
    (ph_loop s 5000 0 evs false (mkPh w [] 1))
  = Some (Panic, 4096).
Proof. vm_compute. reflexivity. Qed.

(** A failed insertion past the pivot: the headers inserted are rolled
    back and, no failure having been counted yet, the pivot header is
    latched. *)
Example processHeaders_latches_pivot :
  let s := set_mode FastSync (newLightsync ∅) in
  option_map (fun r => (r.1.1, fsPivotLock r.1.2, tc_known r.2))
    (processHeaders s (mkTestChain [] [8] 0 0 5) 3 0 [PhHeaders (mk_headers 3 1 6)])
  = Some (Return (Some errInvalidChain), Some (mkHeader 5 5 0), []).
Proof. vm_compute. reflexivity. Qed.
Lemma i64_small z : - 2 ^ 63 <= z < 2 ^ 63 -> i64 z = z.
Proof. intros Hz. unfold i64. rewrite Z.mod_small by lia. lia. Qed.

Section PivotCheck.
Context `{ChainEnv W}.









End PivotCheck.



(** With consecutive numbers the same chunk passes the check. *)
Example processHeaders_pivot_match_run :
  let s := set_fsPivotLock (Some (mkHeader 5 77 0)) (set_mode FastSync (newLightsync ∅)) in
  let chunk := [mkHeader 3 3 0; mkHeader 4 4 0; mkHeader 5 77 0] in
  option_map (fun r => r.1.1)
    (processHeaders s (mkTestChain [] [] 0 0 5) 3 0 [PhHeaders chunk; PhHeaders []])
  = Some (Return None).
Proof. vm_compute. reflexivity. Qed.

(** A chunk with a gap that puts the index outside the chunk makes
    [processHeaders] panic. *)
Example processHeaders_pivot_index_panic :
  let s := set_fsPivotLock (Some (mkHeader 5 77 0)) (set_mode FastSync (newLightsync ∅)) in
  let chunk := [mkHeader 3 3 0; mkHeader 100 100 0] in
  option_map (fun r => r.1.1)
    (processHeaders s (mkTestChain [] [] 0 0 5) 3 0 [PhHeaders chunk; PhHeaders []])
  = Some Panic.
Proof. vm_compute. reflexivity. Qed.

Example processHeaders_pivot_mismatch_run :
  let s := set_fsPivotLock (Some (mkHeader 5 77 0)) (set_mode FastSync (newLightsync ∅)) in
  option_map fst
    (ph_loop s 5 0 [PhHeaders (mk_headers 3 1 4)] false (mkPh (mkTestChain [] [] 0 0 5) [] 3))
  = Some (Return (Some errInvalidChain)).
Proof. vm_compute. reflexivity. Qed.

(** ** [findAncestor]: the linear probe *)

Section FindAncestor.
Context `{ChainEnv W}.

Lemma fa_probe_skip s (w : W) p from ceil height pre evs :
  Forall (fa_ignored p) pre ->
  fa_probe s w p from ceil height (pre ++ evs) = fa_probe s w p from ceil height evs.
Proof.
  induction 1 as [|ev pre Hev _ IH]; [reflexivity|].
  destruct ev; cbn in Hev; try contradiction; cbn.
  - rewrite bool_decide_eq_true_2 by exact Hev. exact IH.
  - exact IH.
  - exact IH.
Qed.

Lemma fa_scan_S s (w : W) from ceil height headers i :
  fa_scan s w from ceil height headers (S i) =
  match headers !! i with
  | None => ScanNone
  | Some h =>
      if (Int64 (Number h) <? from) || (Uint64 (Number h) >? ceil)
      then fa_scan s w from ceil height headers i
      else if fa_known s w h then
        if (Uint64 (Number h) >? height) && (Z.of_nat i =? fa_limit - 1)
        then ScanStalling
        else ScanFound (Uint64 (Number h)) (Hash h)
      else fa_scan s w from ceil height headers i
  end.
Proof. reflexivity. Qed.

Lemma fa_conforms_lookup from : forall headers k j h,
  fa_conforms from k headers = true ->
  headers !! j = Some h ->
  Int64 (Number h) = i64 (from + i64 (i64 (k + Z.of_nat j) * 16)).
Proof.
  induction headers as [|h0 hs IH]; intros k j h Hc Hj; [discriminate|].
  cbn in Hc. apply andb_prop in Hc as [Hh Hrest].
  destruct j as [|j]; cbn in Hj.
  - injection Hj as <-. apply Z.eqb_eq in Hh. rewrite Hh, Z.add_0_r. reflexivity.
  - rewrite (IH _ _ _ Hrest Hj).
    replace (k + 1 + Z.of_nat j) with (k + Z.of_nat (S j)) by lia. reflexivity.
Qed.

(** C6 (as the code has it). When the master peer's reply to the head
    fetch conforms to the request, holds the full [fa_limit] = 24
    headers, and its topmost header is within the local chain, known
    locally and above the height the peer reported, [findAncestor]
    returns [errStallingPeer]. *)
Theorem findAncestor_lying_peer s (w : W) p height pre headers top rest :
  0 <= height < 2 ^ 62 ->
  0 <= fa_ceil s w ->
  Forall (fa_ignored p) pre ->
  len headers = fa_limit ->
  fa_conforms (fa_from (fa_head (fa_ceil s w) height)) 0 headers = true ->
  last headers = Some top ->
  Uint64 (Number top) <= fa_ceil s w ->
  fa_known s w top = true ->
  height < Uint64 (Number top) ->
  findAncestor s w p height (pre ++ FaHeaders (id p) headers :: rest)
  = Some (Return (Some errStallingPeer), 0).
Proof.
  intros Hh Hceil Hpre Hlen Hconf Hlast Hin Hknown Hlied.
  pose proof (eq_refl : 2 ^ 62 = 4611686018427387904) as H62.
  pose proof (eq_refl : 2 ^ 63 = 9223372036854775808) as H63.
  unfold findAncestor. rewrite fa_probe_skip by exact Hpre.
  set (from := fa_from (fa_head (fa_ceil s w) height)) in *.
  assert (Hfrom : 0 <= from < 2 ^ 62).
  { subst from. unfold fa_from, fa_head, MaxHeaderFetch.
    destruct (Z.gtb_spec (fa_ceil s w) height).
    - rewrite (i64_small height) by lia. rewrite (i64_small 192) by lia.
      rewrite i64_small by lia. destruct (Z.ltb_spec (height - 192) 0); lia.
    - rewrite (i64_small (fa_ceil s w)) by lia. rewrite (i64_small 192) by lia.
      rewrite i64_small by lia. destruct (Z.ltb_spec (fa_ceil s w - 192) 0); lia. }
  assert (Hn : length headers = 24%nat).
  { unfold len, fa_limit, MaxHeaderFetch in Hlen.
    change (2 * 192 / 16) with 24 in Hlen. lia. }
  rewrite last_lookup, Hn in Hlast. cbn [Init.Nat.pred] in Hlast.
  pose proof (fa_conforms_lookup from headers 0 23 top Hconf Hlast) as Htop.
  change (i64 (0 + Z.of_nat 23)) with 23 in Htop.
  change (i64 (23 * 16)) with 368 in Htop.
  rewrite i64_small in Htop by lia.
  cbn [fa_probe]. rewrite bool_decide_eq_false_2 by (intros Hne; apply Hne; reflexivity).
  rewrite Hlen. change (fa_limit =? 0) with false. cbn iota.
  rewrite Hconf. cbn [negb]. rewrite Hn.
  change 24%nat with (S 23). rewrite fa_scan_S, Hlast.
  destruct (Z.ltb_spec (Int64 (Number top)) from); [lia|].
  destruct (Z.gtb_spec (Uint64 (Number top)) (fa_ceil s w)); [lia|].
  cbn [orb]. rewrite Hknown.
  destruct (Z.gtb_spec (Uint64 (Number top)) height); [|lia].
  change (Z.of_nat 23 =? fa_limit - 1) with true. reflexivity.
Qed.
End FindAncestor.

Lemma findAncestor_lying_peer_witness :
  let s := set_mode LightSync (newLightsync ∅) in
  let w := mkTestChain [mkHeader 676 676 0] [] 1000 0 0 in
  let headers := mk_headers 308 16 24 in
  let top := mkHeader 676 676 0 in
  (0 <= 500 < 2 ^ 62
   /\ 0 <= fa_ceil s w
   /\ Forall (fa_ignored peerA) [FaBody; FaHeaders "b" []]
   /\ len headers = fa_limit
   /\ fa_conforms (fa_from (fa_head (fa_ceil s w) 500)) 0 headers = true
   /\ last headers = Some top
   /\ Uint64 (Number top) <= fa_ceil s w
   /\ fa_known s w top = true
   /\ 500 < Uint64 (Number top))
  /\ findAncestor s w peerA 500
       ([FaBody; FaHeaders "b" []] ++ FaHeaders (id peerA) headers :: [])
     = Some (Return (Some errStallingPeer), 0).
Proof.
  assert (Hpre : Forall (fa_ignored peerA) [FaBody; FaHeaders "b" []]).
  { repeat constructor. cbn. discriminate. }
  split.
  - split; [split; vm_compute; [discriminate | reflexivity]|].
    split; [vm_compute; discriminate|]. split; [exact Hpre|].
    split; [reflexivity|]. split; [vm_compute; reflexivity|].
    split; [reflexivity|]. split; [vm_compute; discriminate|].
    split; [vm_compute; reflexivity | vm_compute; reflexivity].
  - apply (findAncestor_lying_peer (set_mode LightSync (newLightsync ∅))
             (mkTestChain [mkHeader 676 676 0] [] 1000 0 0) peerA 500 [FaBody; FaHeaders "b" []]
             (mk_headers 308 16 24) (mkHeader 676 676 0) []).
    + split; vm_compute; [discriminate | reflexivity].
    + vm_compute; discriminate.
    + exact Hpre.
    + reflexivity.
    + vm_compute; reflexivity.
    + reflexivity.
    + vm_compute; discriminate.
    + vm_compute; reflexivity.
    + vm_compute; reflexivity.
Defined.

(** The binary search: the local chain shares blocks 0 to 4 with the peer
    and has its own blocks 5 to 10; the probe finds nothing it can use and
    the search closes in on block 4. *)
Example findAncestor_binary_search :
  let s := set_mode LightSync (newLightsync ∅) in
  let local :=
    mk_headers 0 1 5
    ++ map (fun h => mkHeader (Number h) (Hash h + 500) 0) (mk_headers 5 1 6) in
  let reply n := FaHeaders "a" [mkHeader n n 0] in
  findAncestor s (mkTestChain local [] 10 0 0) peerA 10
    [reply 0; reply 5; FaBody; reply 2; reply 3; reply 4]
  = Some (Return None, 4).
Proof. vm_compute. reflexivity. Qed.

(** C6, as stated, fails: with the local chain at block 100 and a peer
    that reports height 50, the request is for the 7 headers 0, 16, ..., 96;
    the topmost one, 96, is known locally and above the reported height,
    and [findAncestor] returns it as the common ancestor. *)
Lemma findAncestor_lying_peer_counterexample :
  let s := set_mode LightSync (newLightsync ∅) in
  let w := mkTestChain (mk_headers 0 16 7) [] 100 0 0 in
  let headers := mk_headers 0 16 7 in
  fa_count (fa_ceil s w) (fa_from (fa_head (fa_ceil s w) 50)) = 7
  /\ last headers = Some (mkHeader 96 96 0)
  /\ fa_known s w (mkHeader 96 96 0) = true
  /\ 50 < Uint64 96
  /\ findAncestor s w peerA 50 [FaHeaders "a" headers] = Some (Return None, 96)
  /\ findAncestor s w peerA 50 [FaHeaders "a" headers]
     <> Some (Return (Some errStallingPeer), 0).
Proof.
  cbn zeta. repeat (split; [vm_compute; reflexivity|]). vm_compute. discriminate.
Qed.

(** ** The QoS estimator: [float64] division and rounding *)

Lemma digits2_pos_bounds p :
  2 ^ (Zpos (digits2_pos p) - 1) <= Zpos p < 2 ^ Zpos (digits2_pos p).
Proof.
  induction p as [p IH|p IH|]; cbn [digits2_pos].
  - rewrite Pos2Z.inj_succ. replace (Z.succ (Zpos (digits2_pos p)) - 1) with (Z.succ (Zpos (digits2_pos p) - 1)) by lia.
    rewrite !Z.pow_succ_r by lia. lia.
  - rewrite Pos2Z.inj_succ. replace (Z.succ (Zpos (digits2_pos p)) - 1) with (Z.succ (Zpos (digits2_pos p) - 1)) by lia.
    rewrite !Z.pow_succ_r by lia. lia.
  - cbn. lia.
Qed.

Lemma digits2_pos_unique p d :
  2 ^ (d - 1) <= Zpos p < 2 ^ d -> Zpos (digits2_pos p) = d.
Proof.
  intros [Hlo Hhi]. pose proof (digits2_pos_bounds p) as [Blo Bhi].
  assert (Hd : 0 < d).
  { destruct (Z.ltb_spec 0 d); [assumption|].
    destruct (Z.eq_dec d 0) as [->|]; [cbn in Hhi; lia|].
    rewrite Z.pow_neg_r in Hhi by lia. lia. }
  destruct (Z.lt_trichotomy (Zpos (digits2_pos p)) d) as [Hlt|[Heq|Hgt]]; [|exact Heq|].
  - assert (2 ^ Zpos (digits2_pos p) <= 2 ^ (d - 1)) by (apply Z.pow_le_mono_r; lia). lia.
  - assert (2 ^ d <= 2 ^ (Zpos (digits2_pos p) - 1)) by (apply Z.pow_le_mono_r; lia). lia.
Qed.

Lemma Zdigits2_53 p : P52 <= Zpos p < P53 -> Zdigits2 (Zpos p) = 53.
Proof. intros Hp. cbn. apply digits2_pos_unique. exact Hp. Qed.

Lemma Zdigits2_54 p : P53 <= Zpos p < P54 -> Zdigits2 (Zpos p) = 54.
Proof. intros Hp. cbn. apply digits2_pos_unique. exact Hp. Qed.

Lemma shr_fexp_53 p e l :
  P52 <= Zpos p < P53 -> -1074 <= e ->
  shr_fexp 53 1024 (Zpos p) e l = (shr_record_of_loc (Zpos p) l, e).
Proof.
  intros Hp He. unfold shr_fexp. rewrite (Zdigits2_53 p Hp).
  unfold fexp, emin. replace (Z.max (53 + e - 53) (3 - 1024 - 53) - e) with 0 by lia.
  reflexivity.
Qed.

Lemma shr_1_half p r s :
  shr_m (shr_1 (Build_shr_record (Zpos p) r s)) = Zpos p / 2.
Proof.
  destruct p as [p|p|]; cbn [shr_1 shr_m].
  - rewrite Pos2Z.inj_xI. apply Z.div_unique with 1; lia.
  - rewrite Pos2Z.inj_xO. apply Z.div_unique with 0; lia.
  - reflexivity.
Qed.

Lemma shr_fexp_54 p e l :
  P53 <= Zpos p < P54 -> -1074 <= e ->
  exists mrs, shr_fexp 53 1024 (Zpos p) e l = (mrs, e + 1) /\ shr_m mrs = Zpos p / 2.
Proof.
  intros Hp He. unfold shr_fexp. rewrite (Zdigits2_54 p Hp).
  unfold fexp, emin. replace (Z.max (54 + e - 53) (3 - 1024 - 53) - e) with 1 by lia.
  cbn [shr iter_pos]. eexists. split; [reflexivity|].
  destruct l as [|[]]; cbn [shr_record_of_loc]; apply shr_1_half.
Qed.

Lemma round_nearest_even_cases m l :
  round_nearest_even m l = m \/ round_nearest_even m l = m + 1.
Proof.
  destruct l as [|[]]; cbn; auto. destruct (Z.even m); auto.
Qed.

(** Rounding of a quotient with 53 or 54 digits. *)
Lemma binary_round_aux_spec sx q e l :
  P52 <= q < P54 -> -1074 <= e -> e + 2 <= 971 ->
  exists m k,
    binary_round_aux 53 1024 sx q e l = S754_finite sx m (e + k)
    /\ P52 <= Zpos m < P53
    /\ ((q < P53 /\ k = 0 /\ (Zpos m = q \/ Zpos m = q + 1))
        \/ (q = P53 - 1 /\ k = 1 /\ Zpos m = P52)
        \/ (P53 <= q /\ k = 1 /\ (Zpos m = q / 2 \/ Zpos m = q / 2 + 1))
        \/ (P53 <= q /\ q / 2 = P53 - 1 /\ k = 2 /\ Zpos m = P52)).
Proof.
  intros Hq He1 He2.
  assert (Hfin : forall t e1, P52 <= t < P53 -> -1074 <= e1 -> e1 + 1 <= 971 ->
            forall l1,
            exists m k1,
              (let '(mrs'', e'') :=
                 shr_fexp 53 1024 (round_nearest_even t l1) e1 loc_Exact in
               match shr_m mrs'' with
               | Z0 => S754_zero sx
               | Zpos m => if Z.leb e'' (1024 - 53) then S754_finite sx m e''
                           else S754_infinity sx
               | Zneg _ => S754_nan
               end) = S754_finite sx m (e1 + k1)
              /\ P52 <= Zpos m < P53
              /\ ((k1 = 0 /\ (Zpos m = t \/ Zpos m = t + 1))
                  \/ (t = P53 - 1 /\ k1 = 1 /\ Zpos m = P52))).
  { intros t e1 Ht Hlo Hhi l1.
    destruct (round_nearest_even_cases t l1) as [Hr|Hr]; rewrite Hr.
    - destruct t as [|pt|pt]; try (unfold P52 in Ht; lia).
      rewrite shr_fexp_53 by assumption. cbn [shr_record_of_loc shr_m].
      destruct (Z.leb_spec e1 (1024 - 53)); [|lia].
      exists pt, 0. rewrite Z.add_0_r. split; [reflexivity|]. split; [exact Ht|].
      left. split; [reflexivity | left; reflexivity].
    - destruct (Z.eq_dec (t + 1) P53) as [Heq|Hne].
      + rewrite Heq. change P53 with (Zpos 9007199254740992).
        destruct (shr_fexp_54 9007199254740992 e1 loc_Exact) as (mrs & -> & Hm);
          [unfold P53, P54; lia | assumption |].
        rewrite Hm. change (Zpos 9007199254740992 / 2) with (Zpos 4503599627370496).
        destruct (Z.leb_spec (e1 + 1) (1024 - 53)); [|lia].
        exists 4503599627370496%positive, 1. split; [reflexivity|].
        unfold P52, P53 in *. split; [lia|]. right. lia.
      + destruct (t + 1) as [|pt|pt] eqn:Et; try (unfold P52 in Ht; lia).
        rewrite shr_fexp_53 by (try assumption; lia). cbn [shr_record_of_loc shr_m].
        destruct (Z.leb_spec e1 (1024 - 53)); [|lia].
        exists pt, 0. rewrite Z.add_0_r. split; [reflexivity|]. split; [lia|]. left. auto. }
  unfold binary_round_aux.
  destruct q as [|pq|pq]; try (unfold P52 in Hq; lia).
  destruct (Z.lt_ge_cases (Zpos pq) P53) as [Hlt|Hge].
  - rewrite shr_fexp_53 by (try assumption; lia).
    destruct (Hfin (Zpos pq) e (conj (proj1 Hq) Hlt) He1 ltac:(lia)
                (loc_of_shr_record (shr_record_of_loc (Zpos pq) l)))
      as (m & k1 & Heq & Hm & Hc).
    replace (shr_m (shr_record_of_loc (Zpos pq) l)) with (Zpos pq)
      by (destruct l as [|[]]; reflexivity).
    exists m, k1. split; [exact Heq|]. split; [exact Hm|].
    destruct Hc as [[-> Hc]|(Ht & -> & Hp)]; [left; auto | right; left; auto].
  - destruct (shr_fexp_54 pq e l) as (mrs & -> & Hm); [lia | assumption |].
    assert (Ht : P52 <= Zpos pq / 2 < P53).
    { unfold P52, P53, P54 in *. split.
      - apply Z.div_le_lower_bound; lia.
      - apply Z.div_lt_upper_bound; lia. }
    destruct (Hfin (Zpos pq / 2) (e + 1) Ht ltac:(lia) ltac:(lia) (loc_of_shr_record mrs))
      as (m & k1 & Heq & Hm' & Hc).
    rewrite Hm. exists m, (1 + k1). rewrite Z.add_assoc. split; [exact Heq|].
    split; [exact Hm'|].
    destruct Hc as [[-> Hc]|(Ht' & -> & Hp)].
    + right; right; left. auto.
    + right; right; right. auto.
Qed.

Lemma float64_div_spec mx ex my ey :
  P52 <= Zpos mx < P53 -> P52 <= Zpos my < P53 ->
  -1074 <= ex - ey - 53 -> ex - ey - 53 + 2 <= 971 ->
  let q := (Zpos mx * P53) / Zpos my in
  P52 <= q < P54 /\
  exists m k,
    float64_div (S754_finite false mx ex) (S754_finite false my ey)
    = S754_finite false m (ex - ey - 53 + k)
    /\ P52 <= Zpos m < P53
    /\ ((q < P53 /\ k = 0 /\ (Zpos m = q \/ Zpos m = q + 1))
        \/ (q = P53 - 1 /\ k = 1 /\ Zpos m = P52)
        \/ (P53 <= q /\ k = 1 /\ (Zpos m = q / 2 \/ Zpos m = q / 2 + 1))
        \/ (P53 <= q /\ q / 2 = P53 - 1 /\ k = 2 /\ Zpos m = P52)).
Proof.
  intros Hx Hy Hlo Hhi q.
  assert (Hq : P52 <= q < P54).
  { subst q. unfold P52, P53, P54 in *. split.
    - apply Z.div_le_lower_bound; nia.
    - apply Z.div_lt_upper_bound; nia. }
  split; [exact Hq|].
  unfold float64_div, SFdiv, SFdiv_core_binary. cbv zeta.
  rewrite (Zdigits2_53 mx Hx), (Zdigits2_53 my Hy).
  replace (Z.min (fexp 53 1024 (53 + ex - (53 + ey))) (ex - ey)) with (ex - ey - 53)
    by (unfold fexp, emin; lia).
  replace (ex - ey - (ex - ey - 53)) with 53 by lia.
  cbv iota beta. rewrite Z.shiftl_mul_pow2 by lia. change (2 ^ 53) with P53.
  fold q. assert (Hdiv : fst (Z.div_eucl (Zpos mx * P53) (Zpos my)) = q).
  { subst q. unfold Z.div. destruct (Z.div_eucl _ _). reflexivity. }
  destruct (Z.div_eucl (Zpos mx * P53) (Zpos my)) as [q' r]. cbn [fst] in Hdiv. subst q'.
  cbn [xorb]. apply binary_round_aux_spec; assumption.
Qed.

Lemma binary_round_aux_exact sx p e :
  P52 <= Zpos p < P53 -> -1074 <= e <= 971 ->
  binary_round_aux 53 1024 sx (Zpos p) e loc_Exact = S754_finite sx p e.
Proof.
  intros Hp He. unfold binary_round_aux.
  rewrite shr_fexp_53 by (try assumption; lia).
  cbn [shr_record_of_loc shr_m loc_of_shr_record round_nearest_even].
  rewrite shr_fexp_53 by (try assumption; lia).
  cbn [shr_record_of_loc shr_m].
  destruct (Z.leb_spec e (1024 - 53)); [reflexivity | lia].
Qed.

Lemma Pos_iter_xO p k : Zpos (Pos.iter xO p k) = Zpos p * 2 ^ Zpos k.
Proof.
  induction k as [|k IH] using Pos.peano_ind.
  - cbn. lia.
  - rewrite Pos.iter_succ, Pos2Z.inj_xO, IH, Pos2Z.inj_succ, Z.pow_succ_r by lia. lia.
Qed.

Lemma float64_of_Z_spec n :
  1 <= n < P53 ->
  exists m e, float64_of_Z n = S754_finite false m e
              /\ P52 <= Zpos m < P53 /\ -52 <= e <= 0 /\ Zpos m = n * 2 ^ (- e).
Proof.
  intros Hn. destruct n as [|p|p]; try lia.
  pose proof (digits2_pos_bounds p) as [Blo Bhi].
  set (d := Zpos (digits2_pos p)) in *.
  assert (Hd : 1 <= d <= 53).
  { split; [subst d; lia|].
    destruct (Z.le_gt_cases d 53); [assumption|].
    assert (2 ^ 53 <= 2 ^ (d - 1)) by (apply Z.pow_le_mono_r; lia).
    unfold P53 in Hn. change (2 ^ 53) with 9007199254740992 in *. lia. }
  unfold float64_of_Z, binary_normalize, binary_round, shl_align.
  fold d. replace (fexp 53 1024 (d + 0)) with (d - 53) by (unfold fexp, emin; lia).
  destruct (d - 53 - 0) as [|k|k] eqn:Ek; try lia.
  - assert (d = 53) by lia. subst d.
    assert (Hp : P52 <= Zpos p < P53).
    { unfold P52, P53. replace (Zpos (digits2_pos p)) with 53 in * by lia.
      change (2 ^ (53 - 1)) with 4503599627370496 in Blo.
      change (2 ^ 53) with 9007199254740992 in Bhi. lia. }
    rewrite binary_round_aux_exact by (try assumption; lia).
    exists p, 0. split; [reflexivity|]. split; [exact Hp|]. split; [lia|]. cbn. lia.
  - assert (Hk : Zpos k = 53 - d) by lia.
    assert (Hp : P52 <= Zpos (Pos.iter xO p k) < P53).
    { rewrite Pos_iter_xO, Hk.
      assert (E52 : P52 = 2 ^ (d - 1) * 2 ^ (53 - d)).
      { rewrite <- Z.pow_add_r by lia. replace (d - 1 + (53 - d)) with 52 by lia.
        reflexivity. }
      assert (E53 : P53 = 2 ^ d * 2 ^ (53 - d)).
      { rewrite <- Z.pow_add_r by lia. replace (d + (53 - d)) with 53 by lia.
        reflexivity. }
      assert (0 < 2 ^ (53 - d)) by (apply Z.pow_pos_nonneg; lia).
      rewrite E52, E53. split.
      - apply Z.mul_le_mono_nonneg_r; lia.
      - apply Z.mul_lt_mono_pos_r; lia. }
    rewrite binary_round_aux_exact by (try assumption; lia).
    exists (Pos.iter xO p k), (d - 53). split; [reflexivity|]. split; [exact Hp|].
    split; [lia|]. rewrite Pos_iter_xO, Hk. f_equal. f_equal. lia.
Qed.

Lemma float64_lt_finite m e m' e' :
  float64_lt (S754_finite false m e) (S754_finite false m' e')
  = (e <? e') || ((e =? e') && (Zpos m <? Zpos m')).
Proof.
  unfold float64_lt, SFltb, SFcompare.
  destruct (Z.compare_spec e e') as [->|Hlt|Hgt].
  - rewrite Z.ltb_irrefl, Z.eqb_refl. cbn [orb andb].
    rewrite Pos.compare_cont_spec. cbn [Pos.switch_Eq].
    unfold Z.ltb. cbn [Z.compare]. destruct (Pos.compare m m'); reflexivity.
  - destruct (Z.ltb_spec e e'); [reflexivity | lia].
  - destruct (Z.ltb_spec e e'); [lia|]. destruct (Z.eqb_spec e e'); [lia | reflexivity].
Qed.

Lemma float64_of_1000000 :
  float64_of_Z 1000000 = S754_finite false 8589934592000000 (-33).
Proof. vm_compute. reflexivity. Qed.

(** The exponent of a confidence in millionths. *)
Lemma confidence_exponent c a :
  1 <= c <= 1000000 -> 0 <= a <= 52 -> P52 <= c * 2 ^ a < P53 ->
  a = 33 \/ a = 34 \/ a = 35 \/ a = 36 \/ a = 37 \/ a = 38 \/ a = 39 \/ a = 40
  \/ a = 41 \/ a = 42 \/ a = 43 \/ a = 44 \/ a = 45 \/ a = 46 \/ a = 47 \/ a = 48
  \/ a = 49 \/ a = 50 \/ a = 51 \/ a = 52.
Proof.
  intros Hc Ha Hm.
  assert (33 <= a).
  { destruct (Z.le_gt_cases 33 a); [assumption|].
    assert (2 ^ a <= 2 ^ 32) by (apply Z.pow_le_mono_r; lia).
    change (2 ^ 32) with 4294967296 in *. unfold P52 in Hm. nia. }
  lia.
Qed.

Ltac decide_tests :=
  repeat match goal with
         | |- context [Z.ltb ?x ?y] => destruct (Z.ltb_spec x y)
         | |- context [Z.eqb ?x ?y] => destruct (Z.eqb_spec x y)
         end;
  cbn [orb andb]; try reflexivity; exfalso; lia.

(** The test [float64(conf)/1000000 < rttMinConfidence] on a confidence in
    millionths is the test [conf < 100000]. *)
Lemma confidence_floor_test c :
  0 <= c <= 1000000 ->
  float64_lt (float64_div (float64_of_Z c) (float64_of_Z 1000000)) rttMinConfidence
  = (c <? 100000).
Proof.
  intros Hc.
  destruct (Z.eq_dec c 0) as [->|Hc0]; [vm_compute; reflexivity|].
  destruct (Z.eq_dec c 100000) as [->|Hc1]; [vm_compute; reflexivity|].
  destruct (float64_of_Z_spec c) as (m1 & e1 & -> & Hm1 & He1 & Hv1); [unfold P53; lia|].
  rewrite float64_of_1000000.
  destruct (float64_div_spec m1 e1 8589934592000000 (-33))
    as (Hq & m & k & -> & Hm & Hcase);
    [exact Hm1 | unfold P52, P53; lia | lia | lia |].
  unfold rttMinConfidence. rewrite float64_lt_finite.
  rewrite Hv1 in Hm1, Hq, Hcase.
  pose proof (Z.mul_div_le (c * 2 ^ (- e1) * P53) (Zpos 8589934592000000) eq_refl) as Hqlo.
  pose proof (Z.mul_succ_div_gt (c * 2 ^ (- e1) * P53) (Zpos 8589934592000000) eq_refl) as Hqhi.
  set (q := c * 2 ^ (- e1) * P53 / Zpos 8589934592000000) in *. clearbody q.
  pose proof (Z.div_mod q 2 ltac:(discriminate)) as Hq2.
  pose proof (Z.mod_pos_bound q 2 eq_refl) as Hq2'.
  set (D := Zpos 8589934592000000) in *.
  assert (HD : D = 8589934592000000) by reflexivity. clearbody D.
  set (M0 := Zpos 7205759403792794) in *.
  assert (HM0 : M0 = 7205759403792794) by reflexivity. clearbody M0.
  set (a := - e1) in *. assert (Ha : e1 = - a) by (subst a; lia). clearbody a. subst e1.
  clear Hv1. unfold P52, P53, P54 in *.
  destruct (confidence_exponent c a) as
    [->|[->|[->|[->|[->|[->|[->|[->|[->|[->|[->|[->|[->|[->|[->|[->|[->|[->|[->| ->]]]]]]]]]]]]]]]]]]];
    [lia | lia | exact Hm1 | .. ];
    match goal with
    | H : context [2 ^ ?n] |- _ =>
        let v := eval vm_compute in (2 ^ n) in change (2 ^ n) with v in *
    end;
    destruct Hcase as [(H1 & -> & H2)|[(H1 & -> & H2)|[(H1 & -> & H2)|(H1 & H2 & -> & H3)]]];
    subst D M0; decide_tests.
Qed.

(** A confidence in millionths, as a fraction: a float that is at most 1. *)
Lemma confidence_fraction conf :
  1 <= conf <= 1000000 ->
  exists my ey,
    float64_div (float64_of_Z conf) (float64_of_Z 1000000) = S754_finite false my ey
    /\ P52 <= Zpos my < P53 /\ -72 <= ey <= -52 /\ (ey = -52 -> Zpos my = P52).
Proof.
  intros Hc.
  destruct (Z.eq_dec conf 1000000) as [->|Hc1].
  { exists 4503599627370496%positive, (-52). split; [vm_compute; reflexivity|].
    unfold P52, P53. repeat split; lia. }
  destruct (float64_of_Z_spec conf) as (m1 & e1 & -> & Hm1 & He1 & Hv1); [unfold P53; lia|].
  rewrite float64_of_1000000.
  destruct (float64_div_spec m1 e1 8589934592000000 (-33))
    as (Hq & m & k & -> & Hm & Hcase);
    [exact Hm1 | unfold P52, P53; lia | lia | lia |].
  exists m, (e1 - -33 - 53 + k). split; [reflexivity|]. split; [exact Hm|].
  rewrite Hv1 in Hm1, Hq, Hcase.
  pose proof (Z.mul_div_le (conf * 2 ^ (- e1) * P53) (Zpos 8589934592000000) eq_refl) as Hqlo.
  pose proof (Z.mul_succ_div_gt (conf * 2 ^ (- e1) * P53) (Zpos 8589934592000000) eq_refl) as Hqhi.
  set (q := conf * 2 ^ (- e1) * P53 / Zpos 8589934592000000) in *. clearbody q.
  pose proof (Z.div_mod q 2 ltac:(discriminate)) as Hq2.
  pose proof (Z.mod_pos_bound q 2 eq_refl) as Hq2'.
  set (a := - e1) in *. assert (Ha : e1 = - a) by (subst a; lia). clearbody a. subst e1.
  clear Hv1. unfold P52, P53, P54 in *.
  destruct (confidence_exponent conf a) as
    [->|[->|[->|[->|[->|[->|[->|[->|[->|[->|[->|[->|[->|[->|[->|[->|[->|[->|[->| ->]]]]]]]]]]]]]]]]]]];
    [lia | lia | exact Hm1 | .. ];
    match goal with
    | H : context [2 ^ ?n] |- _ =>
        let v := eval vm_compute in (2 ^ n) in change (2 ^ n) with v in *
    end;
    destruct Hcase as [(H1 & -> & H2)|[(H1 & -> & H2)|[(H1 & -> & H2)|(H1 & H2 & -> & H3)]]];
    lia.
Qed.

(** Division of a round trip time by a fraction that is at most 1, turned
    into an integer, does not fall below the round trip time. *)
Lemma ttl_quotient rtt my ey :
  1 <= rtt <= 66666666666 ->
  P52 <= Zpos my < P53 -> -72 <= ey <= -52 -> (ey = -52 -> Zpos my = P52) ->
  rtt <= int64_of_float64 (float64_div (float64_of_Z rtt) (S754_finite false my ey))
      < 2 ^ 61.
Proof.
  intros Hr Hmy Hey Hone.
  destruct (float64_of_Z_spec rtt) as (mx & ex & -> & Hmx & Hex & Hvx); [unfold P53; lia|].
  assert (Hex' : ex <= -17).
  { destruct (Z.le_gt_cases ex (-17)); [assumption|].
    assert (2 ^ (- ex) <= 2 ^ 16) by (apply Z.pow_le_mono_r; lia).
    change (2 ^ 16) with 65536 in *. unfold P52 in Hmx. nia. }
  destruct (float64_div_spec mx ex my ey) as (Hq & m & k & -> & Hm & Hcase);
    [exact Hmx | exact Hmy | lia | lia |].
  set (q := Zpos mx * P53 / Zpos my) in *.
  assert (Hqmx : Zpos mx <= q).
  { subst q. apply Z.div_le_lower_bound; [lia|]. unfold P53 in *. nia. }
  assert (Hq1 : ey = -52 -> q = 2 * Zpos mx).
  { intros He. subst q. rewrite (Hone He). unfold P52, P53.
    replace (Zpos mx * 9007199254740992) with (2 * Zpos mx * 4503599627370496) by lia.
    apply Z.div_mul. discriminate. }
  pose proof (Z.div_mod q 2 ltac:(discriminate)) as Hq2.
  pose proof (Z.mod_pos_bound q 2 eq_refl) as Hq2'.
  clearbody q.
  set (e := ex - ey - 53 + k).
  assert (Hlow : (ex <= e /\ Zpos mx <= Zpos m) \/ ex + 1 <= e).
  { subst e. unfold P52, P53, P54 in *.
    destruct (Z.eq_dec ey (-52)) as [He|He].
    - specialize (Hq1 He).
      destruct Hcase as [(H1 & -> & H2)|[(H1 & -> & H2)|[(H1 & -> & H2)|(H1 & H2 & -> & H3)]]];
        lia.
    - destruct Hcase as [(H1 & -> & H2)|[(H1 & -> & H2)|[(H1 & -> & H2)|(H1 & H2 & -> & H3)]]];
        lia. }
  assert (Hek : 0 <= k <= 2) by
    (destruct Hcase as [(H1 & -> & H2)|[(H1 & -> & H2)|[(H1 & -> & H2)|(H1 & H2 & -> & H3)]]];
     lia).
  assert (Heup : e <= 4) by (subst e; lia).
  fold e. clearbody e. clear Hcase Hq1.
  unfold int64_of_float64.
  assert (Hval : rtt <= (if 0 <=? e then Zpos m * 2 ^ e else Zpos m / 2 ^ (- e)) < 2 ^ 57).
  { change (2 ^ 57) with 144115188075855872. unfold P52, P53 in *.
    destruct (Z.leb_spec 0 e) as [He0|He0].
    - assert (1 <= 2 ^ e <= 2 ^ 4).
      { split; [apply (Z.pow_le_mono_r 2 0 e); lia | apply Z.pow_le_mono_r; lia]. }
      change (2 ^ 4) with 16 in *.
      assert (Zpos m * 1 <= Zpos m * 2 ^ e) by (apply Z.mul_le_mono_nonneg_l; lia).
      assert (Zpos m * 2 ^ e <= Zpos m * 16) by (apply Z.mul_le_mono_nonneg_l; lia).
      lia.
    - assert (Hb : 0 < 2 ^ (- e)) by (apply Z.pow_pos_nonneg; lia).
      split.
      + apply Z.div_le_lower_bound; [exact Hb|].
        destruct Hlow as [[Hle Hmm]|Hle].
        * assert (2 ^ (- e) <= 2 ^ (- ex)) by (apply Z.pow_le_mono_r; lia). nia.
        * assert (2 ^ (- e) <= 2 ^ (- ex - 1)) by (apply Z.pow_le_mono_r; lia).
          assert (2 ^ (- ex) = 2 * 2 ^ (- ex - 1)).
          { replace (- ex) with (Z.succ (- ex - 1)) at 1 by lia.
            apply Z.pow_succ_r. lia. }
          nia.
      + apply Z.div_lt_upper_bound; [exact Hb|]. nia. }
  cbv beta iota zeta. change (2 ^ 57) with 144115188075855872 in Hval.
  change (2 ^ 61) with 2305843009213693952. change (2 ^ 63) with 9223372036854775808.
  set (v := if 0 <=? e then Zpos m * 2 ^ e else Zpos m / 2 ^ (- e)) in *.
  match goal with
  | |- context [?a <=? v] => destruct (Z.leb_spec a v); [|lia]
  end.
  destruct (Z.ltb_spec v 9223372036854775808); [|lia].
  cbn [andb]. lia.
Qed.

(** ** The QoS estimator: timings and confidence *)

Lemma requestTTL_le_limit s : requestTTL s <= ttlLimit.
Proof.
  unfold requestTTL. cbv zeta.
  match goal with |- context [?a >? ttlLimit] => destruct (Z.gtb_spec a ttlLimit) end; lia.
Qed.

(** C7 (as the code has it). For a round trip estimate of at most
    66.666666666 s, which is [ttlLimit / 0.9] and covers every estimate up
    to [rttMaxEstimate], and a confidence in millionths that is positive
    and at most 1,000,000: [requestRTT] is 0.9 times the estimate, rounded
    down, [requestTTL] is [ttlScaling] times a quotient that is not below
    the estimate, capped at [ttlLimit], and
    [requestRTT <= requestTTL <= ttlLimit]. *)
Theorem request_timings s :
  0 <= rttEstimate s <= 66666666666 ->
  0 < rttConfidence s <= 1000000 ->
  requestRTT s = rttEstimate s * 9 / 10
  /\ 0 <= requestRTT s <= requestTTL s
  /\ requestTTL s <= ttlLimit
  /\ exists q, rttEstimate s <= q
               /\ requestTTL s = Z.min (ttlScaling * q) ttlLimit.
Proof.
  intros Hr Hc.
  pose proof (eq_refl : 2 ^ 63 = 9223372036854775808) as H63.
  pose proof (eq_refl : 2 ^ 61 = 2305843009213693952) as H61.
  assert (HRTT : requestRTT s = rttEstimate s * 9 / 10).
  { unfold requestRTT. rewrite (i64_small (rttEstimate s)) by lia.
    rewrite i64_small by lia. apply Z.quot_div_nonneg; lia. }
  assert (Hdiv : 0 <= rttEstimate s * 9 / 10 <= rttEstimate s).
  { split; [apply Z.div_pos; lia|]. apply Z.div_le_upper_bound; lia. }
  assert (Hlim : rttEstimate s * 9 / 10 <= ttlLimit).
  { unfold ttlLimit, second. apply Z.div_le_upper_bound; lia. }
  assert (Hq : exists q, rttEstimate s <= q < 2 ^ 61
             /\ int64_of_float64
                  (float64_div (float64_of_Z (i64 (rttEstimate s)))
                     (float64_div (float64_of_Z (rttConfidence s)) (float64_of_Z 1000000)))
                = q).
  { rewrite i64_small by lia.
    destruct (confidence_fraction (rttConfidence s)) as (my & ey & -> & Hmy & Hey & Hone);
      [lia|].
    destruct (Z.eq_dec (rttEstimate s) 0) as [->|Hne].
    - exists 0. split; [lia | reflexivity].
    - eexists. split; [|reflexivity]. apply ttl_quotient; (assumption || lia). }
  destruct Hq as (q & Hqr & Hqe).
  assert (HTTL : requestTTL s = Z.min (ttlScaling * q) ttlLimit).
  { unfold requestTTL. cbv zeta. rewrite Hqe. unfold ttlScaling.
    rewrite i64_small by lia.
    destruct (Z.gtb_spec (3 * q) ttlLimit); lia. }
  split; [exact HRTT|]. rewrite HRTT, HTTL. unfold ttlScaling.
  split; [lia|]. split; [lia|]. exists q. split; [lia | reflexivity].
Qed.

Lemma request_timings_witness :
  let s := newLightsync ∅ in
  (0 <= rttEstimate s <= 66666666666 /\ 0 < rttConfidence s <= 1000000)
  /\ requestRTT s = rttEstimate s * 9 / 10
  /\ 0 <= requestRTT s <= requestTTL s
  /\ requestTTL s <= ttlLimit
  /\ exists q, rttEstimate s <= q
               /\ requestTTL s = Z.min (ttlScaling * q) ttlLimit.
Proof.
  split; [split; split; vm_compute; (discriminate || reflexivity)|].
  apply (request_timings (newLightsync ∅)); split; vm_compute;
    (discriminate || reflexivity).
Defined.

Example request_timings_run :
  requestRTT (newLightsync ∅) = 18 * second
  /\ requestTTL (newLightsync ∅) = 60 * second
  /\ requestTTL (set_rttConfidence 500000 (mkLightSync FullSync None 0 (2 * second)
                   1000000 0 0 None 0 0 "" chNil ∅ None [])) = 12 * second.
Proof. vm_compute. repeat split. Qed.

(** C7, as stated, fails: with an estimate of 100 s and full confidence,
    [requestRTT] is 90 s and [requestTTL] is [ttlLimit], 60 s. *)
Lemma request_timings_counterexample :
  let s := mkLightSync FullSync None 0 (100 * second) 1000000 0 0 None 0 0 ""
             chNil ∅ None [] in
  requestRTT s = 90 * second
  /\ requestTTL s = 60 * second
  /\ ~ (requestRTT s <= requestTTL s /\ requestTTL s <= ttlLimit).
Proof.
  cbn zeta. split; [vm_compute; reflexivity|]. split; [vm_compute; reflexivity|].
  vm_compute. intros [H _]. apply H. reflexivity.
Qed.

(** C8 (as the code has it). With [n] the number of registered peers and a
    confidence of at most 1,000,000: for [n = 0] the confidence is left as
    it is; for [n = 1] it is set to 1,000,000; for [n >= qosConfidenceCap]
    it is left as it is; otherwise it becomes [confidence * (n - 1) / n],
    rounded down, and at least the floor of 100,000.  Nothing else of the
    synchroniser changes. *)
Theorem qosReduceConfidence_spec s :
  0 <= rttConfidence s <= 1000000 ->
  peers_Len s < 2 ^ 63 ->
  let n := peers_Len s in
  let s' := qosReduceConfidence s in
  (n = 0 -> s' = s)
  /\ (n = 1 -> s' = set_rttConfidence 1000000 s)
  /\ (qosConfidenceCap <= n -> s' = s)
  /\ (1 < n < qosConfidenceCap ->
      s' = set_rttConfidence
             (Z.max (rttConfidence s * (n - 1) / n) rttMinConfidence_millionths) s).
Proof.
  intros Hc Hn n s'. subst s'.
  pose proof (eq_refl : 2 ^ 63 = 9223372036854775808) as H63.
  pose proof (eq_refl : 2 ^ 64 = 18446744073709551616) as H64.
  assert (Hn0 : 0 <= n) by (subst n; unfold peers_Len; lia).
  unfold qosReduceConfidence. cbv zeta. fold n.
  rewrite (u64_small n) by lia. unfold qosConfidenceCap.
  rewrite (u64_small 10) by lia.
  split; [|split; [|split]].
  - intros ->. reflexivity.
  - intros ->. reflexivity.
  - intros Hcap. unfold qosConfidenceCap in Hcap.
    destruct (Z.eqb_spec n 0); [reflexivity|]. destruct (Z.eqb_spec n 1); [lia|].
    destruct (Z.geb_spec n 10); [reflexivity | lia].
  - intros [Hlo Hhi]. unfold qosConfidenceCap in Hhi.
    destruct (Z.eqb_spec n 0); [lia|]. destruct (Z.eqb_spec n 1); [lia|].
    destruct (Z.geb_spec n 10); [lia|].
    rewrite (u64_small (n - 1)) by lia.
    rewrite (u64_small (rttConfidence s * (n - 1))) by nia.
    set (c := rttConfidence s * (n - 1) / n).
    assert (Hcr : 0 <= c <= 1000000).
    { subst c. split; [apply Z.div_pos; nia|]. apply Z.div_le_upper_bound; nia. }
    rewrite (confidence_floor_test c Hcr). unfold rttMinConfidence_millionths.
    destruct (Z.ltb_spec c 100000); f_equal; lia.
Qed.

Lemma qosReduceConfidence_spec_witness :
  let s := newLightsync {["a" := peerA; "b" := peerB]} in
  (0 <= rttConfidence s <= 1000000 /\ peers_Len s < 2 ^ 63)
  /\ let n := peers_Len s in
     let s' := qosReduceConfidence s in
     (n = 0 -> s' = s)
     /\ (n = 1 -> s' = set_rttConfidence 1000000 s)
     /\ (qosConfidenceCap <= n -> s' = s)
     /\ (1 < n < qosConfidenceCap ->
         s' = set_rttConfidence
                (Z.max (rttConfidence s * (n - 1) / n) rttMinConfidence_millionths) s).
Proof.
  split; [split; [split; vm_compute; discriminate | vm_compute; reflexivity]|].
  apply (qosReduceConfidence_spec (newLightsync {["a" := peerA; "b" := peerB]}));
    [split; vm_compute; discriminate | vm_compute; reflexivity].
Defined.

Example qosReduceConfidence_run :
  rttConfidence (qosReduceConfidence (newLightsync {["a" := peerA; "b" := peerB]}))
  = 500000
  /\ rttConfidence
       (qosReduceConfidence
          (set_rttConfidence 150000 (newLightsync {["a" := peerA; "b" := peerB]})))
     = 100000.
Proof. vm_compute. split; reflexivity. Qed.

(** C8, as stated, fails: with no peer registered a confidence of 500,000
    is left as it is, not set to 1,000,000. *)
Lemma qosReduceConfidence_counterexample :
  let s := set_rttConfidence 500000 (newLightsync ∅) in
  peers_Len s = 0
  /\ qosReduceConfidence s = s
  /\ rttConfidence (qosReduceConfidence s) <> 1000000.
Proof.
  cbn zeta. split; [reflexivity|]. split; [reflexivity|]. vm_compute. discriminate.
Qed.

(** ** The peer manager *)

Lemma pm_wf_PeerMgrInst : pm_wf PeerMgrInst.
Proof. intros pid p H. cbn in H. rewrite lookup_empty in H. discriminate. Qed.

Lemma Register_wf prm p : pm_wf prm -> pm_wf (snd (Register prm p)).
Proof.
  intros Hwf. unfold Register. destruct (pm_closed prm); [exact Hwf|].
  destruct (pm_peers prm !! GetID p) eqn:Hl; [exact Hwf|].
  intros pid q. cbn [snd pm_peers].
  destruct (decide (GetID p = pid)) as [<-|Hne].
  - rewrite lookup_insert_eq. intros [= <-]. reflexivity.
  - rewrite lookup_insert_ne by exact Hne. apply Hwf.
Qed.

(** X1. [Register] fails with [errClosed] on a closed manager and with
    [errAlreadyRegistered] for an id that is taken, in this order, and then
    changes nothing; otherwise it succeeds, the peer is found under its id,
    the number of peers grows by one and every other id reads as before. *)
Theorem Register_spec prm p :
  (pm_closed prm = true -> Register prm p = (Some errClosed, prm))
  /\ (pm_closed prm = false -> is_Some (pm_peers prm !! GetID p) ->
      Register prm p = (Some errAlreadyRegistered, prm))
  /\ (pm_closed prm = false -> pm_peers prm !! GetID p = None ->
      fst (Register prm p) = None
      /\ PeerManager_Peer (snd (Register prm p)) (GetID p) = Some p
      /\ PeerManager_Len (snd (Register prm p)) = PeerManager_Len prm + 1
      /\ pm_closed (snd (Register prm p)) = false
      /\ (forall pid, pid <> GetID p ->
            PeerManager_Peer (snd (Register prm p)) pid = PeerManager_Peer prm pid)
      /\ (pm_wf prm -> pm_wf (snd (Register prm p)))).
Proof.
  unfold Register. split; [|split].
  - intros ->. reflexivity.
  - intros -> [q Hq]. rewrite Hq. reflexivity.
  - intros -> Hnone. rewrite Hnone. cbn [fst snd].
    unfold PeerManager_Peer, PeerManager_Len. cbn [pm_peers pm_closed].
    split; [reflexivity|]. split; [apply lookup_insert_eq|].
    split; [rewrite map_size_insert_None by exact Hnone; lia|].
    split; [reflexivity|]. split.
    + intros pid Hne. apply lookup_insert_ne. congruence.
    + intros Hwf pid q. cbn [pm_peers].
      destruct (decide (GetID p = pid)) as [<-|Hne].
      * rewrite lookup_insert_eq. intros [= <-]. reflexivity.
      * rewrite lookup_insert_ne by exact Hne. apply Hwf.
Qed.

(** X2. [Unregister] fails with [errNotRegistered] for an unknown id and
    changes nothing; for a registered id it removes that peer and no
    other; and unregistering a peer that was just registered under a free
    id gives the manager back as it was. *)
Theorem Unregister_spec prm pid :
  (pm_peers prm !! pid = None -> Unregister prm pid = (Some errNotRegistered, prm))
  /\ (is_Some (pm_peers prm !! pid) ->
      fst (Unregister prm pid) = None
      /\ PeerManager_Peer (snd (Unregister prm pid)) pid = None
      /\ PeerManager_Len (snd (Unregister prm pid)) = PeerManager_Len prm - 1
      /\ (forall pid', pid' <> pid ->
            PeerManager_Peer (snd (Unregister prm pid)) pid' = PeerManager_Peer prm pid'))
  /\ (forall p, pm_closed prm = false -> pm_peers prm !! GetID p = None ->
        Unregister (snd (Register prm p)) (GetID p) = (None, prm)).
Proof.
  unfold Unregister. split; [|split].
  - intros ->. reflexivity.
  - intros Hsome. pose proof Hsome as [q Hq]. rewrite Hq. cbn [fst snd].
    unfold PeerManager_Peer, PeerManager_Len. cbn [pm_peers].
    split; [reflexivity|]. split; [apply lookup_delete_eq|]. split.
    + rewrite map_size_delete_Some by exact Hsome.
      assert (size (pm_peers prm) <> 0%nat).
      { intros H0. apply map_size_empty_inv in H0. rewrite H0, lookup_empty in Hq.
        discriminate. }
      lia.
    + intros pid' Hne. apply lookup_delete_ne. congruence.
  - intros p Hopen Hnone. unfold Register. rewrite Hopen, Hnone. cbn [snd pm_peers].
    rewrite lookup_insert_eq. cbn [pm_closed pm_disconnected].
    rewrite delete_insert_id by exact Hnone. destruct prm. cbn in *. subst. reflexivity.
Qed.

Lemma PeersAll_elem prm p :
  p ∈ PeersAll prm <-> exists pid, pm_peers prm !! pid = Some p.
Proof.
  unfold PeersAll. rewrite list_elem_of_fmap. split.
  - intros ([pid q] & -> & Hin). apply elem_of_map_to_list in Hin. eauto.
  - intros [pid Hp]. exists (pid, p). split; [reflexivity|].
    apply elem_of_map_to_list. exact Hp.
Qed.

(** X3. [PeersWithoutBlock] returns exactly the registered peers whose
    known-block set lacks the hash, and [PeersWithoutTx] those whose
    known-transaction set lacks it; once [KnownBlockAdd] has marked the hash
    on a registered peer, that peer is no longer among them. *)
Theorem PeersWithout_spec prm hash :
  (forall p, p ∈ PeersWithoutBlock prm hash <->
             (exists pid, pm_peers prm !! pid = Some p) /\ hash ∉ knownBlocks (pp_base p))
  /\ (forall p, p ∈ PeersWithoutTx prm hash <->
                (exists pid, pm_peers prm !! pid = Some p) /\ hash ∉ knownTxs (pp_base p))
  /\ (forall pc pid prm', pm_wf prm ->
        PeerManager_KnownBlockAdd pc prm pid hash = Some prm' ->
        pm_wf prm'
        /\ forall p, p ∈ PeersWithoutBlock prm' hash ->
             GetID p <> pid /\ p ∈ PeersWithoutBlock prm hash).
Proof.
  assert (HB : forall prm0 p, p ∈ PeersWithoutBlock prm0 hash <->
             (exists pid, pm_peers prm0 !! pid = Some p) /\ hash ∉ knownBlocks (pp_base p)).
  { intros prm0 p. unfold PeersWithoutBlock.
    rewrite list_elem_of_In, filter_In, <- list_elem_of_In, PeersAll_elem.
    unfold KnownBlockHas. rewrite negb_true_iff, bool_decide_eq_false. tauto. }
  split; [apply HB|]. split.
  - intros p. unfold PeersWithoutTx.
    rewrite list_elem_of_In, filter_In, <- list_elem_of_In, PeersAll_elem.
    unfold KnownTxsHas. rewrite negb_true_iff, bool_decide_eq_false. tauto.
  - intros pc pid prm' Hwf Hadd. unfold PeerManager_KnownBlockAdd in Hadd.
    destruct (pm_peers prm !! pid) as [q|] eqn:Hq; [|discriminate].
    destruct (KnownBlockAdd_spec pc (pp_base q) hash)
      as (b & Hb & _ & Hhas & Hsub & _ & _).
    rewrite Hb in Hadd. injection Hadd as <-.
    assert (Hid : peer_id b = peer_id (pp_base q)).
    { unfold KnownBlockAdd in Hb. destruct (evict _ _ _ _); [|discriminate].
      injection Hb as <-. reflexivity. }
    split.
    + intros pid' p'. cbn [pm_peers].
      destruct (decide (pid = pid')) as [<-|Hne].
      * rewrite lookup_insert_eq. intros [= <-]. unfold GetID. cbn [pp_base].
        rewrite Hid. apply (Hwf pid q Hq).
      * rewrite lookup_insert_ne by exact Hne. apply Hwf.
    + intros p Hp. apply HB in Hp as [[pid' Hl] Hnot]. cbn [pm_peers] in Hl.
      destruct (decide (pid = pid')) as [<-|Hne].
      * rewrite lookup_insert_eq in Hl. injection Hl as <-. cbn [pp_base] in Hnot.
        unfold KnownBlockHas in Hhas. apply bool_decide_eq_true in Hhas. contradiction.
      * rewrite lookup_insert_ne in Hl by exact Hne. split.
        -- rewrite (Hwf pid' p Hl). congruence.
        -- apply HB. eauto.
Qed.

Lemma PeersWithoutBlock_run :
  let a := NewHpbPeer "a" 1 in
  let b := NewHpbPeer "b" 1 in
  let prm := snd (Register (snd (Register PeerMgrInst a)) b) in
  option_map (fun m => map GetID (PeersWithoutBlock m 7))
    (PeerManager_KnownBlockAdd PopFirst prm "a" 7) = Some ["b"].
Proof. vm_compute. reflexivity. Qed.

Lemma BestPeer_loop_spec l : forall best,
  (forall b t, best = Some (b, t) -> pp_td b = Some t) ->
  (BestPeer_loop l best = None <-> exists p, p ∈ l /\ pp_td p = None)
  /\ forall r, BestPeer_loop l best = Some r ->
       (r = None <-> best = None /\ l = [])
       /\ forall b t, r = Some (b, t) ->
            pp_td b = Some t
            /\ (best = Some (b, t) \/ b ∈ l)
            /\ (forall b0 t0, best = Some (b0, t0) -> t0 <= t)
            /\ (forall p tp, p ∈ l -> pp_td p = Some tp -> tp <= t).
Proof.
  induction l as [|p l IH]; intros best Hbest.
  - cbn. split.
    + split; [discriminate|]. intros (p & Hp & _). inversion Hp.
    + intros r [= <-]. split; [tauto|]. intros b t ->. split; [eauto|].
      split; [auto|]. split.
      * intros b0 t0 [= -> ->]. lia.
      * intros p tp Hp. inversion Hp.
  - cbn [BestPeer_loop]. unfold Peer_Head.
    destruct (pp_td p) as [td|] eqn:Htd.
    + set (best' := match best with
                    | Some (_, bestTd) => if td >? bestTd then Some (p, td) else best
                    | None => Some (p, td)
                    end).
      assert (Hbest' : forall b t, best' = Some (b, t) -> pp_td b = Some t).
      { subst best'. intros b t. destruct best as [[b0 t0]|].
        - destruct (td >? t0); [intros [= <- <-]; exact Htd | apply Hbest].
        - intros [= <- <-]. exact Htd. }
      assert (Hmono : (forall b0 t0, best = Some (b0, t0) ->
                         exists b1 t1, best' = Some (b1, t1) /\ t0 <= t1)
                      /\ (exists b1 t1, best' = Some (b1, t1) /\ td <= t1
                                        /\ (best' = best \/ b1 = p))).
      { subst best'. destruct best as [[b0 t0]|].
        - destruct (Z.gtb_spec td t0).
          + split.
            * intros b1 t1 [= <- <-]. exists p, td. split; [reflexivity | lia].
            * exists p, td. split; [reflexivity|]. split; [lia | auto].
          + split.
            * intros b1 t1 [= <- <-]. exists b0, t0. split; [reflexivity | lia].
            * exists b0, t0. split; [reflexivity|]. split; [lia | auto].
        - split; [discriminate|]. exists p, td. split; [reflexivity|].
          split; [lia | auto]. }
      destruct Hmono as [Hm1 (b1 & t1 & Hb1 & Htd1 & Hor)].
      destruct (IH best' Hbest') as [IHn IHs]. split.
      * rewrite IHn. split.
        -- intros (q & Hq & Hqn). exists q. split; [right; exact Hq | exact Hqn].
        -- intros (q & Hq & Hqn). apply elem_of_cons in Hq as [->|Hq]; [congruence|].
           eauto.
      * intros r Hr. destruct (IHs r Hr) as [Hnone Hsome]. split.
        -- split; [|intros [_ Hnil]; discriminate].
           intros ->. destruct (proj1 Hnone eq_refl) as [Hb' _].
           congruence.
        -- intros b t ->. destruct (Hsome b t eq_refl) as (Ht & Hfrom & Hge & Hall).
           split; [exact Ht|]. split; [|split].
           ++ destruct Hfrom as [Hfrom|Hin]; [|right; right; exact Hin].
              destruct Hor as [Heq | ->].
              ** left. congruence.
              ** assert (b = p) by congruence. subst b. right. left.
           ++ intros b0 t0 Hb0. destruct (Hm1 b0 t0 Hb0) as (b2 & t2 & Hb2 & Hle).
              specialize (Hge b2 t2 Hb2). lia.
           ++ intros q tq Hq Htq. apply elem_of_cons in Hq as [->|Hq].
              ** specialize (Hge b1 t1 Hb1). assert (tq = td) by congruence. lia.
              ** eauto.
    + split.
      * split; [|reflexivity]. intros _. exists p. split; [left | exact Htd].
      * discriminate.
Qed.

(** X4. [BestPeer] panics exactly when some registered peer has no total
    difficulty yet; otherwise it returns nil exactly for an empty manager,
    and else a registered peer whose total difficulty no registered peer
    exceeds. *)
Theorem BestPeer_spec prm :
  (BestPeer prm = None <-> exists pid p, pm_peers prm !! pid = Some p /\ pp_td p = None)
  /\ forall r, BestPeer prm = Some r ->
       (r = None <-> pm_peers prm = ∅)
       /\ forall b, r = Some b ->
            (exists pid, pm_peers prm !! pid = Some b)
            /\ exists t, pp_td b = Some t
                 /\ forall pid p tp, pm_peers prm !! pid = Some p ->
                                     pp_td p = Some tp -> tp <= t.
Proof.
  unfold BestPeer.
  destruct (BestPeer_loop_spec (PeersAll prm) None) as [Hn Hs]; [discriminate|].
  split.
  - destruct (BestPeer_loop (PeersAll prm) None) as [r|] eqn:Hr.
    + split; [discriminate|]. intros (pid & p & Hl & Htd).
      assert (Some r = None) as Habs; [|discriminate].
      apply Hn. exists p. split; [apply PeersAll_elem; eauto | exact Htd].
    + split; [|reflexivity]. intros _. destruct (proj1 Hn eq_refl) as (p & Hp & Htd).
      apply PeersAll_elem in Hp as [pid Hp]. eauto.
  - intros r Hr. destruct (BestPeer_loop (PeersAll prm) None) as [r0|]; [|discriminate].
    injection Hr as <-. destruct (Hs r0 eq_refl) as [Hnone Hsome]. split.
    + destruct r0 as [[b t]|]; cbn.
      * split; [discriminate|]. intros Hempty.
        destruct (Hsome b t eq_refl) as (_ & [Habs|Hin] & _); [discriminate|].
        apply PeersAll_elem in Hin as [pid Hl]. rewrite Hempty, lookup_empty in Hl.
        discriminate.
      * split; [|reflexivity]. intros _. destruct (proj1 Hnone eq_refl) as [_ Hnil].
        unfold PeersAll in Hnil. apply fmap_nil_inv in Hnil.
        apply map_to_list_empty_iff. exact Hnil.
    + intros b Hb. destruct r0 as [[b0 t]|]; [|discriminate]. injection Hb as ->.
      destruct (Hsome b t eq_refl) as (Ht & [Habs|Hin] & _ & Hall); [discriminate|].
      split; [apply PeersAll_elem; exact Hin|]. exists t. split; [exact Ht|].
      intros pid p tp Hl Htp. apply (Hall p tp); [|exact Htp].
      apply PeersAll_elem. eauto.
Qed.

(** X5. [Close] leaves every peer in the map, disconnects each registered
    peer exactly once, and from then on [Register] fails with [errClosed],
    while [Unregister] still removes peers. *)
Theorem Close_spec prm :
  (forall pid, PeerManager_Peer (Close prm) pid = PeerManager_Peer prm pid)
  /\ (forall p, Register (Close prm) p = (Some errClosed, Close prm))
  /\ (forall pid, is_Some (pm_peers prm !! pid) ->
        fst (Unregister (Close prm) pid) = None
        /\ pm_closed (snd (Unregister (Close prm) pid)) = true)
  /\ (pm_wf prm ->
      exists ids, pm_disconnected (Close prm) = pm_disconnected prm ++ ids
                  /\ NoDup ids
                  /\ forall pid, pid ∈ ids <-> is_Some (pm_peers prm !! pid)).
Proof.
  split; [reflexivity|]. split; [reflexivity|]. split.
  - intros pid [q Hq]. unfold Unregister. cbn [Close pm_peers]. rewrite Hq.
    split; reflexivity.
  - intros Hwf. exists (map GetID (PeersAll prm)). split; [reflexivity|].
    assert (Heq : map GetID (PeersAll prm) = (map_to_list (pm_peers prm)).*1).
    { unfold PeersAll. rewrite <- list_fmap_compose.
      apply list_fmap_ext. intros i [pid q] Hin. cbn.
      apply list_elem_of_lookup_2 in Hin. apply elem_of_map_to_list in Hin.
      apply (Hwf pid q Hin). }
    rewrite Heq. split; [apply NoDup_fst_map_to_list|].
    intros pid. rewrite list_elem_of_fmap. split.
    + intros ([pid' q] & -> & Hin). apply elem_of_map_to_list in Hin. eauto.
    + intros [q Hq]. exists (pid, q). split; [reflexivity|].
      apply elem_of_map_to_list. exact Hq.
Qed.

Lemma Register_spec_witness :
  fst (Register PeerMgrInst (NewHpbPeer "a" 1)) = None
  /\ PeerManager_Len (snd (Register PeerMgrInst (NewHpbPeer "a" 1))) = 1.
Proof.
  destruct (Register_spec PeerMgrInst (NewHpbPeer "a" 1)) as (_ & _ & H).
  destruct (H eq_refl eq_refl) as (H1 & _ & H3 & _).
  split; [exact H1 | exact H3].
Defined.

Lemma Unregister_spec_witness :
  Unregister (snd (Register PeerMgrInst (NewHpbPeer "a" 1))) "a" = (None, PeerMgrInst).
Proof.
  destruct (Unregister_spec PeerMgrInst "a") as (_ & _ & H).
  exact (H (NewHpbPeer "a" 1) eq_refl eq_refl).
Defined.

Lemma PeersWithout_spec_witness :
  exists prm',
    PeerManager_KnownBlockAdd PopFirst
      (snd (Register PeerMgrInst (NewHpbPeer "a" 1))) "a" 7 = Some prm'
    /\ pm_wf prm'.
Proof.
  destruct (PeerManager_KnownBlockAdd PopFirst
              (snd (Register PeerMgrInst (NewHpbPeer "a" 1))) "a" 7)
    as [prm'|] eqn:H; [|vm_compute in H; discriminate].
  exists prm'. split; [reflexivity|].
  destruct (PeersWithout_spec (snd (Register PeerMgrInst (NewHpbPeer "a" 1))) 7)
    as (_ & _ & H3).
  apply (H3 PopFirst "a" prm' (Register_wf _ _ pm_wf_PeerMgrInst) H).
Defined.

Lemma Close_spec_witness :
  exists ids,
    pm_disconnected (Close (snd (Register PeerMgrInst (NewHpbPeer "a" 1)))) = [] ++ ids
    /\ NoDup ids
    /\ forall pid, pid ∈ ids <->
         is_Some (pm_peers (snd (Register PeerMgrInst (NewHpbPeer "a" 1))) !! pid).
Proof.
  destruct (Close_spec (snd (Register PeerMgrInst (NewHpbPeer "a" 1)))) as (_ & _ & _ & H).
  exact (H (Register_wf _ _ pm_wf_PeerMgrInst)).
Defined.

(** ** The status handshake *)

Lemma readStatus_ok StatusMsg p network genesis read st :
  readStatus StatusMsg p network genesis read = (None, st) <->
  exists msg s, read = inl msg /\ st = Some s /\ Code msg = StatusMsg
    /\ Decode msg = Some s /\ GenesisBlock s = genesis /\ NetworkId s = network
    /\ ProtocolVersion s = peer_version (pp_base p).
Proof.
  unfold readStatus. destruct read as [msg|err].
  - destruct (Z.eqb_spec (Code msg) StatusMsg) as [Hc|Hc]; cbn [negb].
    + destruct (Decode msg) as [s|] eqn:Hd.
      * destruct (Z.eqb_spec (GenesisBlock s) genesis) as [Hg|Hg]; cbn [negb].
        -- destruct (Z.eqb_spec (NetworkId s) network) as [Hn|Hn]; cbn [negb].
           ++ destruct (Z.eqb_spec (ProtocolVersion s) (peer_version (pp_base p)))
                as [Hv|Hv]; cbn [negb].
              ** split.
                 --- intros [= <-]. exists msg, s. repeat split; assumption.
                 --- intros (m & s' & [= <-] & -> & _ & Hd' & _).
                     rewrite Hd in Hd'. injection Hd' as <-. reflexivity.
              ** split; [discriminate|].
                 intros (m & s' & [= <-] & _ & _ & Hd' & _ & _ & Hv').
                 rewrite Hd in Hd'. injection Hd' as <-. contradiction.
           ++ split; [discriminate|].
              intros (m & s' & [= <-] & _ & _ & Hd' & _ & Hn' & _).
              rewrite Hd in Hd'. injection Hd' as <-. contradiction.
        -- split; [discriminate|].
           intros (m & s' & [= <-] & _ & _ & Hd' & Hg' & _).
           rewrite Hd in Hd'. injection Hd' as <-. contradiction.
      * split; [discriminate|].
        intros (m & s' & [= <-] & _ & _ & Hd' & _). rewrite Hd in Hd'. discriminate.
    + split; [discriminate|]. intros (m & s' & [= <-] & _ & Hc' & _). contradiction.
  - split; [discriminate|]. intros (m & s' & Habs & _). discriminate.
Qed.

Lemma Handshake_wait_ok send read evs :
  Handshake_wait send read false false 2 evs = Some None <->
  send = None /\ read = None
  /\ exists rest, evs = HsSend :: HsRead :: rest \/ evs = HsRead :: HsSend :: rest.
Proof.
  split.
  - destruct evs as [|[| |] [|[| |] rest]]; cbn;
      destruct send, read; try discriminate; intros _;
      (split; [reflexivity|]; split; [reflexivity|]; exists rest; auto).
  - intros (-> & -> & rest & [->| ->]); reflexivity.
Qed.

(** X6. [Handshake] returns nil exactly when the own status was sent, the
    first message read is a status message that decodes and agrees on
    genesis block, network id and protocol version, and both results came
    in before the timeout; the peer then carries the remote total
    difficulty and head.  On every error the peer is left as it was, and a
    timeout that fires first gives [DiscReadTimeout]. *)
Theorem Handshake_spec StatusMsg p network genesis send read evs :
  (forall p', Handshake StatusMsg p network genesis send read evs = Some (None, p') <->
     send = None
     /\ exists msg st rest,
          read = inl msg /\ Code msg = StatusMsg /\ Decode msg = Some st
          /\ GenesisBlock st = genesis /\ NetworkId st = network
          /\ ProtocolVersion st = peer_version (pp_base p)
          /\ (evs = HsSend :: HsRead :: rest \/ evs = HsRead :: HsSend :: rest)
          /\ p' = mkHpbPeer (pp_base p) (CurrentBlock st) (Some (TD st)) (pp_txsRate p))
  /\ (forall err p', Handshake StatusMsg p network genesis send read evs = Some (Some err, p') ->
        p' = p)
  /\ (forall rest, evs = HsTimeout :: rest ->
        Handshake StatusMsg p network genesis send read evs = Some (Some DiscReadTimeout, p)).
Proof.
  unfold Handshake.
  destruct (readStatus StatusMsg p network genesis read) as [rerr status] eqn:Hrs.
  split; [|split].
  - intros p'. split.
    + destruct (Handshake_wait send rerr false false 2 evs) as [[e|]|] eqn:Hw;
        try discriminate.
      apply Handshake_wait_ok in Hw as (-> & -> & rest & Hevs).
      apply readStatus_ok in Hrs as (msg & s & -> & -> & Hc & Hd & Hg & Hn & Hv).
      intros [= <-]. split; [reflexivity|]. exists msg, s, rest.
      repeat (split; [assumption || reflexivity|]). reflexivity.
    + intros (-> & msg & st & rest & -> & Hc & Hd & Hg & Hn & Hv & Hevs & ->).
      assert (Hok : readStatus StatusMsg p network genesis (inl msg) = (None, Some st)).
      { apply readStatus_ok. exists msg, st. repeat split; assumption. }
      rewrite Hok in Hrs. injection Hrs as <- <-.
      assert (Hw : Handshake_wait None None false false 2 evs = Some None).
      { apply Handshake_wait_ok. eauto. }
      rewrite Hw. reflexivity.
  - intros err p'. destruct (Handshake_wait send rerr false false 2 evs) as [[e|]|].
    + intros [= _ <-]. reflexivity.
    + destruct status; discriminate.
    + discriminate.
  - intros rest ->. reflexivity.
Qed.

Lemma Handshake_spec_witness :
  Handshake 0 (NewHpbPeer "a" 1) 7 9 None
    (inl (mkMsg 0 (Some (mkStatusData 1 7 100 55 9)))) [HsRead; HsSend]
  = Some (None, mkHpbPeer (NewPeer "a" 1) 55 (Some 100) 0).
Proof.
  apply (Handshake_spec 0 (NewHpbPeer "a" 1) 7 9 None
           (inl (mkMsg 0 (Some (mkStatusData 1 7 100 55 9)))) [HsRead; HsSend]).
  split; [reflexivity|].
  exists (mkMsg 0 (Some (mkStatusData 1 7 100 55 9))), (mkStatusData 1 7 100 55 9), [].
  repeat (split; [reflexivity|]). split; [right; reflexivity | reflexivity].
Defined.

(** X7. [Head] and [SetHead] panic on a peer as [NewPeer] makes it, whose
    total difficulty is nil; once [Handshake] has returned nil both
    succeed, [Head] gives the head and total difficulty of the remote
    status, and after [SetHead] it gives what was set, for the same peer. *)
Theorem Head_SetHead_spec StatusMsg p network genesis send read evs p' :
  Handshake StatusMsg p network genesis send read evs = Some (None, p') ->
  (forall pid v hash td,
     Peer_Head (NewHpbPeer pid v) = None
     /\ Peer_SetHead (NewHpbPeer pid v) hash td = None)
  /\ (exists msg st, read = inl msg /\ Decode msg = Some st
        /\ Peer_Head p' = Some (CurrentBlock st, TD st))
  /\ forall hash td,
       exists p'', Peer_SetHead p' hash td = Some p''
         /\ Peer_Head p'' = Some (hash, td)
         /\ GetID p'' = GetID p /\ pp_base p'' = pp_base p
         /\ TxsRate p'' = TxsRate p.
Proof.
  intros Hh. split; [intros; split; reflexivity|].
  destruct (Handshake_wait_ok send None evs) as [_ Hw].
  unfold Handshake in Hh.
  destruct (readStatus StatusMsg p network genesis read) as [rerr status] eqn:Hrs.
  destruct (Handshake_wait send rerr false false 2 evs) as [[e|]|] eqn:Hwait;
    try discriminate.
  apply Handshake_wait_ok in Hwait as (_ & -> & _).
  apply readStatus_ok in Hrs as (msg & s & -> & -> & _ & Hd & _).
  injection Hh as <-. split.
  - exists msg, s. repeat split; assumption.
  - intros hash td. eexists. split; [reflexivity|]. repeat split.
Qed.

Lemma Head_SetHead_spec_witness :
  exists p'',
    Peer_SetHead (mkHpbPeer (NewPeer "a" 1) 55 (Some 100) 0) 66 200 = Some p''
    /\ Peer_Head p'' = Some (66, 200)
    /\ GetID p'' = GetID (NewHpbPeer "a" 1) /\ pp_base p'' = pp_base (NewHpbPeer "a" 1)
    /\ TxsRate p'' = TxsRate (NewHpbPeer "a" 1).
Proof.
  refine (proj2 (proj2 (Head_SetHead_spec 0 (NewHpbPeer "a" 1) 7 9 None
            (inl (mkMsg 0 (Some (mkStatusData 1 7 100 55 9)))) [HsRead; HsSend]
            (mkHpbPeer (NewPeer "a" 1) 55 (Some 100) 0) _)) 66 200).
  vm_compute. reflexivity.
Defined.

(** ** Sessions, peer registration and the QoS tuner *)

(** X8. Once admitted, [syn] always gives the session back: whatever the
    master peer lookup, the height probe, the ancestor search and the
    workers do, on return [synchronising] is 0, the cancel channel is not
    open, and the master peer is the one given.  A call that finds a
    session running returns [errBusy] and changes nothing. *)
Theorem syn_releases_session env s pid hash td m :
  synchroniseMock s = None ->
  (synchronising s = 0 ->
     let r := syn env s pid hash td m in
     synchronising (snd r) = 0 /\ syning (snd r) = false
     /\ cancelCh (snd r) <> chOpen
     /\ (peers s !! pid = None ->
         fst r = Some errUnknownPeer
         /\ cancelCh (snd r) = chClosed /\ cancelPeer (snd r) = pid
         /\ peers (snd r) = peers s /\ calls (snd r) = calls s))
  /\ (synchronising s <> 0 -> syn env s pid hash td m = (Some errBusy, s)).
Proof.
  intros Hmock. unfold syn. rewrite Hmock. split.
  - intros H0. rewrite H0. cbn [Z.eqb negb]. cbv zeta.
    assert (Hexit : forall r, synchronising (snd (syn_exit r)) = 0
                              /\ syning (snd (syn_exit r)) = false
                              /\ cancelCh (snd (syn_exit r)) <> chOpen).
    { intros [e s']. unfold syn_exit, syning, cancel. cbn [fst snd].
      destruct (cancelCh s') eqn:Hc; cbn; rewrite ?Hc; repeat split; discriminate. }
    unfold peers_Peer.
    assert (Hp : peers (syn_enter s pid m) = peers s).
    { unfold syn_enter. destruct (notified _ =? 0); reflexivity. }
    rewrite Hp. destruct (peers s !! pid) as [p|] eqn:Hl.
    + destruct (Hexit (syncWithPeer env (syn_enter s pid m) p hash td)) as (A & B & C).
      repeat split; try assumption; discriminate.
    + destruct (Hexit (Some errUnknownPeer, syn_enter s pid m)) as (A & B & C).
      split; [exact A|]. split; [exact B|]. split; [exact C|]. intros _.
      unfold syn_exit, cancel, syn_enter. cbn [fst snd].
      destruct (notified (set_synchronising 1 s) =? 0); cbn; repeat split; reflexivity.
  - intros Hne. destruct (Z.eqb_spec (synchronising s) 0); [contradiction|].
    reflexivity.
Qed.

Lemma syn_releases_session_witness :
  let r := syn env0 (newLightsync ∅) "a" 0 0 FastSync in
  synchronising (snd r) = 0 /\ syning (snd r) = false
  /\ cancelCh (snd r) <> chOpen
  /\ (peers (newLightsync ∅) !! "a" = None ->
      fst r = Some errUnknownPeer
      /\ cancelCh (snd r) = chClosed /\ cancelPeer (snd r) = "a"
      /\ peers (snd r) = peers (newLightsync ∅) /\ calls (snd r) = calls (newLightsync ∅)).
Proof.
  exact (proj1 (syn_releases_session env0 (newLightsync ∅) "a" 0 0 FastSync eq_refl)
           eq_refl).
Defined.

Lemma qosReduceConfidence_range s :
  100000 <= rttConfidence s <= 1000000 ->
  100000 <= rttConfidence (qosReduceConfidence s) <= 1000000.
Proof.
  intros Hc. unfold qosReduceConfidence. cbv zeta.
  pose proof (eq_refl : 2 ^ 64 = 18446744073709551616) as H64.
  assert (Hn : 0 <= u64 (peers_Len s) < 2 ^ 64) by (apply Z.mod_pos_bound; lia).
  set (n := u64 (peers_Len s)) in *.
  unfold qosConfidenceCap. rewrite (u64_small 10) by lia.
  destruct (Z.eqb_spec n 0); [exact Hc|].
  destruct (Z.eqb_spec n 1); [cbn; lia|].
  destruct (Z.geb_spec n 10); [exact Hc|].
  rewrite (u64_small (n - 1)) by lia.
  rewrite (u64_small (rttConfidence s * (n - 1))) by nia.
  set (c := rttConfidence s * (n - 1) / n).
  assert (Hcr : 0 <= c <= 1000000).
  { subst c. split; [apply Z.div_pos; nia|]. apply Z.div_le_upper_bound; nia. }
  rewrite (confidence_floor_test c Hcr). unfold rttMinConfidence_millionths.
  destruct (Z.ltb_spec c 100000); cbn; lia.
Qed.

Lemma qosTuner_cycle_conf rtt s :
  0 <= rttConfidence s <= 1000000 ->
  rttConfidence (qosTuner_cycle rtt s)
  = rttConfidence s + (1000000 - rttConfidence s) / 2.
Proof.
  intros Hc. unfold qosTuner_cycle. cbn.
  pose proof (eq_refl : 2 ^ 64 = 18446744073709551616) as H64.
  rewrite (u64_small (1000000 - rttConfidence s)) by lia.
  pose proof (Z.div_mod (1000000 - rttConfidence s) 2 ltac:(lia)).
  pose proof (Z.mod_pos_bound (1000000 - rttConfidence s) 2 eq_refl).
  apply u64_small. lia.
Qed.

(** X9. The confidence stays between the floor of 100,000 and 1,000,000:
    a synchroniser that starts in this range, as [newLightsync] leaves it,
    remains there under any sequence of peer registrations, peer removals
    and rounds of the tuner, however the peer set answers. *)
Theorem qos_confidence_range ops (l : list qos_op) s :
  100000 <= rttConfidence s <= 1000000 ->
  100000 <= rttConfidence (fold_left (qos_step ops) l s) <= 1000000.
Proof.
  revert s. induction l as [|op l IH]; intros s Hc; [exact Hc|].
  cbn [fold_left]. apply IH. destruct op as [pid v|pid|rtt]; cbn [qos_step].
  - unfold registerPeer.
    destruct (peers_Register ops (peers s) (mkPeerConnection pid v)) as [[err|] ps];
      cbn [snd]; [exact Hc|].
    apply qosReduceConfidence_range. exact Hc.
  - unfold unregisterPeer.
    destruct (peers_Unregister ops (peers s) pid) as [[err|] ps];
      cbn [snd]; [exact Hc|]. cbv zeta.
    destruct (String.eqb pid _); [|exact Hc].
    unfold cancel. destruct (cancelCh _); exact Hc.
  - rewrite qosTuner_cycle_conf by lia.
    pose proof (Z.div_mod (1000000 - rttConfidence s) 2 ltac:(lia)).
    pose proof (Z.mod_pos_bound (1000000 - rttConfidence s) 2 eq_refl). lia.
Qed.

Lemma qos_confidence_range_witness :
  100000 <=
    rttConfidence
      (fold_left (qos_step mapPeerSet)
         [OpRegister "a" 1; OpRegister "b" 1; OpTune 5; OpUnregister "a"]
         (newLightsync ∅))
  <= 1000000.
Proof.
  apply (qos_confidence_range mapPeerSet
           [OpRegister "a" 1; OpRegister "b" 1; OpTune 5; OpUnregister "a"]
           (newLightsync ∅)).
  vm_compute. split; discriminate.
Defined.

(** X10. A round of the tuner moves the confidence up by half of what is
    missing to 1,000,000, rounded down: the confidence never falls, never
    passes 1,000,000, and reaches 1,000,000 only if it was there already,
    so that 999,999 is kept for ever.  The estimate becomes the blended
    round trip time. *)
Theorem qosTuner_cycle_spec rtt s :
  0 <= rttConfidence s <= 1000000 ->
  let s' := qosTuner_cycle rtt s in
  rttConfidence s <= rttConfidence s' <= 1000000
  /\ 1000000 - rttConfidence s' = (1000000 - rttConfidence s + 1) / 2
  /\ (rttConfidence s' = 1000000 <-> rttConfidence s = 1000000)
  /\ (rttConfidence s' = rttConfidence s <-> 999999 <= rttConfidence s)
  /\ rttEstimate s' = u64 rtt
  /\ peers s' = peers s /\ cancelCh s' = cancelCh s /\ calls s' = calls s.
Proof.
  intros Hc s'. subst s'. rewrite qosTuner_cycle_conf by exact Hc.
  set (g := 1000000 - rttConfidence s).
  pose proof (Z.div_mod g 2 ltac:(lia)).
  pose proof (Z.mod_pos_bound g 2 eq_refl).
  pose proof (Z.div_mod (g + 1) 2 ltac:(lia)).
  pose proof (Z.mod_pos_bound (g + 1) 2 eq_refl).
  assert (Hg : rttConfidence s = 1000000 - g) by (subst g; lia).
  rewrite !Hg. assert (0 <= g <= 1000000) by (subst g; lia).
  repeat split; try reflexivity; lia.
Qed.

Lemma qosTuner_cycle_spec_witness :
  let s' := qosTuner_cycle 5 (set_rttConfidence 999999 (newLightsync ∅)) in
  rttConfidence s' = rttConfidence (set_rttConfidence 999999 (newLightsync ∅)).
Proof.
  apply (qosTuner_cycle_spec 5 (set_rttConfidence 999999 (newLightsync ∅)));
    vm_compute; [split; discriminate | discriminate].
Defined.

(** X11. [unregisterPeer] gives back the error of the peer set and then
    leaves session and confidence alone; on success it closes the cancel
    channel if the peer is the master peer and leaves it alone for every
    other peer.  In a running session, removing the master peer therefore
    cancels it. *)
Theorem unregisterPeer_spec ops s pid :
  let r := unregisterPeer ops s pid in
  fst r = fst (peers_Unregister ops (peers s) pid)
  /\ peers (snd r) = snd (peers_Unregister ops (peers s) pid)
  /\ rttConfidence (snd r) = rttConfidence s
  /\ cancelPeer (snd r) = cancelPeer s
  /\ calls (snd r) = calls s
  /\ (fst r <> None \/ pid <> cancelPeer s -> cancelCh (snd r) = cancelCh s)
  /\ (fst r = None -> pid = cancelPeer s -> cancelCh (snd r) = cancelCh (cancel s))
  /\ (forall s0 m, s = syn_enter s0 pid m -> fst r = None -> cancelCh (snd r) = chClosed).
Proof.
  cbv zeta. unfold unregisterPeer.
  destruct (peers_Unregister ops (peers s) pid) as [[err|] ps]; cbn [fst snd].
  - repeat split; try reflexivity; discriminate.
  - cbv zeta. cbn [cancelPeer set_peers].
    destruct (String.eqb_spec pid (cancelPeer s)) as [He|Hne].
    + assert (Hcc : forall x, cancelCh (cancel x) <> chOpen).
      { intros x. unfold cancel. destruct (cancelCh x) eqn:Hx; cbn; rewrite ?Hx;
          discriminate. }
      assert (Hk : forall x, rttConfidence (cancel x) = rttConfidence x
                             /\ cancelPeer (cancel x) = cancelPeer x
                             /\ calls (cancel x) = calls x
                             /\ peers (cancel x) = peers x).
      { intros x. unfold cancel. destruct (cancelCh x); repeat split; reflexivity. }
      assert (Hch : cancelCh (cancel (set_peers ps s)) = cancelCh (cancel s)).
      { unfold cancel. cbn [cancelCh set_peers]. destruct (cancelCh s); reflexivity. }
      destruct (Hk (set_peers ps s)) as (K1 & K2 & K3 & K4).
      split; [reflexivity|]. split; [exact K4|]. split; [exact K1|].
      split; [exact K2|]. split; [exact K3|]. split; [|split].
      * intros [Habs|Habs]; [congruence | contradiction].
      * intros _ _. exact Hch.
      * intros s0 m Hs _. rewrite Hch, Hs. unfold cancel, syn_enter.
        destruct (notified _ =? 0); reflexivity.
    + split; [reflexivity|]. split; [reflexivity|]. split; [reflexivity|].
      split; [reflexivity|]. split; [reflexivity|]. split; [|split].
      * reflexivity.
      * intros _ Habs. contradiction.
      * intros s0 m Hs. exfalso. apply Hne. rewrite Hs. unfold syn_enter.
        destruct (notified _ =? 0); reflexivity.
Qed.

Lemma unregisterPeer_spec_witness :
  cancelCh
    (snd (unregisterPeer mapPeerSet
            (syn_enter (newLightsync {["a" := peerA]}) "a" FullSync) "a"))
  = chClosed.
Proof.
  refine (proj2 (proj2 (proj2 (proj2 (proj2 (proj2 (proj2
            (unregisterPeer_spec mapPeerSet
               (syn_enter (newLightsync {["a" := peerA]}) "a" FullSync) "a")))))))
            (newLightsync {["a" := peerA]}) FullSync eq_refl _).
  vm_compute. reflexivity.
Defined.

(** ** [fetchHeight] and [findAncestor]: replies and bounds *)

(** X12. [fetchHeight] is decided by the first event that is not ignored:
    a close of the cancel channel gives [errCancelBlockFetch], the timeout
    [errTimeout], a packet of the master peer its only header, or
    [errBadPeer] when it does not hold exactly one; packets of other peers
    and on the body and receipt channels change nothing, wherever they
    arrive. *)
Theorem fetchHeight_spec p evs :
  fetchHeight p evs =
  match List.filter (fa_relevant p) evs with
  | FaCancel :: _ => Some (inr errCancelBlockFetch)
  | FaTimeout :: _ => Some (inr errTimeout)
  | FaHeaders _ [head] :: _ => Some (inl head)
  | FaHeaders _ _ :: _ => Some (inr errBadPeer)
  | _ => None
  end.
Proof.
  induction evs as [|ev evs IH]; [reflexivity|].
  destruct ev as [|pid headers| | |]; cbn [fetchHeight List.filter fa_relevant];
    try reflexivity; try exact IH.
  destruct (decide (pid = id p)) as [->|Hne].
  - rewrite bool_decide_eq_false_2 by (intros Hn; apply Hn; reflexivity).
    rewrite bool_decide_eq_true_2 by reflexivity.
    destruct headers as [|h [|h' hs]]; reflexivity.
  - rewrite bool_decide_eq_true_2 by exact Hne.
    rewrite bool_decide_eq_false_2 by exact Hne. exact IH.
Qed.

Section AncestorSearch.
Context `{ChainEnv W}.

Lemma fa_probe_filter s (w : W) p from ceil height evs :
  fa_probe s w p from ceil height (List.filter (fa_relevant p) evs) =
  match fa_probe s w p from ceil height evs with
  | Some (inr (number, hash, rest)) =>
      Some (inr (number, hash, List.filter (fa_relevant p) rest))
  | r => r
  end.
Proof.
  induction evs as [|ev evs IH]; [reflexivity|].
  destruct ev as [|pid headers| | |]; cbn [fa_probe List.filter fa_relevant];
    try reflexivity; try exact IH.
  destruct (decide (pid = id p)) as [->|Hne].
  - rewrite bool_decide_eq_true_2 by reflexivity. cbn [fa_probe].
    rewrite bool_decide_eq_false_2 by (intros Hn; apply Hn; reflexivity).
    destruct (len headers =? 0); [reflexivity|].
    destruct (negb (fa_conforms from 0 headers)); [reflexivity|].
    destruct (fa_scan s w from ceil height headers (length headers)); reflexivity.
  - rewrite bool_decide_eq_false_2 by exact Hne.
    rewrite bool_decide_eq_true_2 by exact Hne. exact IH.
Qed.

Lemma fa_search_filter s (w : W) p evs : forall start end_,
  fa_search s w p start end_ (List.filter (fa_relevant p) evs)
  = fa_search s w p start end_ evs.
Proof.
  induction evs as [|ev evs IH]; intros start end_; [reflexivity|].
  assert (Hskip : fa_search s w p start end_ (List.filter (fa_relevant p) evs)
                  = fa_search s w p start end_ evs) by apply IH.
  destruct ev as [|pid headers| | |]; cbn [List.filter fa_relevant].
  - cbn [fa_search]. reflexivity.
  - destruct (decide (pid = id p)) as [->|Hne].
    + rewrite bool_decide_eq_true_2 by reflexivity. cbn [fa_search].
      destruct (negb (u64 (start + 1) <? end_)); [reflexivity|].
      rewrite bool_decide_eq_false_2 by (intros Hn; apply Hn; reflexivity).
      cbv zeta. destruct headers as [|h [|h' hs]]; try reflexivity.
      destruct (negb (fa_known s w h)); [apply IH|].
      destruct (GetHeaderByHash w (Hash h)); [|reflexivity].
      destruct (negb (Uint64 (Number h0) =? u64 (start + end_) / 2)); [reflexivity|].
      apply IH.
    + rewrite bool_decide_eq_false_2 by exact Hne. rewrite Hskip. cbn [fa_search].
      rewrite bool_decide_eq_true_2 by exact Hne.
      destruct evs; cbn [fa_search]; destruct (negb (u64 (start + 1) <? end_));
        reflexivity.
  - cbn [fa_search]. reflexivity.
  - rewrite Hskip. cbn [fa_search].
    destruct evs; cbn [fa_search]; destruct (negb (u64 (start + 1) <? end_));
      reflexivity.
  - rewrite Hskip. cbn [fa_search].
    destruct evs; cbn [fa_search]; destruct (negb (u64 (start + 1) <? end_));
      reflexivity.
Qed.

(** X13. [findAncestor] acts only on the cancel channel, the timeout and
    the header packets of the master peer: dropping every packet of another
    peer and every body or receipt packet from what arrives, wherever it
    stands, leaves the outcome and the ancestor as they are. *)
Theorem findAncestor_ignores_foreign s (w : W) p height evs :
  findAncestor s w p height (List.filter (fa_relevant p) evs)
  = findAncestor s w p height evs.
Proof.
  unfold findAncestor. cbv zeta. rewrite fa_probe_filter.
  destruct (fa_probe s w p _ _ height evs) as [[err|[[number hash] rest]]|];
    try reflexivity.
  destruct (negb (hash =? 0)); [reflexivity|].
  rewrite fa_search_filter. reflexivity.
Qed.

Lemma fa_scan_found s (w : W) from ceil height headers : forall n number hash,
  fa_scan s w from ceil height headers n = ScanFound number hash ->
  exists h, fa_known s w h = true /\ number = Uint64 (Number h) /\ hash = Hash h
            /\ from <= Int64 (Number h) /\ Uint64 (Number h) <= ceil.
Proof.
  induction n as [|i IH]; intros number hash Hs; [discriminate|].
  rewrite fa_scan_S in Hs. destruct (headers !! i) as [h|]; [|discriminate].
  destruct (Z.ltb_spec (Int64 (Number h)) from); cbn [orb] in Hs; [eauto|].
  destruct (Z.gtb_spec (Uint64 (Number h)) ceil); [eauto|].
  destruct (fa_known s w h) eqn:Hk; [|eauto].
  destruct ((Uint64 (Number h) >? height) && (Z.of_nat i =? fa_limit - 1));
    [discriminate|].
  injection Hs as <- <-. exists h. repeat split; try assumption; lia.
Qed.

Lemma fa_search_bounds s (w : W) p evs : forall start end_ n,
  0 <= start < 2 ^ 63 -> end_ < 2 ^ 63 ->
  fa_search s w p start end_ evs = Some (Return None, n) ->
  n = start
  \/ (start < n < end_
      /\ exists h header, fa_known s w h = true
           /\ GetHeaderByHash w (Hash h) = Some header
           /\ Uint64 (Number header) = n).
Proof.
  pose proof (eq_refl : 2 ^ 63 = 9223372036854775808) as H63.
  pose proof (eq_refl : 2 ^ 64 = 18446744073709551616) as H64.
  induction evs as [|ev evs IH]; intros start end_ n Hs He Hr.
  - cbn [fa_search] in Hr. destruct (negb (u64 (start + 1) <? end_));
      [injection Hr as <-; auto | discriminate].
  - cbn [fa_search] in Hr. rewrite (u64_small (start + 1)) in Hr by lia.
    destruct (Z.ltb_spec (start + 1) end_) as [Hlt|Hge]; cbn [negb] in Hr;
      [|injection Hr as <-; auto].
    assert (Hrec : fa_search s w p start end_ evs = Some (Return None, n) ->
                   n = start
                   \/ (start < n < end_
                       /\ exists h header, fa_known s w h = true
                            /\ GetHeaderByHash w (Hash h) = Some header
                            /\ Uint64 (Number header) = n)).
    { apply IH; assumption. }
    destruct ev as [|pid headers| | |]; try discriminate; try (apply Hrec; exact Hr).
    destruct (bool_decide (pid ≠ id p)); [apply Hrec; exact Hr|].
    cbv zeta in Hr. rewrite (u64_small (start + end_)) in Hr by lia.
    pose proof (Z.div_mod (start + end_) 2 ltac:(lia)) as Hdm.
    pose proof (Z.mod_pos_bound (start + end_) 2 eq_refl) as Hmb.
    set (check := (start + end_) / 2) in *.
    destruct headers as [|h [|h' hs]]; try discriminate.
    destruct (fa_known s w h) eqn:Hk; cbn [negb] in Hr.
    + destruct (GetHeaderByHash w (Hash h)) as [header|] eqn:Hg; [|discriminate].
      destruct (Z.eqb_spec (Uint64 (Number header)) check) as [Hc|Hc]; cbn [negb] in Hr;
        [|discriminate].
      destruct (IH check end_ n ltac:(lia) He Hr) as [->|[Hb Hex]].
      * right. split; [lia|]. eauto.
      * right. split; [lia | exact Hex].
    + destruct (IH start check n Hs ltac:(lia) Hr) as [->|[Hb Hex]]; [auto|].
      right. split; [lia | exact Hex].
Qed.

Lemma fa_probe_found s (w : W) p from ceil height evs number hash rest :
  fa_probe s w p from ceil height evs = Some (inr (number, hash, rest)) ->
  (number = 0 /\ hash = 0)
  \/ exists h, fa_known s w h = true /\ number = Uint64 (Number h) /\ hash = Hash h
               /\ from <= Int64 (Number h) /\ Uint64 (Number h) <= ceil.
Proof.
  induction evs as [|ev evs IH]; [discriminate|].
  destruct ev as [|pid headers| | |]; cbn [fa_probe]; try discriminate; try exact IH.
  destruct (bool_decide (pid ≠ id p)); [exact IH|].
  destruct (len headers =? 0); [discriminate|].
  destruct (negb (fa_conforms from 0 headers)); [discriminate|].
  destruct (fa_scan s w from ceil height headers (length headers)) eqn:Hs;
    try discriminate.
  - intros [= <- <- _]. auto.
  - intros [= <- <- _]. right. eapply fa_scan_found. exact Hs.
Qed.

(** X14. An ancestor that [findAncestor] returns without error lies above
    the floor [fa_floor], at most [MaxForkAncestry] below the local head,
    and not above the local head; and it is block 0 or the number of a
    header the local chain knows. *)
Theorem findAncestor_result_bounds s (w : W) p height evs n :
  0 <= height < 2 ^ 62 ->
  0 <= fa_ceil s w < 2 ^ 62 ->
  findAncestor s w p height evs = Some (Return None, n) ->
  fa_floor (fa_ceil s w) < n <= fa_ceil s w
  /\ fa_ceil s w - MaxForkAncestry < n
  /\ (n = 0
      \/ exists h, fa_known s w h = true
           /\ (Uint64 (Number h) = n
               \/ exists header, GetHeaderByHash w (Hash h) = Some header
                    /\ Uint64 (Number header) = n)).
Proof.
  intros Hh Hc.
  pose proof (eq_refl : 2 ^ 62 = 4611686018427387904) as H62.
  pose proof (eq_refl : 2 ^ 63 = 9223372036854775808) as H63.
  pose proof (eq_refl : 2 ^ 64 = 18446744073709551616) as H64.
  unfold findAncestor. cbv zeta.
  set (ceil := fa_ceil s w) in *.
  assert (Hfloor : fa_floor ceil = if ceil >=? MaxForkAncestry
                                   then ceil - MaxForkAncestry else -1).
  { unfold fa_floor, MaxForkAncestry.
    destruct (Z.geb_spec ceil 90000); [|reflexivity].
    rewrite u64_small by lia. apply i64_small. lia. }
  assert (Hfl : -1 <= fa_floor ceil < ceil /\ ceil - MaxForkAncestry <= fa_floor ceil).
  { rewrite Hfloor. unfold MaxForkAncestry. destruct (Z.geb_spec ceil 90000); lia. }
  set (floor := fa_floor ceil) in *. clearbody floor.
  assert (Hhead : 0 <= fa_head ceil height <= ceil).
  { unfold fa_head. destruct (Z.gtb_spec ceil height); lia. }
  set (head := fa_head ceil height) in *. clearbody head.
  destruct (fa_probe s w p (fa_from head) ceil height evs)
    as [[err|[[number hash] rest]]|] eqn:Hprobe; try discriminate.
  destruct (Z.eqb_spec hash 0) as [Hz|Hnz]; cbn [negb].
  - set (start := if floor >? 0 then u64 floor else 0).
    assert (Hstart : start = Z.max floor 0).
    { subst start. destruct (Z.gtb_spec floor 0); [rewrite u64_small|]; lia. }
    destruct (fa_search s w p start head rest) as [[[[e|]|] st]|] eqn:Hsearch;
      try discriminate.
    destruct (fa_search_bounds s w p rest start head st ltac:(lia) ltac:(lia) Hsearch)
      as [->|[Hb (h & header & Hk & Hg & Hn)]].
    + rewrite i64_small by lia. destruct (Z.leb_spec start floor); [discriminate|].
      intros [= <-]. split; [lia|]. split; [lia|]. left. lia.
    + rewrite i64_small by lia. destruct (Z.leb_spec st floor); [discriminate|].
      intros [= <-]. split; [lia|]. split; [lia|]. right. exists h. split; [exact Hk|].
      right. eauto.
  - destruct (fa_probe_found _ _ _ _ _ _ _ _ _ _ Hprobe)
      as [[_ Habs]|(h & Hk & -> & -> & _ & Hle)]; [contradiction|].
    pose proof (Uint64_range (Number h)) as Hr.
    rewrite i64_small by lia.
    destruct (Z.leb_spec (Uint64 (Number h)) floor); [discriminate|].
    intros [= <-]. split; [lia|]. split; [lia|]. right. exists h. auto.
Qed.
(** X15. With a peer that answers every request of the binary search
    honestly, on a chain that knows the peer's headers exactly up to number
    [a], the search returns [a], for any [a] between the bounds it starts
    from, and whatever other packets arrive in between. *)
Theorem fa_search_honest s (w : W) p reply a start end_ evs :
  fa_honest p reply a start end_ evs ->
  0 <= start <= a -> a < end_ < 2 ^ 63 ->
  (forall n, start < n < end_ -> fa_known s w (reply n) = (n <=? a)) ->
  (forall n, start < n <= a ->
     exists header, GetHeaderByHash w (Hash (reply n)) = Some header
                    /\ Uint64 (Number header) = n) ->
  fa_search s w p start end_ evs = Some (Return None, a).
Proof.
  pose proof (eq_refl : 2 ^ 63 = 9223372036854775808) as H63.
  pose proof (eq_refl : 2 ^ 64 = 18446744073709551616) as H64.
  induction 1 as [start end_ evs Hdone
                 |start end_ ev evs Hev _ IH
                 |start end_ evs Hlt Hle _ IH
                 |start end_ evs Hlt Hgt _ IH];
    intros Hs He Hknown Hget.
  - assert (a = start) as -> by lia.
    destruct evs as [|ev evs]; cbn [fa_search]; rewrite (u64_small (start + 1)) by lia;
      (destruct (Z.ltb_spec (start + 1) end_); [lia | reflexivity]).
  - cbn [fa_search]. rewrite (u64_small (start + 1)) by lia.
    destruct (Z.ltb_spec (start + 1) end_) as [Hlt|Hge]; cbn [negb].
    + specialize (IH Hs He Hknown Hget).
      destruct ev as [|pid headers| | |]; cbn in Hev; try discriminate; try exact IH.
      apply bool_decide_eq_false in Hev.
      rewrite bool_decide_eq_true_2 by exact Hev. exact IH.
    + f_equal. f_equal. lia.
  - cbn [fa_search]. rewrite (u64_small (start + 1)) by lia.
    destruct (Z.ltb_spec (start + 1) end_); [|lia]. cbn [negb].
    rewrite bool_decide_eq_false_2 by (intros Hn; apply Hn; reflexivity).
    cbv zeta. rewrite (u64_small (start + end_)) by lia.
    pose proof (Z.div_mod (start + end_) 2 ltac:(lia)) as Hdm.
    pose proof (Z.mod_pos_bound (start + end_) 2 eq_refl) as Hmb.
    set (check := (start + end_) / 2) in *.
    rewrite (Hknown check) by lia.
    destruct (Z.leb_spec check a); [|lia]. cbn [negb].
    destruct (Hget check ltac:(lia)) as (header & -> & ->).
    rewrite Z.eqb_refl. cbn [negb]. apply IH; try lia.
    + intros n Hn. apply Hknown. lia.
    + intros n Hn. apply Hget. lia.
  - cbn [fa_search]. rewrite (u64_small (start + 1)) by lia.
    destruct (Z.ltb_spec (start + 1) end_); [|lia]. cbn [negb].
    rewrite bool_decide_eq_false_2 by (intros Hn; apply Hn; reflexivity).
    cbv zeta. rewrite (u64_small (start + end_)) by lia.
    pose proof (Z.div_mod (start + end_) 2 ltac:(lia)) as Hdm.
    pose proof (Z.mod_pos_bound (start + end_) 2 eq_refl) as Hmb.
    set (check := (start + end_) / 2) in *.
    rewrite (Hknown check) by lia.
    destruct (Z.leb_spec check a); [lia|]. cbn [negb]. apply IH; try lia.
    + intros n Hn. apply Hknown. lia.
    + intros n Hn. apply Hget. lia.
Qed.
End AncestorSearch.

Lemma findAncestor_result_bounds_witness :
  let s := set_mode LightSync (newLightsync ∅) in
  let w := mkTestChain
             (mk_headers 0 1 5
              ++ map (fun h => mkHeader (Number h) (Hash h + 500) 0) (mk_headers 5 1 6))
             [] 10 0 0 in
  fa_floor (fa_ceil s w) < 4 <= fa_ceil s w
  /\ fa_ceil s w - MaxForkAncestry < 4
  /\ (4 = 0
      \/ exists h, fa_known s w h = true
           /\ (Uint64 (Number h) = 4
               \/ exists header, GetHeaderByHash w (Hash h) = Some header
                    /\ Uint64 (Number header) = 4)).
Proof.
  cbv zeta.
  apply (findAncestor_result_bounds
           (set_mode LightSync (newLightsync ∅))
           (mkTestChain
              (mk_headers 0 1 5
               ++ map (fun h => mkHeader (Number h) (Hash h + 500) 0) (mk_headers 5 1 6))
              [] 10 0 0)
           peerA 10
           [FaHeaders "a" [mkHeader 0 0 0]; FaHeaders "a" [mkHeader 5 5 0]; FaBody;
            FaHeaders "a" [mkHeader 2 2 0]; FaHeaders "a" [mkHeader 3 3 0];
            FaHeaders "a" [mkHeader 4 4 0]] 4).
  - vm_compute. split; [discriminate | reflexivity].
  - vm_compute. split; [discriminate | reflexivity].
  - vm_compute. reflexivity.
Defined.

Lemma fa_search_honest_witness :
  fa_search (newLightsync ∅) (mkTestChain (mk_headers 0 1 6) [] 5 0 0) peerA 0 8
    [FaHeaders "a" [mkHeader 4 4 0]; FaBody; FaHeaders "b" [];
     FaHeaders "a" [mkHeader 6 6 0]; FaHeaders "a" [mkHeader 5 5 0]]
  = Some (Return None, 5).
Proof.
  apply (fa_search_honest (newLightsync ∅) (mkTestChain (mk_headers 0 1 6) [] 5 0 0)
           peerA (fun n => mkHeader n n 0) 5 0 8).
  - refine (fa_honest_known peerA _ 5 0 8 _ _ _ _); [lia | vm_compute; discriminate|].
    refine (fa_honest_skip peerA _ 5 4 8 FaBody _ eq_refl _).
    refine (fa_honest_skip peerA _ 5 4 8 (FaHeaders "b" []) _ eq_refl _).
    refine (fa_honest_unknown peerA _ 5 4 8 _ _ _ _); [lia | vm_compute; reflexivity|].
    refine (fa_honest_known peerA _ 5 4 6 _ _ _ _); [lia | vm_compute; discriminate|].
    apply fa_honest_done. vm_compute. discriminate.
  - lia.
  - lia.
  - intros n Hn.
    assert (Hc : n = 1 \/ n = 2 \/ n = 3 \/ n = 4 \/ n = 5 \/ n = 6 \/ n = 7) by lia.
    destruct Hc as [->|[->|[->|[->|[->|[->| ->]]]]]]; reflexivity.
  - intros n Hn.
    assert (Hc : n = 1 \/ n = 2 \/ n = 3 \/ n = 4 \/ n = 5) by lia.
    destruct Hc as [->|[->|[->|[->| ->]]]]; eexists; split; reflexivity.
Defined.

(** ** [processHeaders]: the deferred call, success and the chunks *)

Lemma set_fsPivotLock_id s : set_fsPivotLock (fsPivotLock s) s = s.
Proof. destruct s. reflexivity. Qed.

Lemma latch_fold pivot (l : list Header) : forall s,
  let s' := foldl (fun s h => if Uint64 (Number h) =? pivot
                              then set_fsPivotLock (Some h) s else s) s l in
  s' = set_fsPivotLock (fsPivotLock s') s
  /\ ((fsPivotLock s' = fsPivotLock s
       /\ forall h, h ∈ l -> Uint64 (Number h) <> pivot)
      \/ exists l1 h l2, l = l1 ++ h :: l2 /\ Uint64 (Number h) = pivot
           /\ (forall k, k ∈ l2 -> Uint64 (Number k) <> pivot)
           /\ fsPivotLock s' = Some h).
Proof.
  induction l as [|x l IH] using rev_ind; intros s; cbv zeta.
  - cbn. split; [symmetry; apply set_fsPivotLock_id|]. left. split; [reflexivity|].
    intros h Hh. inversion Hh.
  - rewrite foldl_snoc. destruct (IH s) as [Heq Hcase]. cbv zeta in Heq, Hcase.
    set (s1 := foldl _ s l) in *.
    destruct (Z.eqb_spec (Uint64 (Number x)) pivot) as [Hx|Hx].
    + split.
      * rewrite Heq. reflexivity.
      * right. exists l, x, []. repeat split; try assumption.
        intros k Hk. inversion Hk.
    + split; [exact Heq|]. destruct Hcase as [[Hl Hnone]|(l1 & h & l2 & -> & Hh & Hl2 & Hl)].
      * left. split; [exact Hl|]. intros h Hh.
        apply elem_of_app in Hh as [Hh|Hh]; [auto|].
        apply list_elem_of_singleton in Hh as ->. exact Hx.
      * right. exists l1, h, (l2 ++ [x]). split; [rewrite <- app_assoc; reflexivity|].
        split; [exact Hh|]. split; [|exact Hl].
        intros k Hk. apply elem_of_app in Hk as [Hk|Hk]; [auto|].
        apply list_elem_of_singleton in Hk as ->. exact Hx.
Qed.

Section HeaderProcessing.
Context `{ChainEnv W}.

(** X16. The deferred call of [processHeaders] does nothing for an empty
    rollback list and else rolls back exactly the listed hashes.  Of the
    synchroniser it changes at most the pivot lock, and only if no pivot
    failure was counted and the last listed header is past the pivot: the
    lock is then a listed header numbered as the pivot, and it is set
    whenever the list holds one. *)
Theorem ph_deferred_spec s pivot (st : phState W) :
  let r := ph_deferred s pivot st in
  (ph_rollback st = [] -> r = (s, ph_world st))
  /\ (ph_rollback st <> [] ->
      snd r = Rollback (ph_world st) (map Hash (ph_rollback st)))
  /\ fst r = set_fsPivotLock (fsPivotLock (fst r)) s
  /\ (fsPivotLock (fst r) <> fsPivotLock s ->
      fsPivotFails s = 0
      /\ (exists lst, last (ph_rollback st) = Some lst /\ pivot < Uint64 (Number lst))
      /\ exists h, fsPivotLock (fst r) = Some h /\ h ∈ ph_rollback st
                   /\ Uint64 (Number h) = pivot)
  /\ (forall lst h,
        fsPivotFails s = 0 -> last (ph_rollback st) = Some lst ->
        pivot < Uint64 (Number lst) ->
        h ∈ ph_rollback st -> Uint64 (Number h) = pivot ->
        exists h', fsPivotLock (fst r) = Some h' /\ h' ∈ ph_rollback st
                   /\ Uint64 (Number h') = pivot).
Proof.
  cbv zeta. unfold ph_deferred.
  destruct (last (ph_rollback st)) as [lst|] eqn:Hlast.
  - cbn [fst snd].
    assert (Hne : ph_rollback st <> []) by (intros Hnil; rewrite Hnil in Hlast; discriminate).
    split; [intros Hnil; contradiction|]. split; [reflexivity|].
    destruct (latch_fold pivot (ph_rollback st) s) as [Heq Hcase].
    cbv zeta in Heq, Hcase.
    destruct (Z.gtb_spec (Uint64 (Number lst)) pivot) as [Hgt|Hle]; cbn [andb].
    + destruct (Z.eqb_spec (fsPivotFails s) 0) as [Hf|Hf].
      * split; [exact Heq|]. split.
        -- intros Hchg. split; [exact Hf|]. split; [exists lst; split; [reflexivity | lia]|].
           destruct Hcase as [[Hsame _]|(l1 & h & l2 & Hl & Hh & _ & Hlock)];
             [contradiction|].
           exists h. split; [exact Hlock|]. split; [|exact Hh].
           rewrite Hl. apply elem_of_app. right. left.
        -- intros lst' h _ _ _ Hin Hnum.
           destruct Hcase as [[_ Hnone]|(l1 & h' & l2 & Hl & Hh & _ & Hlock)].
           ++ exfalso. exact (Hnone h Hin Hnum).
           ++ exists h'. split; [exact Hlock|]. split; [|exact Hh].
              rewrite Hl. apply elem_of_app. right. left.
      * split; [symmetry; apply set_fsPivotLock_id|]. split.
        -- intros Hchg. contradiction.
        -- intros lst' h Hf0. contradiction.
    + split; [symmetry; apply set_fsPivotLock_id|]. split.
      * intros Hchg. contradiction.
      * intros lst' h _ [= <-] Hlt. lia.
  - cbn [fst snd]. split; [reflexivity|]. split.
    + intros Hne. destruct (ph_rollback st) as [|x l] using rev_ind; [contradiction|].
      rewrite last_snoc in Hlast. discriminate.
    + split; [symmetry; apply set_fsPivotLock_id|]. split.
      * intros Hchg. contradiction.
      * intros lst h _ Habs. discriminate.
Qed.

Lemma ph_chunk_step_inr s pivot (st : phState W) chunk rest out st' :
  ph_chunk_step s pivot st chunk rest = inr (out, st') -> out <> Return None.
Proof.
  unfold ph_chunk_step, ph_insert, ph_pivot_check, ph_schedule.
  repeat match goal with
         | |- context [match ?x with _ => _ end] =>
             lazymatch x with
             | context [match _ with _ => _ end] => fail
             | _ => destruct x eqn:?
             end
         | |- context [if ?x then _ else _] =>
             lazymatch x with
             | context [if _ then _ else _] => fail
             | _ => destruct x eqn:?
             end
         end; intros [= <- <-] || discriminate; discriminate.
Qed.

Lemma ph_chunks_inr s pivot : forall fuel (st : phState W) headers out st',
  ph_chunks fuel s pivot st headers = Some (inr (out, st')) -> out <> Return None.
Proof.
  induction fuel as [|fuel IH]; intros st headers out st' Hc.
  - destruct headers; discriminate.
  - destruct headers as [|h hs]; [discriminate|]. cbn [ph_chunks] in Hc.
    destruct (cancelled (ph_world st)); [injection Hc as <- <-; discriminate|].
    cbv zeta in Hc.
    destruct (ph_chunk_step s pivot st _ _) as [st1|[out1 st1]] eqn:Hstep.
    + eapply IH. exact Hc.
    + injection Hc as <- <-. eapply ph_chunk_step_inr. exact Hstep.
Qed.

Lemma ph_loop_success s pivot td : forall evs got (st st' : phState W),
  ph_loop s pivot td evs got st = Some (Return None, st') ->
  ph_rollback st' = []
  /\ (mode s <> FullSync -> td <= CurrentHeaderTd (ph_world st'))
  /\ exists pre rest, evs = pre ++ PhHeaders [] :: rest
       /\ Forall (fun ev => exists hs, ev = PhHeaders hs /\ hs <> []) pre.
Proof.
  induction evs as [|ev evs IH]; intros got st st' Hl; [discriminate|].
  destruct ev as [|[|h hs]]; cbn [ph_loop] in Hl.
  - discriminate.
  - destruct (bool_decide (mode s ≠ LightSync) && negb got
              && (td >? CurrentBlockTd (ph_world st))); [discriminate|].
    destruct ((bool_decide (mode s = FastSync) || bool_decide (mode s = LightSync))
              && (td >? CurrentHeaderTd (ph_world st))) eqn:Htd; [discriminate|].
    injection Hl as <-. cbn [ph_rollback ph_world]. split; [reflexivity|]. split.
    + intros Hm. destruct (Z.gtb_spec td (CurrentHeaderTd (ph_world st))); [|lia].
      rewrite andb_true_r in Htd. apply orb_false_elim in Htd as [H1 H2].
      apply bool_decide_eq_false in H1, H2. destruct (mode s); congruence.
    + exists [], evs. split; [reflexivity | constructor].
  - destruct (ph_chunks (length (h :: hs)) s pivot st (h :: hs))
      as [[st1|[out1 st1]]|] eqn:Hc; [| |discriminate].
    + destruct (IH _ _ _ Hl) as (Hr & Htd & pre & rest & -> & Hpre).
      split; [exact Hr|]. split; [exact Htd|].
      exists (PhHeaders (h :: hs) :: pre), rest. split; [reflexivity|].
      constructor; [|exact Hpre]. exists (h :: hs). split; [reflexivity | discriminate].
    + injection Hl as -> ->. exfalso. exact (ph_chunks_inr _ _ _ _ _ _ _ Hc eq_refl).
Qed.

(** X17. [processHeaders] returns nil only on the empty batch that ends the
    stream, after batches that all held headers; the total difficulty the
    peer announced is then not above that of the local head header unless
    the mode is [FullSync]; nothing is rolled back and the synchroniser,
    with its pivot lock, is as before. *)
Theorem processHeaders_success s (w : W) origin td evs s' w' :
  processHeaders s w origin td evs = Some (Return None, s', w') ->
  s' = s
  /\ (mode s <> FullSync -> td <= CurrentHeaderTd w')
  /\ (exists st, ph_loop s (FastSyncPivot w) td evs false (mkPh w [] origin)
                 = Some (Return None, st)
                 /\ ph_rollback st = [] /\ w' = ph_world st)
  /\ exists pre rest, evs = pre ++ PhHeaders [] :: rest
       /\ Forall (fun ev => exists hs, ev = PhHeaders hs /\ hs <> []) pre.
Proof.
  unfold processHeaders. cbv zeta.
  destruct (ph_loop s (FastSyncPivot w) td evs false (mkPh w [] origin))
    as [[out st]|] eqn:Hl; [|discriminate].
  destruct (ph_deferred s (FastSyncPivot w) st) as [s1 w1] eqn:Hd.
  intros [= -> -> ->].
  destruct (ph_loop_success _ _ _ _ _ _ _ Hl) as (Hr & Htd & Hev).
  unfold ph_deferred in Hd. rewrite Hr in Hd. cbn in Hd. injection Hd as <- <-.
  split; [reflexivity|]. split; [exact Htd|]. split; [|exact Hev].
  exists st. repeat split. exact Hr.
Qed.

Lemma ph_chunk_step_origin s pivot (st st' : phState W) chunk rest :
  ph_chunk_step s pivot st chunk rest = inl st' -> ph_origin st' = ph_origin st.
Proof.
  unfold ph_chunk_step, ph_insert, ph_pivot_check, ph_schedule.
  repeat match goal with
         | |- context [match ?x with _ => _ end] =>
             lazymatch x with
             | context [match _ with _ => _ end] => fail
             | _ => destruct x eqn:?
             end
         | |- context [if ?x then _ else _] =>
             lazymatch x with
             | context [if _ then _ else _] => fail
             | _ => destruct x eqn:?
             end
         end; intros [= <-] || discriminate; reflexivity.
Qed.

Lemma ph_limit_pos h (hs : list Header) :
  0 < ph_limit (h :: hs) <= len (h :: hs)
  /\ ph_limit (h :: hs) <= maxHeadersProcess.
Proof.
  unfold ph_limit, maxHeadersProcess, len. cbn [length].
  destruct (Z.gtb_spec 2048 (Z.of_nat (S (length hs)))); lia.
Qed.

Lemma ph_chunks_origin_aux s pivot : forall fuel (st : phState W) headers,
  (length headers <= fuel)%nat ->
  exists r, ph_chunks fuel s pivot st headers = Some r
    /\ forall st', r = inl st' ->
         ph_origin st' = u64 (ph_origin st + len headers) \/
         (headers = [] /\ st' = st).
Proof.
  induction fuel as [|fuel IH]; intros st headers Hf.
  - destruct headers; [|cbn in Hf; lia]. exists (inl st). split; [reflexivity|].
    intros st' [= <-]. right. auto.
  - destruct headers as [|h hs].
    + exists (inl st). split; [reflexivity|]. intros st' [= <-]. right. auto.
    + cbn [ph_chunks]. destruct (cancelled (ph_world st)).
      * eexists. split; [reflexivity|]. discriminate.
      * cbv zeta. destruct (ph_limit_pos h hs) as [Hlim Hmax].
        set (limit := ph_limit (h :: hs)) in *.
        destruct (ph_chunk_step s pivot st (take (Z.to_nat limit) (h :: hs))
                    (drop (Z.to_nat limit) (h :: hs)))
          as [st1|r1] eqn:Hstep.
        -- pose proof (ph_chunk_step_origin _ _ _ _ _ _ Hstep) as Ho.
           set (st2 := mkPh (ph_world st1) (ph_rollback st1) (u64 (ph_origin st1 + limit))).
           assert (Hlen : len (drop (Z.to_nat limit) (h :: hs)) = len (h :: hs) - limit).
           { unfold len in *. rewrite length_drop. lia. }
           destruct (IH st2 (drop (Z.to_nat limit) (h :: hs))) as (r & Hr & Hspec).
           { unfold len in *. rewrite length_drop. cbn [length] in *. lia. }
           exists r. split; [exact Hr|]. intros st' ->. left.
           destruct (Hspec st' eq_refl) as [Hst|[Hnil ->]].
           ++ rewrite Hst, Hlen. subst st2. cbn [ph_origin]. rewrite Ho.
              unfold u64. rewrite Zplus_mod_idemp_l. f_equal. lia.
           ++ rewrite Hnil in Hlen. unfold len at 1 in Hlen. cbn [length] in Hlen.
              subst st2. cbn [ph_origin]. rewrite Ho. f_equal. lia.
        -- exists (inr r1). split; [reflexivity|]. discriminate.
Qed.

(** X18. The loop over the chunks of a batch comes to an end within as
    many rounds as the batch has headers; when no chunk fails, the origin
    has advanced by the number of headers of the batch, modulo 2^64. *)
Theorem ph_chunks_origin s pivot (st : phState W) headers :
  0 <= ph_origin st < 2 ^ 64 ->
  exists r, ph_chunks (length headers) s pivot st headers = Some r
    /\ forall st', r = inl st' -> ph_origin st' = u64 (ph_origin st + len headers).
Proof.
  intros Ho.
  destruct (ph_chunks_origin_aux s pivot (length headers) st headers (le_n _))
    as (r & Hr & Hspec).
  exists r. split; [exact Hr|]. intros st' Hst.
  destruct (Hspec st' Hst) as [Hadv|[-> ->]]; [exact Hadv|].
  unfold len. cbn [length]. rewrite Z.add_0_r. symmetry. apply u64_small. exact Ho.
Qed.
End HeaderProcessing.

Lemma processHeaders_success_witness :
  let s := set_mode FastSync (newLightsync ∅) in
  let w := mkTestChain [] [] 0 0 0 in
  let w' := mkTestChain (mk_headers 1 1 3) [] 0 0 0 in
  let evs := [PhHeaders (mk_headers 1 1 3); PhHeaders []] in
  s = s
  /\ (mode s <> FullSync -> 0 <= CurrentHeaderTd w')
  /\ (exists st, ph_loop s (FastSyncPivot w) 0 evs false (mkPh w [] 1)
                 = Some (Return None, st)
                 /\ ph_rollback st = [] /\ w' = ph_world st)
  /\ exists pre rest, evs = pre ++ PhHeaders [] :: rest
       /\ Forall (fun ev => exists hs, ev = PhHeaders hs /\ hs <> []) pre.
Proof.
  cbv zeta.
  apply (processHeaders_success (set_mode FastSync (newLightsync ∅))
           (mkTestChain [] [] 0 0 0) 1 0
           [PhHeaders (mk_headers 1 1 3); PhHeaders []]).
  vm_compute. reflexivity.
Defined.

Lemma ph_chunks_origin_witness :
  exists r,
    ph_chunks (length (mk_headers 1 1 3)) (newLightsync ∅) 0
      (mkPh (mkTestChain [] [] 0 0 0) [] 1) (mk_headers 1 1 3) = Some r
    /\ forall st', r = inl st' ->
         ph_origin st' = u64 (ph_origin (mkPh (mkTestChain [] [] 0 0 0) [] 1)
                              + len (mk_headers 1 1 3)).
Proof.
  apply (ph_chunks_origin (newLightsync ∅) 0 (mkPh (mkTestChain [] [] 0 0 0) [] 1)
           (mk_headers 1 1 3)).
  vm_compute. split; [discriminate | reflexivity].
Defined.

(** ** Import of fetch results *)

Section ImportResults.
Context `{ImportEnv W}.

Lemma importBlockResults_aux : forall fuel (w : W) results,
  (length results <= fuel)%nat ->
  exists r, importBlockResults fuel w results = Some r
    /\ (fst r = Return None \/ fst r = Return (Some errCancelContentProcessing)
        \/ fst r = Return (Some errInvalidChain) \/ fst r = Panic)
    /\ forall w', r = (Return None, w') ->
         exists batches,
           concat batches = map block_of results
           /\ Forall (fun b => 0 < len b <= maxResultsProcess) batches
           /\ (forall i b, batches !! i = Some b -> (S i < length batches)%nat ->
                 len b = maxResultsProcess)
           /\ insert_batches w batches = Some w'.
Proof.
  induction fuel as [|fuel IH]; intros w results Hf.
  - destruct results; [|cbn in Hf; lia]. exists (Return None, w).
    split; [reflexivity|]. split; [auto|]. intros w' [= <-]. exists [].
    split; [reflexivity|]. split; [constructor|]. split; [|reflexivity].
    intros i b Hb. discriminate.
  - destruct results as [|r0 rs].
    { exists (Return None, w). split; [reflexivity|]. split; [auto|].
      intros w' [= <-]. exists []. split; [reflexivity|]. split; [constructor|].
      split; [|reflexivity]. intros i b Hb. discriminate. }
    cbn [importBlockResults]. destruct (quit w).
    { eexists. split; [reflexivity|]. split; [cbn; auto|]. discriminate. }
    cbv zeta. set (results := r0 :: rs) in *.
    assert (Hitems : 0 < import_items results <= len results
                     /\ import_items results <= maxResultsProcess).
    { unfold import_items, maxResultsProcess, len. subst results. cbn [length]. lia. }
    set (items := import_items results) in *.
    set (blocks := map block_of (take (Z.to_nat items) results)).
    assert (Hlenb : len blocks = items).
    { subst blocks. unfold len in *. rewrite length_map, length_take. lia. }
    destruct (InsertChain w blocks) as [[index err] w1] eqn:Hins.
    destruct err as [e|].
    { destruct ((index <? 0) || (index >=? len results));
        (eexists; split; [reflexivity|]; split; [cbn; auto|]; discriminate). }
    destruct (IH w1 (drop (Z.to_nat items) results)) as (r & Hr & Hout & Hok).
    { rewrite length_drop. unfold len in Hitems. subst results. cbn [length] in *. lia. }
    exists r. split; [exact Hr|]. split; [exact Hout|].
    intros w' ->. destruct (Hok w' eq_refl) as (batches & Hcat & Hall & Hfull & Hinsert).
    exists (blocks :: batches). split; [|split; [|split]].
    + cbn [concat]. rewrite Hcat. subst blocks. rewrite <- map_app, take_drop. reflexivity.
    + constructor; [lia | exact Hall].
    + intros i b Hb Hi. destruct i as [|i].
      * injection Hb as <-. rewrite Hlenb.
        destruct batches as [|b1 bs]; [cbn in Hi; lia|].
        apply Forall_cons in Hall as [Hb1 _].
        assert (Hne : len (drop (Z.to_nat items) results) <> 0).
        { intros Hz. assert (Hd : drop (Z.to_nat items) results = []).
          { unfold len in Hz. destruct (drop _ results); [reflexivity | cbn in Hz; lia]. }
          rewrite Hd in Hcat. cbn in Hcat. destruct b1; [unfold len in Hb1; cbn in Hb1; lia | discriminate]. }
        unfold len in Hne, Hitems. rewrite length_drop in Hne.
        unfold items, import_items, len, maxResultsProcess in *. lia.
      * cbn in Hb, Hi. apply (Hfull i b Hb). lia.
    + cbn [insert_batches]. rewrite Hins. exact Hinsert.
Qed.

(** X19. [importBlockResults] ends within as many rounds as there are
    results, with nil, [errCancelContentProcessing], [errInvalidChain] or a
    panic, whatever error [InsertChain] gives.  When it returns nil, the
    blocks of all results were inserted, in their order, in batches of
    [maxResultsProcess] blocks and a last, shorter one, and every insertion
    succeeded. *)
Theorem importBlockResults_spec (w : W) results :
  exists r, importBlockResults (length results) w results = Some r
    /\ (fst r = Return None \/ fst r = Return (Some errCancelContentProcessing)
        \/ fst r = Return (Some errInvalidChain) \/ fst r = Panic)
    /\ forall w', r = (Return None, w') ->
         exists batches,
           concat batches = map block_of results
           /\ Forall (fun b => 0 < len b <= maxResultsProcess) batches
           /\ (forall i b, batches !! i = Some b -> (S i < length batches)%nat ->
                 len b = maxResultsProcess)
           /\ insert_batches w batches = Some w'.
Proof. apply importBlockResults_aux. apply le_n. Qed.

Lemma processFullSyncContent_aux : forall waits (w w' : W),
  processFullSyncContent w waits = Some (Return None, w') ->
  exists pre rest,
    waits = pre ++ [] :: rest
    /\ Forall (fun rs => rs <> []) pre
    /\ exists batches,
         concat batches = map block_of (concat pre)
         /\ Forall (fun b => 0 < len b <= maxResultsProcess) batches
         /\ insert_batches w batches = Some w'.
Proof.
  induction waits as [|results waits IH]; intros w w' Hp; [discriminate|].
  cbn [processFullSyncContent] in Hp. destruct results as [|r0 rs].
  - cbn in Hp. injection Hp as <-. exists [], waits. split; [reflexivity|].
    split; [constructor|]. exists []. split; [reflexivity|]. split; [constructor|].
    reflexivity.
  - change (len (r0 :: rs) =? 0) with (Z.of_nat (S (length rs)) =? 0) in Hp.
    destruct (Z.eqb_spec (Z.of_nat (S (length rs))) 0); [lia|].
    destruct (importBlockResults_aux (length (r0 :: rs)) w (r0 :: rs) (le_n _))
      as (r & Hr & _ & Hok).
    rewrite Hr in Hp. destruct r as [[[e|]|] w1]; try discriminate.
    destruct (Hok w1 eq_refl) as (b1 & Hcat1 & Hall1 & _ & Hins1).
    destruct (IH _ _ Hp) as (pre & rest & -> & Hpre & b2 & Hcat2 & Hall2 & Hins2).
    exists ((r0 :: rs) :: pre), rest. split; [reflexivity|].
    split; [constructor; [discriminate | exact Hpre]|].
    exists (b1 ++ b2). split; [|split].
    + rewrite concat_app, Hcat1, Hcat2. cbn [concat]. rewrite map_app. reflexivity.
    + apply Forall_app. split; assumption.
    + clear -Hins1 Hins2. revert w Hins1.
      induction b1 as [|b bs IHb]; intros w Hins1.
      * cbn in Hins1. injection Hins1 as ->. exact Hins2.
      * cbn [insert_batches app] in *.
        destruct (InsertChain w b) as [[idx err] w2]. destruct err; [discriminate|].
        apply IHb. exact Hins1.
Qed.

(** X20. [processFullSyncContent] returns nil only when [WaitResults] gives
    an empty set; the blocks of all results received before it were then
    inserted, in the order received, in batches of at most
    [maxResultsProcess] blocks, and every insertion succeeded. *)
Theorem processFullSyncContent_spec (w w' : W) waits :
  processFullSyncContent w waits = Some (Return None, w') ->
  exists pre rest,
    waits = pre ++ [] :: rest
    /\ Forall (fun rs => rs <> []) pre
    /\ exists batches,
         concat batches = map block_of (concat pre)
         /\ Forall (fun b => 0 < len b <= maxResultsProcess) batches
         /\ insert_batches w batches = Some w'.
Proof. apply processFullSyncContent_aux. Qed.
End ImportResults.

Example importBlockResults_run :
  option_map (fun r => (fst r, map (fun b => Number (b_header b)) (ic_blocks (snd r))))
    (importBlockResults 3 (mkImportChain [] [] false) (mk_results 1 3))
  = Some (Return None, [1; 2; 3])
  /\ option_map fst (importBlockResults 3 (mkImportChain [] [2] false) (mk_results 1 3))
     = Some (Return (Some errInvalidChain)).
Proof. vm_compute. split; reflexivity. Qed.

Lemma processFullSyncContent_spec_witness :
  exists pre rest,
    [mk_results 1 2; mk_results 3 1; []] = pre ++ [] :: rest
    /\ Forall (fun rs => rs <> []) pre
    /\ exists batches,
         concat batches = map block_of (concat pre)
         /\ Forall (fun b => 0 < len b <= maxResultsProcess) batches
         /\ insert_batches (mkImportChain [] [] false) batches
            = Some (mkImportChain (map block_of (mk_results 1 3)) [] false).
Proof.
  apply (processFullSyncContent_spec (mkImportChain [] [] false)
           (mkImportChain (map block_of (mk_results 1 3)) [] false)
           [mk_results 1 2; mk_results 3 1; []]).
  vm_compute. reflexivity.
Defined.

(** ** The fetch loop *)

Section FetchParts.
Context `{FetchEnv W}.

Lemma fp_extends_refl (st : fpState W) : fp_extends st st.
Proof.
  split; [reflexivity|]. exists []. rewrite app_nil_r. split; [reflexivity | constructor].
Qed.

Lemma fp_extends_trans (a b c : fpState W) :
  fp_extends a b -> fp_extends b c -> fp_extends a c.
Proof.
  intros [Hp1 (n1 & Hc1 & Hok1)] [Hp2 (n2 & Hc2 & Hok2)]. split; [congruence|].
  exists (n1 ++ n2). split.
  - rewrite Hc2, Hc1, app_assoc. reflexivity.
  - apply Forall_app. split; [exact Hok1|]. rewrite Hp1 in Hok2. exact Hok2.
Qed.

Lemma fp_extends_fields (st : fpState W) s' w f u :
  peers s' = peers (fp_sync st) -> calls s' = calls (fp_sync st) ->
  fp_extends st (mkFp s' w f u).
Proof.
  intros Hp Hc. split; [exact Hp|]. exists []. cbn [fp_sync].
  rewrite app_nil_r. split; [exact Hc | constructor].
Qed.

Lemma fetchParts_delivery_extends (st : fpState W) pid items :
  match fetchParts_delivery st pid items with
  | inl st' => fp_extends st st'
  | inr (_, st') => fp_extends st st'
  end.
Proof.
  unfold fetchParts_delivery. cbv zeta. unfold peers_Peer.
  destruct (peers (fp_sync st) !! pid) as [peer|] eqn:Hl.
  - destruct (fp_deliver (fp_sync st) (fp_world st) pid items) as [[accepted err] w'].
    destruct (bool_decide (err = Some errInvalidChain)).
    + apply fp_extends_fields; reflexivity.
    + destruct (bool_decide (err ≠ Some errStaleDelivery)).
      * split; [reflexivity|]. exists [CallSetIdle peer accepted].
        split; [reflexivity|]. constructor; [|constructor]. exists pid. exact Hl.
      * apply fp_extends_fields; reflexivity.
  - apply fp_extends_fields; reflexivity.
Qed.

Lemma fetchParts_update_extends (st : fpState W) :
  match fetchParts_update st with
  | inl st' => fp_extends st st'
  | inr (_, st') => fp_extends st st'
  end.
Proof.
  unfold fetchParts_update. cbv zeta.
  destruct (peers_Len (fp_sync st) =? 0) eqn:Hlen;
    [apply fp_extends_fields; reflexivity|].
  destruct (fp_expire (fp_sync st) (fp_world st)) as [expired w1].
  unfold fetchParts_update_expire. rewrite Hlen.
  destruct (fetchParts_expire_loop (map_to_list expired) (fp_sync st))
    as (new & Hp & Hc & Hnew).
  set (s := foldl fetchParts_expire_one (fp_sync st) (map_to_list expired)) in *.
  assert (Hext : forall w f u, fp_extends st (mkFp s w f u)).
  { intros w f u. split; [exact Hp|]. exists new. split; [exact Hc|].
    apply Forall_forall. intros c Hin. apply Hnew in Hin as (e & peer & _ & Hl & ->).
    destruct (e.2 >? 2); cbn; eauto. }
  destruct (fp_pending s w1 =? 0).
  - destruct (negb (fp_inFlight s w1) && fp_finished st); apply Hext.
  - destruct (fp_idle s w1) as [idles total].
    destruct (fetchParts_assign s w1 _ idles) as [[fl' w2]|[out w2]]; [|apply Hext].
    destruct (negb (progressed fl') && negb (throttled fl') && negb (running fl')
              && (len idles =? total) && (fp_pending s w2 >? 0)); apply Hext.
Qed.

Lemma fp_extends_idle_fields (st : fpState W) s' w f u :
  calls s' = calls (fp_sync st) -> fp_extends_idle st (mkFp s' w f u).
Proof.
  intros Hc. exists []. cbn [fp_sync]. rewrite app_nil_r. split; [exact Hc | constructor].
Qed.

Lemma fp_extends_idle_trans (a b c : fpState W) :
  fp_extends_idle a b -> fp_extends_idle b c -> fp_extends_idle a c.
Proof.
  intros (n1 & Hc1 & Hok1) (n2 & Hc2 & Hok2). exists (n1 ++ n2). split.
  - rewrite Hc2, Hc1, app_assoc. reflexivity.
  - apply Forall_app. split; assumption.
Qed.

Lemma fetchParts_delivery_idle (st : fpState W) pid items :
  match fetchParts_delivery st pid items with
  | inl st' => fp_extends_idle st st'
  | inr (_, st') => fp_extends_idle st st'
  end.
Proof.
  unfold fetchParts_delivery. cbv zeta.
  destruct (peers_Peer (fp_sync st) pid) as [peer|].
  - destruct (fp_deliver (fp_sync st) (fp_world st) pid items) as [[accepted err] w'].
    destruct (bool_decide (err = Some errInvalidChain)).
    + apply fp_extends_idle_fields; reflexivity.
    + destruct (bool_decide (err ≠ Some errStaleDelivery)).
      * exists [CallSetIdle peer accepted]. split; [reflexivity|].
        constructor; [discriminate | constructor].
      * apply fp_extends_idle_fields; reflexivity.
  - apply fp_extends_idle_fields; reflexivity.
Qed.

Lemma fetchParts_no_update errCancel : forall evs (st st' : fpState W) out,
  FpUpdate ∉ evs ->
  fetchParts errCancel st evs = Some (out, st') -> fp_extends_idle st st'.
Proof.
  induction evs as [|ev evs IH]; intros st st' out Hno Hf; [discriminate|].
  assert (Hno' : FpUpdate ∉ evs) by (intros Hin; apply Hno; right; exact Hin).
  destruct ev as [|pid items|cont| |]; cbn [fetchParts] in Hf.
  - injection Hf as <- <-. exists []. rewrite app_nil_r. split; [reflexivity | constructor].
  - pose proof (fetchParts_delivery_idle st pid items) as Hd.
    destruct (fetchParts_delivery st pid items) as [st1|[o st1]].
    + eapply fp_extends_idle_trans; [exact Hd | eapply IH; eassumption].
    + injection Hf as <- <-. exact Hd.
  - eapply fp_extends_idle_trans; [|eapply IH; eassumption].
    apply fp_extends_idle_fields; reflexivity.
  - eapply fp_extends_idle_trans; [|eapply IH; eassumption].
    apply fp_extends_idle_fields; reflexivity.
  - exfalso. apply Hno. left.
Qed.

Lemma fetchParts_extends errCancel : forall evs (st st' : fpState W) out,
  fetchParts errCancel st evs = Some (out, st') -> fp_extends st st'.
Proof.
  induction evs as [|ev evs IH]; intros st st' out Hf; [discriminate|].
  destruct ev as [|pid items|cont| |]; cbn [fetchParts] in Hf.
  - injection Hf as <- <-. apply fp_extends_refl.
  - pose proof (fetchParts_delivery_extends st pid items) as Hd.
    destruct (fetchParts_delivery st pid items) as [st1|[o st1]].
    + eapply fp_extends_trans; [exact Hd | eapply IH; exact Hf].
    + injection Hf as <- <-. exact Hd.
  - eapply fp_extends_trans; [|eapply IH; exact Hf].
    apply fp_extends_fields; reflexivity.
  - eapply fp_extends_trans; [|eapply IH; exact Hf].
    apply fp_extends_fields; reflexivity.
  - destruct (negb (fp_update st)); [discriminate|].
    pose proof (fetchParts_update_extends st) as Hu.
    destruct (fetchParts_update st) as [st1|[o st1]].
    + eapply fp_extends_trans; [exact Hu | eapply IH; exact Hf].
    + injection Hf as <- <-. exact Hu.
Qed.

(** X21. Every invocation of the callbacks [setIdle] and [dropPeer] that
    a run of [fetchParts] makes is for a peer that it has found in the
    registry; [dropPeer] is invoked in update passes only. *)
Theorem fetchParts_calls errCancel evs (st st' : fpState W) out :
  fetchParts errCancel st evs = Some (out, st') ->
  exists new, calls (fp_sync st') = calls (fp_sync st) ++ new
    /\ Forall (fp_call_ok (peers (fp_sync st))) new
    /\ (FpUpdate ∉ evs -> forall pid, CallDropPeer pid ∉ new).
Proof.
  intros Hf. destruct (fetchParts_extends _ _ _ _ _ Hf) as [_ (new & Hc & Hok)].
  exists new. split; [exact Hc|]. split; [exact Hok|].
  intros Hno pid Hin.
  destruct (fetchParts_no_update _ _ _ _ _ Hno Hf) as (new' & Hc' & Hidle).
  rewrite Hc in Hc'. apply app_inv_head in Hc'. subst new'.
  rewrite Forall_forall in Hidle. exact (Hidle _ Hin pid eq_refl).
Qed.

Lemma fetchParts_assign_inr s (w : W) fl idles out w' :
  fetchParts_assign s w fl idles = inr (out, w') -> out <> Return None.
Proof.
  revert w fl. induction idles as [|peer rest IH]; intros w fl; [discriminate|].
  cbn [fetchParts_assign]. destruct (fp_throttle s w); [discriminate|].
  destruct (fp_pending s w =? 0); [discriminate|].
  destruct (fp_reserve s w peer (fp_capacity s w peer)) as [[[request progress] err] w1].
  destruct err as [e|]; [intros [= <- <-]; discriminate|].
  destruct request as [req|]; [|apply IH].
  destruct (fp_fetch s w1 peer req) as [[e|] w2]; [intros [= <- <-]; discriminate|].
  apply IH.
Qed.

Lemma fetchParts_nil_aux errCancel : forall evs (st st' : fpState W),
  fetchParts errCancel st evs = Some (Return None, st') ->
  (fp_finished st = true \/ FpWake false ∈ evs)
  /\ FpUpdate ∈ evs
  /\ fp_finished st' = true
  /\ fp_pending (fp_sync st') (fp_world st') = 0
  /\ fp_inFlight (fp_sync st') (fp_world st') = false
  /\ peers_Len (fp_sync st') <> 0.
Proof.
  induction evs as [|ev evs IH]; intros st st' Hf; [discriminate|].
  destruct ev as [|pid items|cont| |]; cbn [fetchParts] in Hf.
  - discriminate.
  - unfold fetchParts_delivery in Hf. cbv zeta in Hf.
    destruct (peers_Peer (fp_sync st) pid) as [peer|].
    + destruct (fp_deliver (fp_sync st) (fp_world st) pid items) as [[accepted err] w'].
      destruct (bool_decide (err = Some errInvalidChain)) eqn:He.
      * apply bool_decide_eq_true in He. subst err. discriminate.
      * destruct (IH _ _ Hf) as ([Hfin|Hw] & Hu & Hrest);
          (split; [|split; [right; exact Hu | exact Hrest]]);
          [left; exact Hfin | right; right; exact Hw].
    + destruct (IH _ _ Hf) as ([Hfin|Hw] & Hu & Hrest);
        (split; [|split; [right; exact Hu | exact Hrest]]);
        [left; exact Hfin | right; right; exact Hw].
  - destruct (IH _ _ Hf) as ([Hfin|Hw] & Hu & Hrest);
      (split; [|split; [right; exact Hu | exact Hrest]]).
    + cbn [fp_finished] in Hfin. destruct cont; [left; exact Hfin | right; left].
    + right. right. exact Hw.
  - destruct (IH _ _ Hf) as ([Hfin|Hw] & Hu & Hrest);
      (split; [|split; [right; exact Hu | exact Hrest]]);
      [left; exact Hfin | right; right; exact Hw].
  - destruct (negb (fp_update st)); [discriminate|].
    destruct (fetchParts_update st) as [st1|[o st1]] eqn:Hupd.
    + assert (Hkeep : fp_finished st1 = fp_finished st).
      { unfold fetchParts_update in Hupd. cbv zeta in Hupd.
        destruct (peers_Len (fp_sync st) =? 0); [discriminate|].
        destruct (fp_expire (fp_sync st) (fp_world st)) as [expired w1].
        destruct (fetchParts_update_expire (fp_sync st) expired) as [s|e]; [|discriminate].
        destruct (fp_pending s w1 =? 0).
        - destruct (negb (fp_inFlight s w1) && fp_finished st); [discriminate|].
          injection Hupd as <-. reflexivity.
        - destruct (fp_idle s w1) as [idles total].
          destruct (fetchParts_assign s w1 _ idles) as [[fl' w2]|[out w2]]; [|discriminate].
          destruct (negb (progressed fl') && negb (throttled fl') && negb (running fl')
                    && (len idles =? total) && (fp_pending s w2 >? 0)); [discriminate|].
          injection Hupd as <-. reflexivity. }
      destruct (IH _ _ Hf) as ([Hfin|Hw] & Hu & Hrest);
        (split; [|split; [right; exact Hu | exact Hrest]]);
        [left; congruence | right; right; exact Hw].
    + injection Hf as -> ->. unfold fetchParts_update in Hupd. cbv zeta in Hupd.
      destruct (Z.eqb_spec (peers_Len (fp_sync st)) 0) as [|Hlen]; [discriminate|].
      destruct (fp_expire (fp_sync st) (fp_world st)) as [expired w1].
      destruct (fetchParts_update_expire (fp_sync st) expired) as [s|e] eqn:Hexp;
        [|discriminate].
      assert (Hps : peers s = peers (fp_sync st)).
      { unfold fetchParts_update_expire in Hexp.
        destruct (peers_Len (fp_sync st) =? 0); [discriminate|]. injection Hexp as <-.
        destruct (fetchParts_expire_loop (map_to_list expired) (fp_sync st))
          as (new & Hp & _). exact Hp. }
      destruct (Z.eqb_spec (fp_pending s w1) 0) as [Hpend|Hpend].
      * destruct (fp_inFlight s w1) eqn:Hfl; [discriminate|].
        destruct (fp_finished st) eqn:Hfin; [|discriminate].
        injection Hupd as <-. cbn [fp_sync fp_world fp_finished].
        split; [left; reflexivity|]. split; [left|].
        split; [reflexivity|]. split; [exact Hpend|]. split; [exact Hfl|].
        unfold peers_Len in *. rewrite Hps. exact Hlen.
      * destruct (fp_idle s w1) as [idles total].
        destruct (fetchParts_assign s w1 _ idles) as [[fl' w2]|[out w2]] eqn:Ha.
        -- destruct (negb (progressed fl') && negb (throttled fl') && negb (running fl')
                     && (len idles =? total) && (fp_pending s w2 >? 0)); discriminate.
        -- injection Hupd as -> _. exfalso.
           exact (fetchParts_assign_inr _ _ _ _ _ _ Ha eq_refl).
Qed.

(** X22. [fetchParts] returns nil only from an update pass that finds no
    task pending and no request in flight, and only after the header
    fetcher has sent the wake-up that ends the stream; the registry is not
    empty then. *)
Theorem fetchParts_nil errCancel s (w : W) evs st' :
  fetchParts errCancel (mkFp s w false false) evs = Some (Return None, st') ->
  FpWake false ∈ evs
  /\ FpUpdate ∈ evs
  /\ fp_pending (fp_sync st') (fp_world st') = 0
  /\ fp_inFlight (fp_sync st') (fp_world st') = false
  /\ peers_Len (fp_sync st') <> 0.
Proof.
  intros Hf.
  destruct (fetchParts_nil_aux _ _ _ _ Hf) as ([Habs|Hw] & Hu & _ & Hp & Hfl & Hl);
    [discriminate|].
  repeat split; assumption.
Qed.
End FetchParts.

Lemma fetchParts_calls_witness :
  let st := mkFp (newLightsync {["a" := peerA]}) (mkFetchSched 1 []) false false in
  let evs := [FpTick; FpUpdate; FpDelivery "b" 1; FpDelivery "a" 1; FpWake false; FpUpdate] in
  exists st',
    fetchParts errCancelBodyFetch st evs = Some (Return None, st')
    /\ exists new, calls (fp_sync st') = calls (fp_sync st) ++ new
         /\ Forall (fp_call_ok (peers (fp_sync st))) new
         /\ (FpUpdate ∉ evs -> forall pid, CallDropPeer pid ∉ new).
Proof.
  cbv zeta.
  destruct (fetchParts errCancelBodyFetch
              (mkFp (newLightsync {["a" := peerA]}) (mkFetchSched 1 []) false false)
              [FpTick; FpUpdate; FpDelivery "b" 1; FpDelivery "a" 1; FpWake false; FpUpdate])
    as [[out st']|] eqn:Hrun; [|vm_compute in Hrun; discriminate].
  assert (Hout : out = Return None).
  { vm_compute in Hrun. injection Hrun as <- _. reflexivity. }
  subst out. exists st'. split; [reflexivity|].
  exact (fetchParts_calls errCancelBodyFetch _ _ _ _ Hrun).
Defined.

Lemma fetchParts_nil_witness :
  exists st',
    fetchParts errCancelBodyFetch
      (mkFp (newLightsync {["a" := peerA]}) (mkFetchSched 1 []) false false)
      [FpTick; FpUpdate; FpDelivery "a" 1; FpWake false; FpUpdate]
    = Some (Return None, st')
    /\ FpWake false ∈ [FpTick; FpUpdate; FpDelivery "a" 1; FpWake false; FpUpdate]
    /\ fp_pending (fp_sync st') (fp_world st') = 0.
Proof.
  destruct (fetchParts errCancelBodyFetch
              (mkFp (newLightsync {["a" := peerA]}) (mkFetchSched 1 []) false false)
              [FpTick; FpUpdate; FpDelivery "a" 1; FpWake false; FpUpdate])
    as [[out st']|] eqn:Hrun; [|vm_compute in Hrun; discriminate].
  assert (Hout : out = Return None).
  { vm_compute in Hrun. injection Hrun as <- _. reflexivity. }
  subst out. exists st'. split; [reflexivity|].
  destruct (fetchParts_nil errCancelBodyFetch _ _ _ _ Hrun) as (Hw & _ & Hp & _).
  split; [exact Hw | exact Hp].
Defined.

Example fetchParts_run :
  option_map (fun r => (fst r, calls (fp_sync (snd r))))
    (fetchParts errCancelBodyFetch
       (mkFp (newLightsync {["a" := peerA]}) (mkFetchSched 1 []) false false)
       [FpTick; FpUpdate; FpDelivery "b" 1; FpDelivery "a" 1; FpDelivery "a" 1;
        FpWake false; FpUpdate])
  = Some (Return None, [CallSetIdle peerA 1]).
Proof. vm_compute. reflexivity. Qed.

(** ** The keep-alive loop of a slice *)

Lemma kl_start_fields st :
  kl_running (kl_start st) = true
  /\ kl_waiting (kl_start st) = kl_waiting st
  /\ kl_released (kl_start st) = kl_released st
  /\ (kl_started (kl_start st) + (if kl_running st then 1 else 0)
      = kl_started st + 1)%nat.
Proof.
  unfold kl_start. destruct (kl_running st) eqn:Hr; cbn; rewrite ?Hr;
    repeat split; lia.
Qed.

Lemma keepLiveLoop_inv : forall evs st0 st,
  keepLiveLoop st0 evs = Some st ->
  exists pre rest,
    evs = pre ++ KlCloseReq :: rest
    /\ (KlCloseReq ∉ pre)
    /\ kl_released st = kl_released st0 ++ kl_waiting st0 ++ kl_requests pre
    /\ (kl_started st + (if kl_running st0 then 1 else 0)
        = kl_started st0 + kl_completions pre + (if kl_running st then 1 else 0))%nat
    /\ (kl_started st0 <= kl_started st)%nat
    /\ ((kl_running st0 = true -> (1 <= kl_started st0)%nat) ->
        kl_requests pre <> [] -> (1 <= kl_started st)%nat)
    /\ ((kl_waiting st0 <> [] -> kl_running st0 = true) ->
        kl_waiting st <> [] -> kl_running st = true)
    /\ kl_netClosed st = true /\ kl_dbClosed st = true /\ kl_closed st = true.
Proof.
  induction evs as [|ev evs IH]; intros st0 st Hk; [discriminate|].
  cbn [keepLiveLoop] in Hk.
  destruct ev as [|req| |]; cbn [kl_step] in Hk.
  - destruct (IH _ _ Hk)
      as (pre & rest & -> & Hno & Hrel & Hst & Hmono & Hreq & Hwait & Hcl).
    destruct (kl_start_fields st0) as (Hr1 & Hw1 & Hl1 & Hs1).
    rewrite Hr1 in Hst. rewrite Hw1, Hl1 in Hrel.
    exists (KlTick :: pre), rest. split; [reflexivity|].
    split; [intros Hin; apply elem_of_cons in Hin as [Habs|Hin]; [discriminate | auto]|].
    split; [exact Hrel|].
    change (kl_completions (KlTick :: pre)) with (kl_completions pre).
    change (kl_requests (KlTick :: pre)) with (kl_requests pre).
    split; [destruct (kl_running st0); lia|]. split; [destruct (kl_running st0); lia|].
    split; [|split; [|exact Hcl]].
    + intros Hinv. apply Hreq. intros _. destruct (kl_running st0); [|lia].
      specialize (Hinv eq_refl). lia.
    + intros Hinv. apply Hwait. intros _. exact Hr1.
  - set (st1 := mkKl (kl_waiting st0 ++ [req]) (kl_running st0) (kl_started st0)
                  (kl_released st0) (kl_netClosed st0) (kl_dbClosed st0) (kl_closed st0))
      in *.
    destruct (IH _ _ Hk)
      as (pre & rest & -> & Hno & Hrel & Hst & Hmono & Hreq & Hwait & Hcl).
    destruct (kl_start_fields st1) as (Hr1 & Hw1 & Hl1 & Hs1).
    rewrite Hr1 in Hst. rewrite Hw1, Hl1 in Hrel. cbn [st1 kl_waiting kl_released] in Hrel.
    cbn [st1 kl_running kl_started] in Hs1.
    exists (KlRefresh req :: pre), rest. split; [reflexivity|].
    split; [intros Hin; apply elem_of_cons in Hin as [Habs|Hin]; [discriminate | auto]|].
    change (kl_completions (KlRefresh req :: pre)) with (kl_completions pre).
    change (kl_requests (KlRefresh req :: pre)) with (req :: kl_requests pre).
    split; [rewrite Hrel, <- !app_assoc; reflexivity|].
    split; [destruct (kl_running st0); lia|]. split; [destruct (kl_running st0); lia|].
    split; [|split; [|exact Hcl]].
    + intros Hinv _. destruct (kl_running st0); [|lia]. specialize (Hinv eq_refl). lia.
    + intros Hinv. apply Hwait. intros _. exact Hr1.
  - destruct (kl_running st0) eqn:Hr0; [|discriminate].
    destruct (IH _ _ Hk)
      as (pre & rest & -> & Hno & Hrel & Hst & Hmono & Hreq & Hwait & Hcl).
    cbn [kl_waiting kl_released kl_running kl_started] in Hrel, Hst, Hmono, Hreq, Hwait.
    exists (KlDone :: pre), rest. split; [reflexivity|].
    split; [intros Hin; apply elem_of_cons in Hin as [Habs|Hin]; [discriminate | auto]|].
    change (kl_completions (KlDone :: pre)) with (S (kl_completions pre)).
    change (kl_requests (KlDone :: pre)) with (kl_requests pre).
    split; [rewrite Hrel, <- app_assoc; reflexivity|].
    split; [lia|]. split; [exact Hmono|]. split; [|split; [|exact Hcl]].
    + intros Hinv. apply Hreq. discriminate.
    + intros Hinv. apply Hwait. intros Habs. contradiction.
  - injection Hk as <-. exists [], evs. split; [reflexivity|].
    split; [intros Hin; inversion Hin|].
    cbn [kl_shutdown kl_released kl_started kl_running kl_waiting
         kl_netClosed kl_dbClosed kl_closed kl_requests omap].
    change (kl_completions []) with 0%nat.
    split; [rewrite app_nil_r; reflexivity|]. split; [lia|]. split; [lia|].
    split; [intros _ Habs; contradiction|]. split; [tauto|].
    split; [reflexivity|]. split; reflexivity.
Qed.

(** X23. When [keepLiveLoop] returns, the close request has arrived; every
    caller whose refresh request was received before it has been released,
    exactly once and in the order of the requests; no [keepLive] was
    started while another one ran: one was started for each completion seen
    plus the one running at the close, and at least one if there was any
    request; [net], [db] and the [closed] channel are closed. *)
Theorem keepLiveLoop_spec evs st :
  keepLiveLoop kl_init evs = Some st ->
  exists pre rest,
    evs = pre ++ KlCloseReq :: rest
    /\ (KlCloseReq ∉ pre)
    /\ kl_released st = kl_requests pre
    /\ kl_started st = (kl_completions pre + (if kl_running st then 1 else 0))%nat
    /\ (kl_requests pre <> [] -> (1 <= kl_started st)%nat)
    /\ (kl_waiting st <> [] -> kl_running st = true)
    /\ kl_netClosed st = true /\ kl_dbClosed st = true /\ kl_closed st = true.
Proof.
  intros Hk.
  destruct (keepLiveLoop_inv _ _ _ Hk)
    as (pre & rest & -> & Hno & Hrel & Hst & _ & Hreq & Hwait & Hcl).
  cbn [kl_init kl_released kl_waiting kl_running kl_started app] in Hrel, Hst, Hreq, Hwait.
  exists pre, rest. split; [reflexivity|]. split; [exact Hno|].
  split; [exact Hrel|]. split; [lia|]. split; [|split; [|exact Hcl]].
  - apply Hreq. discriminate.
  - apply Hwait. intros Habs. contradiction.
Qed.

Lemma keepLiveLoop_spec_witness :
  exists pre rest,
    [KlRefresh 1; KlTick; KlRefresh 2; KlDone; KlRefresh 3; KlCloseReq; KlTick]
    = pre ++ KlCloseReq :: rest
    /\ (KlCloseReq ∉ pre)
    /\ [1; 2; 3]%nat = kl_requests pre
    /\ 2%nat = (kl_completions pre + 1)%nat
    /\ (kl_requests pre <> [] -> (1 <= 2)%nat)
    /\ ([3%nat] <> [] -> true = true)
    /\ true = true /\ true = true /\ true = true.
Proof.
  apply (keepLiveLoop_spec
           [KlRefresh 1; KlTick; KlRefresh 2; KlDone; KlRefresh 3; KlCloseReq; KlTick]
           (mkKl [3%nat] true 2 [1; 2; 3]%nat true true true)).
  vm_compute. reflexivity.
Defined.

(** ** [runStateSync]: no request is lost *)

Lemma active_ids_delete (m : gmap string stateReq) pid r :
  m !! pid = Some r ->
  sr_id r :: map sr_id (map_to_list (delete pid m)).*2 ≡ₚ map sr_id (map_to_list m).*2.
Proof.
  intros Hl. rewrite <- (map_to_list_delete m pid r Hl). reflexivity.
Qed.

Lemma active_ids_insert (m : gmap string stateReq) pid r :
  map sr_id (map_to_list (<[pid := r]> m)).*2
  ≡ₚ sr_id r :: map sr_id (map_to_list (delete pid m)).*2.
Proof.
  rewrite <- (insert_delete_eq m pid r).
  rewrite map_to_list_insert by apply lookup_delete_eq. reflexivity.
Qed.

Lemma ss_ids_move st pid r r' idl :
  ss_active st !! pid = Some r -> sr_id r' = sr_id r ->
  ss_ids (mkSs (delete pid (ss_active st)) (ss_finished st ++ [r']) (ss_delivered st) idl)
  ≡ₚ ss_ids st.
Proof.
  intros Hl Hid. unfold ss_ids. cbn [ss_active ss_finished ss_delivered].
  rewrite !map_app. apply Permutation_app_head. rewrite <- app_assoc.
  apply Permutation_app_head. cbn [map app]. rewrite Hid.
  apply active_ids_delete. exact Hl.
Qed.

Lemma ss_wf_delete st pid fin del idl :
  ss_wf st -> ss_wf (mkSs (delete pid (ss_active st)) fin del idl).
Proof.
  intros Hwf q r. cbn [ss_active]. intros Hl.
  apply lookup_delete_Some in Hl as [_ Hl]. exact (Hwf q r Hl).
Qed.

Lemma ss_step_ids st ev st' :
  ss_step st ev = Some (inl st') -> ss_wf st ->
  ss_wf st'
  /\ ss_idled st' = ss_idled st
  /\ ss_ids st' ≡ₚ ss_ids st ++ ss_tracked [ev].
Proof.
  intros Hs Hwf.
  destruct ev as [next| | |pid states|pid|req|req]; cbn [ss_step] in Hs;
    match goal with
    | |- context [ss_tracked [SsTrack ?r]] =>
        change (ss_tracked [SsTrack r]) with [sr_id r]
    | |- context [ss_tracked [?e]] => change (ss_tracked [e]) with (@nil nat)
    end; rewrite ?app_nil_r.
  - discriminate.
  - discriminate.
  - destruct (ss_finished st) as [|r rest] eqn:Hfin; [discriminate|].
    injection Hs as <-. split; [exact Hwf|]. split; [reflexivity|].
    unfold ss_ids. cbn [ss_active ss_finished ss_delivered]. rewrite Hfin.
    rewrite <- app_assoc. reflexivity.
  - destruct (ss_active st !! pid) as [r|] eqn:Hl.
    + injection Hs as <-. split; [apply ss_wf_delete; exact Hwf|].
      split; [reflexivity|]. eapply ss_ids_move; [exact Hl | reflexivity].
    + injection Hs as <-. split; [exact Hwf|]. split; reflexivity.
  - destruct (ss_active st !! pid) as [r|] eqn:Hl.
    + injection Hs as <-. split; [apply ss_wf_delete; exact Hwf|].
      split; [reflexivity|]. eapply ss_ids_move; [exact Hl | reflexivity].
    + injection Hs as <-. split; [exact Hwf|]. split; reflexivity.
  - destruct (ss_active st !! sr_peer req) as [cur|] eqn:Hl.
    + destruct (bool_decide (sr_id cur = sr_id req)).
      * injection Hs as <-. split; [apply ss_wf_delete; exact Hwf|].
        split; [reflexivity|]. eapply ss_ids_move; [exact Hl | reflexivity].
      * injection Hs as <-. split; [exact Hwf|]. split; reflexivity.
    + injection Hs as <-. split; [exact Hwf|]. split; reflexivity.
  - injection Hs as <-. split; [|split; [reflexivity|]].
    + intros q r. cbn [ss_active]. intros Hq.
      apply lookup_insert_Some in Hq as [[<- <-]|[_ Hq]]; [reflexivity|].
      exact (Hwf q r Hq).
    + unfold ss_ids. cbn [ss_active ss_finished ss_delivered].
      rewrite !map_app, <- !app_assoc. apply Permutation_app_head.
      rewrite active_ids_insert.
      destruct (ss_active st !! sr_peer req) as [old|] eqn:Hl.
      * rewrite map_app, <- app_assoc. apply Permutation_app_head. cbn [map app sr_id].
        rewrite <- (active_ids_delete _ _ _ Hl).
        rewrite <- (Permutation_cons_append (_ :: _) (sr_id req)).
        apply perm_swap.
      * rewrite delete_id by exact Hl. apply Permutation_app_head.
        apply Permutation_cons_append.
Qed.

Lemma ss_tracked_cons ev evs : ss_tracked (ev :: evs) = ss_tracked [ev] ++ ss_tracked evs.
Proof. unfold ss_tracked. cbn [omap]. destruct ev; reflexivity. Qed.

Lemma runStateSync_inv : forall evs st0 next st,
  runStateSync st0 evs = Some (next, st) -> ss_wf st0 ->
  ss_ids st ≡ₚ ss_ids st0 ++ ss_tracked (ss_processed evs)
  /\ ss_wf st
  /\ ss_idled st
     = ss_idled st0 ++ map (fun r => (sr_peer r, sr_items r)) (map_to_list (ss_active st)).*2
  /\ exists rest,
       evs = ss_processed evs
             ++ match next with Some n => SsStart n | None => SsDone end :: rest.
Proof.
  induction evs as [|ev evs IH]; intros st0 next st Hr Hwf; [discriminate|].
  cbn [runStateSync] in Hr.
  destruct (ss_step st0 ev) as [[st1|[n1 st1]]|] eqn:Hstep; [| |discriminate].
  - destruct (ss_step_ids _ _ _ Hstep Hwf) as (Hwf1 & Hidl1 & Hids1).
    destruct (IH _ _ _ Hr Hwf1) as (Hids & Hwf' & Hidl & rest & Hevs).
    assert (Hproc : ss_processed (ev :: evs) = ev :: ss_processed evs).
    { destruct ev; try reflexivity; discriminate. }
    rewrite Hproc. split; [|split; [exact Hwf'|split]].
    + rewrite Hids, Hids1, (ss_tracked_cons ev (ss_processed evs)), <- app_assoc.
      reflexivity.
    + rewrite Hidl, Hidl1. reflexivity.
    + exists rest. cbn [app]. f_equal. exact Hevs.
  - injection Hr as -> ->.
    destruct ev as [n| | |pid states|pid|req|req]; cbn [ss_step] in Hstep;
      try discriminate.
    + injection Hstep as <- <-. cbn [ss_processed].
      change (ss_tracked []) with (@nil nat). rewrite app_nil_r. split; [reflexivity|]. split; [exact Hwf|].
      split; [reflexivity|]. exists evs. reflexivity.
    + injection Hstep as <- <-. cbn [ss_processed].
      change (ss_tracked []) with (@nil nat). rewrite app_nil_r. split; [reflexivity|]. split; [exact Hwf|].
      split; [reflexivity|]. exists evs. reflexivity.
    + destruct (ss_finished st0); discriminate.
    + destruct (ss_active st0 !! pid); discriminate.
    + destruct (ss_active st0 !! pid); discriminate.
    + destruct (ss_active st0 !! sr_peer req) as [cur|]; [|discriminate].
      destruct (bool_decide (sr_id cur = sr_id req)); discriminate.
Qed.

(** X24. [runStateSync] loses no request: when it returns, the requests
    given to it to track are, one for one, those it sent on to the sync,
    those still queued as finished and those still active; each peer with
    an active request is set idle once, with the number of items of that
    request; and it returns on the first request to switch over, with that
    sync, or on the first end of the running sync, with nil. *)
Theorem runStateSync_conserves evs next st :
  runStateSync ss_init evs = Some (next, st) ->
  ss_ids st ≡ₚ ss_tracked (ss_processed evs)
  /\ ss_wf st
  /\ ss_idled st = map (fun r => (sr_peer r, sr_items r)) (map_to_list (ss_active st)).*2
  /\ NoDup (ss_idled st).*1
  /\ exists rest,
       evs = ss_processed evs
             ++ match next with Some n => SsStart n | None => SsDone end :: rest.
Proof.
  intros Hr.
  assert (Hwf0 : ss_wf ss_init).
  { intros pid r Hl. cbn in Hl. rewrite lookup_empty in Hl. discriminate. }
  destruct (runStateSync_inv _ _ _ _ Hr Hwf0) as (Hids & Hwf & Hidl & Hrest).
  split; [exact Hids|]. split; [exact Hwf|]. split; [exact Hidl|]. split; [|exact Hrest].
  rewrite Hidl. cbn [ss_init ss_idled app].
  assert (Heq : (map (fun r => (sr_peer r, sr_items r)) (map_to_list (ss_active st)).*2).*1
                = (map_to_list (ss_active st)).*1).
  { rewrite <- !list_fmap_compose. apply list_fmap_ext. intros i [pid r] Hin. cbn.
    apply list_elem_of_lookup_2 in Hin. apply elem_of_map_to_list in Hin.
    exact (Hwf pid r Hin). }
  rewrite Heq. apply NoDup_fst_map_to_list.
Qed.

Lemma runStateSync_conserves_witness :
  let a := mkStateReq 1 "a" 5 None false in
  let a' := mkStateReq 2 "a" 7 None false in
  let b := mkStateReq 3 "b" 4 None false in
  let evs := [SsTrack a; SsTrack b; SsPack "b" [9]; SsTrack a'; SsDeliver;
              SsTimeout a; SsStart 8; SsDone] in
  exists st,
    runStateSync ss_init evs = Some (Some 8%nat, st)
    /\ ss_ids st ≡ₚ ss_tracked (ss_processed evs)
    /\ ss_idled st = [("a", 7)].
Proof.
  cbv zeta.
  destruct (runStateSync ss_init
              [SsTrack (mkStateReq 1 "a" 5 None false);
               SsTrack (mkStateReq 3 "b" 4 None false); SsPack "b" [9];
               SsTrack (mkStateReq 2 "a" 7 None false); SsDeliver;
               SsTimeout (mkStateReq 1 "a" 5 None false); SsStart 8; SsDone])
    as [[next st]|] eqn:Hrun; [|vm_compute in Hrun; discriminate].
  assert (Hnext : next = Some 8%nat /\ ss_idled st = [("a", 7)]).
  { vm_compute in Hrun. injection Hrun as <- <-. split; reflexivity. }
  destruct Hnext as [-> Hidl]. exists st. split; [reflexivity|].
  split; [|exact Hidl].
  exact (proj1 (runStateSync_conserves _ _ _ Hrun)).
Defined.

(** ** [fetchHeaders] *)

Lemma fh_total_snoc batches (b : list Header) :
  fh_total (batches ++ [b]) = fh_total batches + len b.
Proof.
  unfold fh_total, len. rewrite concat_app, length_app. cbn [concat].
  rewrite app_nil_r. lia.
Qed.

Lemma u64_add_l a b : u64 (u64 a + b) = u64 (a + b).
Proof. unfold u64. apply Zplus_mod_idemp_l. Qed.

Lemma u64_add_r a b : u64 (a + u64 b) = u64 (a + b).
Proof. unfold u64. apply Zplus_mod_idemp_r. Qed.

Lemma fh_extends_refl quiet s : fh_extends quiet s s.
Proof.
  split; [reflexivity|]. exists []. rewrite app_nil_r. split; [reflexivity | constructor].
Qed.

Lemma fh_extends_trans quiet a b c :
  fh_extends quiet a b -> fh_extends quiet b c -> fh_extends quiet a c.
Proof.
  intros [Hp1 (n1 & Hc1 & Hok1)] [Hp2 (n2 & Hc2 & Hok2)]. split; [congruence|].
  exists (n1 ++ n2). split.
  - rewrite Hc2, Hc1, app_assoc. reflexivity.
  - apply Forall_app. split; [exact Hok1|]. rewrite Hp1 in Hok2. exact Hok2.
Qed.

Section FetchHeaders.
Context `{HeaderSched W}.

(** What a skeleton fill does to the synchroniser. *)
Lemma fillHeaderSkeleton_extends (quiet : Prop) s (w : W) from skeleton inner r :
  fillHeaderSkeleton s w from skeleton inner = Some r ->
  (quiet -> FpUpdate ∉ inner) ->
  fh_extends quiet s
    match r with FillReturn _ _ _ s1 _ => s1 | FillPanic s1 _ => s1 end.
Proof.
  unfold fillHeaderSkeleton. cbv zeta. intros Hr Hq.
  destruct (@fetchParts W header_env errCancelHeaderFetch
              (mkFp s (ScheduleSkeleton w from skeleton) false false) inner)
    as [[out st]|] eqn:Hf; [|discriminate].
  assert (Hext : fh_extends quiet s (fp_sync st)).
  { destruct (@fetchParts_extends W header_env _ _ _ _ _ Hf) as [Hp (new & Hc & Hok)].
    cbn [fp_sync] in Hp, Hc, Hok. split; [exact Hp|]. exists new. split; [exact Hc|].
    apply Forall_forall. intros c Hin. split.
    - rewrite Forall_forall in Hok. exact (Hok c Hin).
    - intros Hquiet pid ->.
      destruct (@fetchParts_no_update W header_env _ _ _ _ _ (Hq Hquiet) Hf)
        as (new' & Hc' & Hidle).
      cbn [fp_sync] in Hc'. rewrite Hc in Hc'. apply app_inv_head in Hc'. subst new'.
      rewrite Forall_forall in Hidle. exact (Hidle _ Hin pid eq_refl). }
  destruct out as [err|].
  - destruct (RetrieveHeaders (fp_world st)) as [[filled proced] w2].
    injection Hr as <-. exact Hext.
  - injection Hr as <-. exact Hext.
Qed.

Lemma getHeaders_inv quiet s from0 (st : fhState W) :
  fh_from st = u64 (from0 + fh_proced st + fh_total (fh_forwarded st)) ->
  fh_extends quiet s (fh_sync st) ->
  Forall (fun b => b <> []) (fh_forwarded st) ->
  fh_inv quiet s from0 (getHeaders st).
Proof.
  intros Hf Hs Hb. unfold fh_inv, getHeaders, fh_request.
  cbn [fh_from fh_proced fh_forwarded fh_sync fh_requests fh_skeleton].
  split; [exact Hf|]. split; [exact Hs|]. split; [exact Hb|].
  rewrite last_snoc. reflexivity.
Qed.

(** What the skeleton branch leaves. *)
Lemma fh_fill_inv quiet s from0 (st : fhState W) headers inner r :
  fh_fill st headers inner = Some r ->
  (quiet -> FpUpdate ∉ inner) ->
  fh_from st = u64 (from0 + fh_proced st + fh_total (fh_forwarded st)) ->
  fh_extends quiet s (fh_sync st) ->
  match r with
  | inl (hs, st1) =>
      fh_from st1 = u64 (from0 + fh_proced st1 + fh_total (fh_forwarded st1))
      /\ fh_extends quiet s (fh_sync st1)
      /\ fh_forwarded st1 = fh_forwarded st
      /\ fh_requests st1 = fh_requests st
      /\ fh_skeleton st1 = fh_skeleton st
  | inr (out, st1) =>
      (out = Return (Some errInvalidChain) \/ out = Panic)
      /\ fh_from st1 = u64 (from0 + fh_proced st1 + fh_total (fh_forwarded st1))
      /\ fh_extends quiet s (fh_sync st1)
  end.
Proof.
  unfold fh_fill. intros Hr Hq Hfrom Hext.
  destruct (fillHeaderSkeleton (fh_sync st) (fh_world st) (fh_from st) headers inner)
    as [fr|] eqn:Hfill; [|discriminate].
  pose proof (fillHeaderSkeleton_extends quiet _ _ _ _ _ _ Hfill Hq) as Hfe.
  destruct fr as [filled proced err s1 w1|s1 w1].
  - assert (Hext1 : fh_extends quiet s s1) by (eapply fh_extends_trans; eassumption).
    cbv zeta in Hr. destruct err as [e|].
    { injection Hr as <-. cbn [fh_from fh_proced fh_forwarded fh_sync]. auto. }
    destruct ((proced <? 0) || (proced >? len filled)).
    { injection Hr as <-. cbn [fh_from fh_proced fh_forwarded fh_sync]. auto. }
    injection Hr as <-.
    cbn [fh_from fh_proced fh_forwarded fh_sync fh_requests fh_skeleton].
    split; [|auto].
    rewrite Hfrom, u64_add_r, u64_add_l. f_equal. lia.
  - assert (Hext1 : fh_extends quiet s s1) by (eapply fh_extends_trans; eassumption).
    injection Hr as <-. cbn [fh_from fh_proced fh_forwarded fh_sync]. auto.
Qed.

Lemma fh_fill_shape (st : fhState W) headers inner r :
  fh_fill st headers inner = Some r ->
  match r with
  | inl (_, st1) => fh_skeleton st1 = fh_skeleton st
  | inr (o, _) => o <> Return None
  end.
Proof.
  unfold fh_fill. intros Hr.
  destruct (fillHeaderSkeleton _ _ _ _ _) as [[filled proced err s1 w1|s1 w1]|];
    [| |discriminate].
  - cbv zeta in Hr. destruct err; [injection Hr as <-; discriminate|].
    destruct ((proced <? 0) || (proced >? len filled)); injection Hr as <-;
      [discriminate | reflexivity].
  - injection Hr as <-. discriminate.
Qed.

Lemma fetchHeaders_loop_inv (quiet : Prop) p s from0 : forall evs (st : fhState W) out st',
  fetchHeaders_loop p st evs = Some (out, st') ->
  (quiet -> Forall fh_no_update evs) ->
  fh_inv quiet s from0 st ->
  fh_from st' = u64 (from0 + fh_proced st' + fh_total (fh_forwarded st'))
  /\ (out = Return None \/ out = Return (Some errCancelHeaderFetch)
      \/ out = Return (Some errInvalidChain) \/ out = Return (Some errBadPeer)
      \/ out = Panic)
  /\ (exists s1, fh_extends quiet s s1
        /\ (out = Return (Some errBadPeer) -> fh_sync st' = dropPeer (id p) s1)
        /\ (out <> Return (Some errBadPeer) -> fh_sync st' = s1))
  /\ (out = Return None ->
      fh_skeleton st' = false
      /\ (exists batches, fh_forwarded st' = batches ++ [[]]
                          /\ Forall (fun b => b <> []) batches)
      /\ last (fh_requests st') = Some (mkHeaderRequest (fh_from st') MaxHeaderFetch 0)).
Proof.
  induction evs as [|ev evs IH];
    intros st out st' Hl Hq (Hfrom & Hsync & Hbatches & Hreq); [discriminate|].
  assert (Hq' : quiet -> Forall fh_no_update evs).
  { intros Hquiet. specialize (Hq Hquiet). inversion Hq; assumption. }
  assert (Hkeep : forall o, o <> Return (Some errBadPeer) ->
            exists s1, fh_extends quiet s s1
              /\ (o = Return (Some errBadPeer) -> fh_sync st = dropPeer (id p) s1)
              /\ (o <> Return (Some errBadPeer) -> fh_sync st = s1)).
  { intros o Ho. exists (fh_sync st). split; [exact Hsync|].
    split; [intros Habs; contradiction | reflexivity]. }
  destruct ev as [|pid headers inner|]; cbn [fetchHeaders_loop] in Hl.
  - injection Hl as <- <-. split; [exact Hfrom|]. split; [auto|].
    split; [apply Hkeep; discriminate|]. discriminate.
  - destruct (bool_decide (pid ≠ id p)).
    { apply (IH _ _ _ Hl Hq'). exact (conj Hfrom (conj Hsync (conj Hbatches Hreq))). }
    destruct (Z.eqb_spec (len headers) 0) as [Hz|Hnz]; cbn [andb] in Hl.
    + destruct (fh_skeleton st) eqn:Hsk.
      * apply (IH _ _ _ Hl Hq'). apply getHeaders_inv; assumption.
      * destruct (fh_send_ok evs).
        -- injection Hl as <- <-. unfold fh_forward.
           cbn [fh_from fh_proced fh_forwarded fh_sync fh_skeleton fh_requests].
           rewrite fh_total_snoc. change (len []) with 0. rewrite Z.add_0_r.
           split; [exact Hfrom|]. split; [auto|].
           split; [apply Hkeep; discriminate|].
           intros _. split; [exact Hsk|].
           split; [exists (fh_forwarded st); split; [reflexivity | exact Hbatches]|].
           rewrite Hreq. unfold fh_request. rewrite Hsk. reflexivity.
        -- injection Hl as <- <-. split; [exact Hfrom|]. split; [auto|].
           split; [apply Hkeep; discriminate|]. discriminate.
    + assert (Hqi : quiet -> FpUpdate ∉ inner).
      { intros Hquiet. specialize (Hq Hquiet). inversion Hq; assumption. }
      assert (Hstep : exists r,
                (if fh_skeleton st then fh_fill st headers inner
                 else Some (inl (headers, st))) = Some r
                /\ match r with
                   | inl (hs, st1) =>
                       fh_from st1
                       = u64 (from0 + fh_proced st1 + fh_total (fh_forwarded st1))
                       /\ fh_extends quiet s (fh_sync st1)
                       /\ fh_forwarded st1 = fh_forwarded st
                       /\ fh_requests st1 = fh_requests st
                       /\ fh_skeleton st1 = fh_skeleton st
                   | inr (o, st1) =>
                       (o = Return (Some errInvalidChain) \/ o = Panic)
                       /\ fh_from st1
                          = u64 (from0 + fh_proced st1 + fh_total (fh_forwarded st1))
                       /\ fh_extends quiet s (fh_sync st1)
                   end).
      { destruct (fh_skeleton st) eqn:Hsk0.
        - destruct (fh_fill st headers inner) as [r|] eqn:Hfill; [|discriminate].
          exists r. split; [reflexivity|].
          pose proof (fh_fill_inv quiet s from0 st headers inner r Hfill Hqi Hfrom Hsync)
            as Hi.
          rewrite Hsk0 in Hi. exact Hi.
        - eexists. split; [reflexivity|]. cbn beta iota. auto. }
      destruct Hstep as (r & Hr & Hspec). rewrite Hr in Hl.
      destruct r as [[hs st1]|[o st1]].
      * destruct Hspec as (Hfrom1 & Hext1 & Hfw1 & Hrq1 & Hsk1).
        destruct (Z.gtb_spec (len hs) 0) as [Hpos|Hnone].
        -- destruct (fh_send_ok evs).
           ++ apply (IH _ _ _ Hl Hq'). apply getHeaders_inv.
              ** unfold fh_forward. cbn [fh_from fh_proced fh_forwarded].
                 rewrite fh_total_snoc, Hfrom1, u64_add_l. f_equal. lia.
              ** exact Hext1.
              ** unfold fh_forward. cbn [fh_forwarded]. apply Forall_app.
                 split; [rewrite Hfw1; exact Hbatches|]. constructor; [|constructor].
                 intros Hnil. rewrite Hnil in Hpos. unfold len in Hpos. cbn in Hpos. lia.
           ++ injection Hl as <- <-. split; [exact Hfrom1|]. split; [auto|].
              split; [|discriminate].
              exists (fh_sync st1). split; [exact Hext1|].
              split; [discriminate | reflexivity].
        -- apply (IH _ _ _ Hl Hq'). apply getHeaders_inv;
             [exact Hfrom1 | exact Hext1 | rewrite Hfw1; exact Hbatches].
      * destruct Hspec as (Ho & Hfrom1 & Hext1). injection Hl as <- <-.
        split; [exact Hfrom1|]. split; [destruct Ho as [->| ->]; auto 6|].
        split; [|destruct Ho as [->| ->]; discriminate].
        exists (fh_sync st1). split; [exact Hext1|].
        split; [destruct Ho as [->| ->]; discriminate | reflexivity].
  - injection Hl as <- <-.
    assert (Hgoal : forall st1 : fhState W,
              fh_from st1 = fh_from st -> fh_proced st1 = fh_proced st ->
              fh_total (fh_forwarded st1) = fh_total (fh_forwarded st) ->
              fh_sync st1 = dropPeer (id p) (fh_sync st) ->
              fh_from st1 = u64 (from0 + fh_proced st1 + fh_total (fh_forwarded st1))
              /\ (Return (Some errBadPeer) = Return None
                  \/ Return (Some errBadPeer) = Return (Some errCancelHeaderFetch)
                  \/ Return (Some errBadPeer) = Return (Some errInvalidChain)
                  \/ Return (Some errBadPeer) = Return (Some errBadPeer)
                  \/ Return (Some errBadPeer) = Panic)
              /\ (exists s1, fh_extends quiet s s1
                    /\ (Return (Some errBadPeer) = Return (Some errBadPeer) ->
                        fh_sync st1 = dropPeer (id p) s1)
                    /\ (Return (Some errBadPeer) <> Return (Some errBadPeer) ->
                        fh_sync st1 = s1))
              /\ (Return (Some errBadPeer) = Return None ->
                  fh_skeleton st1 = false
                  /\ (exists batches, fh_forwarded st1 = batches ++ [[]]
                                      /\ Forall (fun b => b <> []) batches)
                  /\ last (fh_requests st1)
                     = Some (mkHeaderRequest (fh_from st1) MaxHeaderFetch 0))).
    { intros st1 H1 H2 H3 H4. rewrite H1, H2, H3. split; [exact Hfrom|].
      split; [auto 6|]. split; [|discriminate].
      exists (fh_sync st). split; [exact Hsync|].
      split; [intros _; exact H4 | intros Habs; contradiction]. }
    destruct (fh_send_ok evs); apply Hgoal; try reflexivity.
    unfold fh_forward. cbn [fh_forwarded]. rewrite fh_total_snoc.
    change (len []) with 0. lia.
Qed.

Lemma fetchHeaders_init_inv quiet s (w : W) from :
  0 <= from < 2 ^ 64 ->
  fh_inv quiet s from (getHeaders (mkFh true from s w [] [] 0)).
Proof.
  intros Hfrom. apply getHeaders_inv; cbn [fh_from fh_proced fh_forwarded fh_sync].
  - change (fh_total []) with 0. rewrite !Z.add_0_r. symmetry. apply u64_small.
    exact Hfrom.
  - apply fh_extends_refl.
  - constructor.
Qed.

(** X25. However [fetchHeaders] ends, [from] stands at the origin advanced by
    the headers accounted for, those that [fillHeaderSkeleton] forwarded and
    those put on [headerProcCh], modulo 2^64; it ends with nil,
    [errCancelHeaderFetch], [errInvalidChain], [errBadPeer] or a panic.
    The callbacks invoked are those of the skeleton fills, each for a peer
    found in the registry and none of them [dropPeer] when no fill makes
    an update pass, followed by [dropPeer] for the origin peer exactly
    when [fetchHeaders] ends with [errBadPeer]. *)
Theorem fetchHeaders_accounting s (w : W) p from evs out st' :
  0 <= from < 2 ^ 64 ->
  fetchHeaders s w p from evs = Some (out, st') ->
  fh_from st' = u64 (from + fh_proced st' + fh_total (fh_forwarded st'))
  /\ (out = Return None \/ out = Return (Some errCancelHeaderFetch)
      \/ out = Return (Some errInvalidChain) \/ out = Return (Some errBadPeer)
      \/ out = Panic)
  /\ exists fills,
       Forall (fp_call_ok (peers s)) fills
       /\ (Forall fh_no_update evs -> forall pid, CallDropPeer pid ∉ fills)
       /\ (out = Return (Some errBadPeer) ->
           calls (fh_sync st') = calls s ++ fills ++ [CallDropPeer (id p)])
       /\ (out <> Return (Some errBadPeer) -> calls (fh_sync st') = calls s ++ fills).
Proof.
  intros Hfrom Hf. unfold fetchHeaders in Hf.
  destruct (fetchHeaders_loop_inv (Forall fh_no_update evs) p s from evs _ _ _ Hf
              (fun Hq => Hq) (fetchHeaders_init_inv _ s w from Hfrom))
    as (H1 & H2 & (s1 & [_ (fills & Hc & Hok)] & Hbad & Hgood) & _).
  split; [exact H1|]. split; [exact H2|].
  exists fills. split; [|split; [|split]].
  - apply Forall_forall. intros c Hin. rewrite Forall_forall in Hok.
    exact (proj1 (Hok c Hin)).
  - intros Hq pid Hin. rewrite Forall_forall in Hok.
    exact (proj2 (Hok _ Hin) Hq pid eq_refl).
  - intros Ho. rewrite (Hbad Ho). cbn [dropPeer calls]. rewrite Hc, app_assoc.
    reflexivity.
  - intros Ho. rewrite (Hgood Ho). exact Hc.
Qed.

Lemma fetchHeaders_loop_replies p : forall evs (st st1 : fhState W),
  fetchHeaders_loop p st evs = Some (Return None, st1) ->
  ((if fh_skeleton st then 2 else 1)
   <= length (List.filter (fh_empty_reply p) evs))%nat.
Proof.
  induction evs as [|ev evs IH]; intros st st1 Hl; [discriminate|].
  destruct ev as [|pid headers inner|]; cbn [fetchHeaders_loop] in Hl; try discriminate.
  cbn [List.filter fh_empty_reply].
  destruct (decide (pid = id p)) as [->|Hne].
  - rewrite bool_decide_eq_false_2 in Hl by (intros Hn; apply Hn; reflexivity).
    destruct headers as [|h hs].
    + rewrite bool_decide_eq_true_2 by reflexivity. cbn [length].
      change (len [] =? 0) with true in Hl. cbn [andb] in Hl.
      destruct (fh_skeleton st); [|lia].
      apply IH in Hl. cbn [getHeaders fh_skeleton] in Hl. lia.
    + assert (Hnz : (len (h :: hs) =? 0) = false).
      { unfold len. cbn [length]. apply Z.eqb_neq. lia. }
      rewrite Hnz in Hl. cbn [andb] in Hl.
      assert (Hstep : exists r,
                (if fh_skeleton st then fh_fill st (h :: hs) inner
                 else Some (inl (h :: hs, st))) = Some r
                /\ match r with
                   | inl (_, st2) => fh_skeleton st2 = fh_skeleton st
                   | inr (o, _) => o <> Return None
                   end).
      { destruct (fh_skeleton st) eqn:Hs.
        - destruct (fh_fill st (h :: hs) inner) as [r|] eqn:Hr; [|discriminate].
          exists r. split; [reflexivity|].
          pose proof (fh_fill_shape st (h :: hs) inner r Hr) as Hi.
          rewrite Hs in Hi. exact Hi.
        - eexists. split; [reflexivity|]. exact Hs. }
      destruct Hstep as (r & Hr & Hsk). rewrite Hr in Hl.
      destruct r as [[hs1 st2]|[o st2]];
        [|injection Hl as -> _; exfalso; apply Hsk; reflexivity].
      destruct (len hs1 >? 0).
      * destruct (fh_send_ok evs); [|discriminate].
        apply IH in Hl. cbn [getHeaders fh_skeleton fh_forward] in Hl.
        rewrite Hsk in Hl. exact Hl.
      * apply IH in Hl. cbn [getHeaders fh_skeleton] in Hl.
        rewrite Hsk in Hl. exact Hl.
  - rewrite bool_decide_eq_true_2 in Hl by exact Hne.
    assert (Hfalse : (match headers with
                      | [] => bool_decide (pid = id p)
                      | _ :: _ => false
                      end) = false).
    { destruct headers; [apply bool_decide_eq_false_2; exact Hne | reflexivity]. }
    rewrite Hfalse. apply IH in Hl. exact Hl.
Qed.

(** X26. [fetchHeaders] returns nil only after the origin peer has answered
    two requests with no headers, the skeleton request and then the direct
    one: the skeleton phase is over, the last request sent is the direct
    request for the headers from [from] on, and the last thing put on
    [headerProcCh] is nil, after batches that all hold headers.  The
    callbacks invoked are those of the skeleton fills, each for a peer
    found in the registry: no peer was dropped unless a fill made an
    update pass. *)
Theorem fetchHeaders_nil s (w : W) p from evs st' :
  0 <= from < 2 ^ 64 ->
  fetchHeaders s w p from evs = Some (Return None, st') ->
  fh_skeleton st' = false
  /\ (exists batches, fh_forwarded st' = batches ++ [[]]
                      /\ Forall (fun b => b <> []) batches)
  /\ last (fh_requests st') = Some (mkHeaderRequest (fh_from st') MaxHeaderFetch 0)
  /\ (exists fills, calls (fh_sync st') = calls s ++ fills
        /\ Forall (fp_call_ok (peers s)) fills
        /\ (Forall fh_no_update evs -> forall pid, CallDropPeer pid ∉ fills))
  /\ (2 <= length (List.filter (fh_empty_reply p) evs))%nat.
Proof.
  intros Hfrom Hf. unfold fetchHeaders in Hf.
  destruct (fetchHeaders_loop_inv (Forall fh_no_update evs) p s from evs _ _ _ Hf
              (fun Hq => Hq) (fetchHeaders_init_inv _ s w from Hfrom))
    as (_ & _ & (s1 & [_ (fills & Hc & Hok)] & _ & Hgood) & H5).
  destruct (H5 eq_refl) as (Hsk & Hb & Hr).
  split; [exact Hsk|]. split; [exact Hb|]. split; [exact Hr|]. split.
  - exists fills. split; [rewrite Hgood by discriminate; exact Hc|]. split.
    + apply Forall_forall. intros c Hin. rewrite Forall_forall in Hok.
      exact (proj1 (Hok c Hin)).
    + intros Hq pid Hin. rewrite Forall_forall in Hok.
      exact (proj2 (Hok _ Hin) Hq pid eq_refl).
  - apply fetchHeaders_loop_replies in Hf. cbn [getHeaders fh_skeleton] in Hf. exact Hf.
Qed.
End FetchHeaders.

Lemma fetchHeaders_accounting_witness :
  let s := newLightsync {["a" := peerA]} in
  exists st',
    fetchHeaders s (mkSkelSched [] [("a", 1)]) peerA 1
      [FhHeaders "b" [] []; FhHeaders "a" (mk_headers 1 1 2) [FpWake false; FpUpdate];
       FhTimeout]
    = Some (Return (Some errBadPeer), st')
    /\ fh_from st' = u64 (1 + fh_proced st' + fh_total (fh_forwarded st'))
    /\ exists fills,
         Forall (fp_call_ok (peers s)) fills
         /\ calls (fh_sync st') = calls s ++ fills ++ [CallDropPeer (id peerA)].
Proof.
  cbv zeta.
  destruct (fetchHeaders (newLightsync {["a" := peerA]}) (mkSkelSched [] [("a", 1)]) peerA 1
              [FhHeaders "b" [] []; FhHeaders "a" (mk_headers 1 1 2) [FpWake false; FpUpdate];
               FhTimeout])
    as [[out st']|] eqn:Hrun; [|vm_compute in Hrun; discriminate].
  assert (Hout : out = Return (Some errBadPeer)).
  { vm_compute in Hrun. injection Hrun as <- _. reflexivity. }
  subst out. exists st'. split; [reflexivity|].
  destruct (fetchHeaders_accounting (newLightsync {["a" := peerA]}) _ peerA 1 _ _ _
              ltac:(vm_compute; split; [discriminate | reflexivity]) Hrun)
    as (H1 & _ & fills & Hok & _ & Hbad & _).
  split; [exact H1|]. exists fills. split; [exact Hok | exact (Hbad eq_refl)].
Defined.

Lemma fetchHeaders_nil_witness :
  let s := newLightsync {["a" := peerA]} in
  exists st',
    fetchHeaders s (mkSkelSched [] []) peerA 1
      [FhHeaders "b" [] []; FhHeaders "a" (mk_headers 1 1 2) [FpWake false; FpUpdate];
       FhHeaders "a" [] []; FhHeaders "a" (mk_headers 3 1 1) []; FhHeaders "a" [] []]
    = Some (Return None, st')
    /\ fh_skeleton st' = false
    /\ last (fh_requests st') = Some (mkHeaderRequest (fh_from st') MaxHeaderFetch 0)
    /\ exists fills, calls (fh_sync st') = calls s ++ fills
         /\ Forall (fp_call_ok (peers s)) fills.
Proof.
  cbv zeta.
  destruct (fetchHeaders (newLightsync {["a" := peerA]}) (mkSkelSched [] []) peerA 1
              [FhHeaders "b" [] []; FhHeaders "a" (mk_headers 1 1 2) [FpWake false; FpUpdate];
               FhHeaders "a" [] []; FhHeaders "a" (mk_headers 3 1 1) []; FhHeaders "a" [] []])
    as [[out st']|] eqn:Hrun; [|vm_compute in Hrun; discriminate].
  assert (Hout : out = Return None).
  { vm_compute in Hrun. injection Hrun as <- _. reflexivity. }
  subst out. exists st'. split; [reflexivity|].
  destruct (fetchHeaders_nil (newLightsync {["a" := peerA]}) _ peerA 1 _ _
              ltac:(vm_compute; split; [discriminate | reflexivity]) Hrun)
    as (H1 & _ & H3 & (fills & Hc & Hok & _) & _).
  split; [exact H1|]. split; [exact H3|]. exists fills. split; [exact Hc | exact Hok].
Defined.

(** A run that ends with nil: the skeleton is filled and forwarded, the
    rest is fetched directly.  The fill makes an update pass in which a
    request of the origin peer has expired, and drops the peer. *)
Example fetchHeaders_run :
  option_map
    (fun r => (fst r, fh_from (snd r), map (map Number) (fh_forwarded (snd r)),
               fh_requests (snd r), calls (fh_sync (snd r))))
    (fetchHeaders (newLightsync {["a" := peerA]}) (mkSkelSched [] [("a", 1)]) peerA 1
       [FhHeaders "a" (mk_headers 1 1 2) [FpWake false; FpUpdate]; FhHeaders "a" [] [];
        FhHeaders "a" (mk_headers 3 1 1) []; FhHeaders "a" [] []])
  = Some (Return None, 4, [[1; 2]; [3]; []],
          [mkHeaderRequest 192 128 191; mkHeaderRequest 194 128 191;
           mkHeaderRequest 3 192 0; mkHeaderRequest 4 192 0],
          [CallDropPeer "a"]).
Proof. vm_compute. reflexivity. Qed.

(** A cancellation that reaches the skeleton fill ends [fetchHeaders]
    with [errInvalidChain]. *)
Example fetchHeaders_fill_cancelled :
  option_map
    (fun r => (fst r, fh_from (snd r), calls (fh_sync (snd r))))
    (fetchHeaders (newLightsync {["a" := peerA]}) (mkSkelSched [] [("a", 3)]) peerA 1
       [FhHeaders "a" (mk_headers 1 1 2) [FpTick; FpUpdate; FpCancel]])
  = Some (Return (Some errInvalidChain), 1, [CallSetIdle peerA 0]).
Proof. vm_compute. reflexivity. Qed.

(** ** Snapshots in the database *)

Lemma be_bytes_inj n : forall z z',
  be_bytes n z = be_bytes n z' -> z mod 256 ^ Z.of_nat n = z' mod 256 ^ Z.of_nat n.
Proof.
  induction n as [|k IH]; intros z z' Hb.
  - change (256 ^ Z.of_nat 0) with 1. rewrite !Z.mod_1_r. reflexivity.
  - cbn [be_bytes] in Hb. injection Hb as Ha Hs.
    assert (Hpow : 0 < 256 ^ Z.of_nat k) by (apply Z.pow_pos_nonneg; lia).
    replace (Z.of_nat (S k)) with (Z.of_nat k + 1) by lia.
    rewrite Z.pow_add_r by lia. change (256 ^ 1) with 256.
    rewrite !(Z.rem_mul_r _ (256 ^ Z.of_nat k) 256) by lia.
    rewrite (IH _ _ Hs). f_equal. f_equal.
    pose proof (Z.mod_pos_bound (z / 256 ^ Z.of_nat k) 256 eq_refl) as Hx.
    pose proof (Z.mod_pos_bound (z' / 256 ^ Z.of_nat k) 256 eq_refl) as Hx'.
    apply (f_equal Ascii.N_of_ascii) in Ha.
    rewrite !Ascii.N_ascii_embedding in Ha by lia. lia.
Qed.

Lemma hash_bytes_inj h h' :
  0 <= h < 2 ^ 256 -> 0 <= h' < 2 ^ 256 -> hash_bytes h = hash_bytes h' -> h = h'.
Proof.
  intros Hh Hh' Hb. apply be_bytes_inj in Hb.
  change (256 ^ Z.of_nat 32) with (2 ^ 256) in Hb.
  rewrite !Z.mod_small in Hb by assumption. exact Hb.
Qed.

Lemma string_app_inv_head (p x y : string) : p +:+ x = p +:+ y -> x = y.
Proof.
  induction p as [|a p IH]; cbn; [auto|]. intros [= Hp]. exact (IH Hp).
Qed.

Lemma snapshot_keys_apart x y : "cannodesnap-" +:+ x <> "comnodesnap-" +:+ y.
Proof. cbn. discriminate. Qed.

Lemma MemDb_lawful : db_lawful (gmap string string).
Proof.
  intros db db' key blob. cbn. intros [= <-]. split.
  - rewrite lookup_insert_eq. reflexivity.
  - intros key' Hne. rewrite lookup_insert_ne by (intros E; apply Hne; symmetry; exact E).
    reflexivity.
Qed.

Section Snapshots.
Context `{Database D}.

(** X27. On a database whose successful [Put] stores the value and leaves
    the other keys alone, with JSON codecs that read back what they write:
    a snapshot that [Store] has written is what the matching [Load] reads
    back under the snapshot's hash, and storing a snapshot of one kind
    leaves every snapshot of the other kind, and the snapshots of its own
    kind under other hashes, as they were.  A [Store] that fails has
    either failed in [json.Marshal], and then the database was not
    called, or it returns the error of [Put], with the database as [Put]
    has left it. *)
Theorem snapshot_store_load jc jm (s : CanNodeSnap) (c : ComNodeSnap) (db : D) :
  db_lawful D -> json_faithful jc -> json_faithful jm ->
  (forall db', CanNodeSnap_Store jc s db = (None, db') ->
     LoadCanNodeSnap jc db' (can_Hash s) = inl s
     /\ (forall h, LoadComNodeSnap jm db' h = LoadComNodeSnap jm db h)
     /\ (forall h, 0 <= h < 2 ^ 256 -> 0 <= can_Hash s < 2 ^ 256 -> h <> can_Hash s ->
           LoadCanNodeSnap jc db' h = LoadCanNodeSnap jc db h))
  /\ (forall db', ComNodeSnap_Store jm c db = (None, db') ->
        LoadComNodeSnap jm db' (com_Hash c) = inl c
        /\ (forall h, LoadCanNodeSnap jc db' h = LoadCanNodeSnap jc db h)
        /\ (forall h, 0 <= h < 2 ^ 256 -> 0 <= com_Hash c < 2 ^ 256 -> h <> com_Hash c ->
              LoadComNodeSnap jm db' h = LoadComNodeSnap jm db h))
  /\ (forall e db', CanNodeSnap_Store jc s db = (Some e, db') ->
        (json_Marshal jc s = None /\ e = errJSON /\ db' = db)
        \/ exists blob, json_Marshal jc s = Some blob
             /\ db_Put db ("cannodesnap-" +:+ hash_bytes (can_Hash s)) blob = (Some e, db'))
  /\ (forall e db', ComNodeSnap_Store jm c db = (Some e, db') ->
        (json_Marshal jm c = None /\ e = errJSON /\ db' = db)
        \/ exists blob, json_Marshal jm c = Some blob
             /\ db_Put db ("comnodesnap-" +:+ hash_bytes (com_Hash c)) blob = (Some e, db')).
Proof.
  intros Hdb Hjc Hjm. split; [|split; [|split]].
  - intros db'. unfold CanNodeSnap_Store.
    destruct (json_Marshal jc s) as [blob|] eqn:Hm; [|discriminate].
    intros Hput. destruct (Hdb _ _ _ _ Hput) as [Hget Hother]. split; [|split].
    + unfold LoadCanNodeSnap. rewrite Hget, (Hjc _ _ Hm). reflexivity.
    + intros h. unfold LoadComNodeSnap. rewrite Hother; [reflexivity|].
      intros Heq. symmetry in Heq. exact (snapshot_keys_apart _ _ Heq).
    + intros h Hh Hs Hne. unfold LoadCanNodeSnap. rewrite Hother; [reflexivity|].
      intros Heq. apply Hne. apply hash_bytes_inj; try assumption.
      exact (string_app_inv_head _ _ _ Heq).
  - intros db'. unfold ComNodeSnap_Store.
    destruct (json_Marshal jm c) as [blob|] eqn:Hm; [|discriminate].
    intros Hput. destruct (Hdb _ _ _ _ Hput) as [Hget Hother]. split; [|split].
    + unfold LoadComNodeSnap. rewrite Hget, (Hjm _ _ Hm). reflexivity.
    + intros h. unfold LoadCanNodeSnap. rewrite Hother; [reflexivity|].
      apply snapshot_keys_apart.
    + intros h Hh Hs Hne. unfold LoadComNodeSnap. rewrite Hother; [reflexivity|].
      intros Heq. apply Hne. apply hash_bytes_inj; try assumption.
      exact (string_app_inv_head _ _ _ Heq).
  - intros e db'. unfold CanNodeSnap_Store.
    destruct (json_Marshal jc s) as [blob|].
    + intros Hput. right. exists blob. split; [reflexivity | exact Hput].
    + intros [= <- <-]. left. auto.
  - intros e db'. unfold ComNodeSnap_Store.
    destruct (json_Marshal jm c) as [blob|].
    + intros Hput. right. exists blob. split; [reflexivity | exact Hput].
    + intros [= <- <-]. left. auto.
Qed.
End Snapshots.

Lemma json_single_faithful s0 : json_faithful (json_single s0).
Proof.
  intros s blob. cbn. destruct s as [n h], s0 as [n0 h0]. cbn.
  destruct (bool_decide (n = n0 /\ h = h0)) eqn:Hd; [|discriminate].
  apply bool_decide_eq_true in Hd as [-> ->]. intros [= <-]. reflexivity.
Qed.

Lemma snapshot_store_load_witness :
  LoadCanNodeSnap (json_single (mkCanNodeSnap 7 99))
    (snd (CanNodeSnap_Store (json_single (mkCanNodeSnap 7 99)) (mkCanNodeSnap 7 99)
            (∅ : gmap string string))) 99
  = inl (mkCanNodeSnap 7 99).
Proof.
  refine (proj1 (proj1 (snapshot_store_load (json_single (mkCanNodeSnap 7 99))
                          (mkJsonCodec ComNodeSnap (fun _ => None) (fun _ => None))
                          (mkCanNodeSnap 7 99) (mkComNodeSnap 0 0 ∅)
                          (∅ : gmap string string)
                          MemDb_lawful (json_single_faithful _) _) _ eq_refl)).
  intros s blob Habs. discriminate.
Defined.

(** On a database that takes no writes, [Store] returns the error of
    [Put]. *)
Example snapshot_store_put_fails :
  fst (CanNodeSnap_Store (json_single (mkCanNodeSnap 7 99)) (mkCanNodeSnap 7 99)
         (mkReadOnlyDb ∅))
  = Some (errDb "read-only").
Proof. reflexivity. Qed.

(** ** Repeated failures of fast sync *)

Lemma syn_fails_step env s p hash td lock :
  env_fails_in_sync env p ->
  synchroniseMock s = None -> synchronising s = 0 ->
  peers s !! id p = Some p -> fsPivotLock s = Some lock ->
  0 <= fsPivotFails s < 2 ^ 31 ->
  let s' := snd (syn env s (id p) hash td FastSync) in
  synchroniseMock s' = None /\ synchronising s' = 0
  /\ peers s' !! id p = Some p /\ fsPivotLock s' = Some lock
  /\ mode s' = (if fsPivotFails s >=? fsCriticalTrials then FullSync else FastSync)
  /\ fsPivotFails s'
     = (if fsPivotFails s >=? fsCriticalTrials then fsPivotFails s else fsPivotFails s + 1).
Proof.
  intros (Hv & Hh & Ha & Hsp) Hmock Hsyn Hp Hlock Hf. cbv zeta.
  unfold syn. rewrite Hmock, Hsyn. cbn [Z.eqb negb]. cbv zeta.
  destruct (syn_enter_fields s (id p) FastSync) as (Hl1 & Hf1 & Hp1 & _ & _ & Hmode1).
  assert (Hm1 : synchroniseMock (syn_enter s (id p) FastSync) = synchroniseMock s).
  { unfold syn_enter. destruct (notified _ =? 0); reflexivity. }
  set (s1 := syn_enter s (id p) FastSync) in *.
  unfold peers_Peer. rewrite Hp1, Hp.
  unfold syncWithPeer. rewrite Hv.
  destruct (Hh s1) as [latest ->]. destruct (Ha s1 (Uint64 (Number latest))) as [origin ->].
  cbv zeta.
  set (s1' := set_syncStats _ _ s1).
  destruct (syncWithPeer_pivot s1' (pivotOffset env) (Uint64 (Number latest)) origin)
    as [o pv].
  set (s2 := set_sch_prepared _ s1').
  destruct (Hsp s2 (u64 (o + 1)) td latest) as (He & Hm3 & Hl3 & Hf3 & Hp3 & Hk3).
  destruct (env_spawnSync env s2 p (u64 (o + 1)) td latest) as [err s3].
  cbn [fst snd] in He, Hm3, Hl3, Hf3, Hp3, Hk3.
  destruct err as [e|]; [|contradiction].
  assert (Hm2 : mode s2 = mode s1) by reflexivity.
  assert (Hl2 : fsPivotLock s2 = fsPivotLock s1) by reflexivity.
  assert (Hf2 : fsPivotFails s2 = fsPivotFails s1) by reflexivity.
  assert (Hp2 : peers s2 = peers s1) by reflexivity.
  assert (Hk2 : synchroniseMock s2 = synchroniseMock s1) by reflexivity.
  rewrite Hm2 in Hm3. rewrite Hl2, Hl1, Hlock in Hl3. rewrite Hf2, Hf1 in Hf3.
  rewrite Hp2, Hp1 in Hp3. rewrite Hk2, Hm1, Hmock in Hk3.
  rewrite Hmode1 in Hm3. unfold syn_mode in Hm3. rewrite Hl3.
  assert (Hexit : forall x, synchroniseMock (snd (syn_exit (Some e, x))) = synchroniseMock x
                            /\ synchronising (snd (syn_exit (Some e, x))) = 0
                            /\ peers (snd (syn_exit (Some e, x))) = peers x
                            /\ fsPivotLock (snd (syn_exit (Some e, x))) = fsPivotLock x
                            /\ mode (snd (syn_exit (Some e, x))) = mode x
                            /\ fsPivotFails (snd (syn_exit (Some e, x))) = fsPivotFails x).
  { intros x. unfold syn_exit, cancel. cbn [fst snd].
    destruct (cancelCh x); repeat split; reflexivity. }
  destruct (Z.geb_spec (fsPivotFails s) fsCriticalTrials) as [Hge|Hlt].
  - rewrite Hm3. destruct (Hexit s3) as (E1 & E2 & E3 & E4 & E5 & E6).
    rewrite E1, E2, E3, E4, E5, E6, Hk3, Hp3, Hl3, Hm3, Hf3, Hp. repeat split.
  - rewrite Hm3.
    destruct (Hexit (set_fsPivotFails (u32 (fsPivotFails s3 + 1)) s3))
      as (E1 & E2 & E3 & E4 & E5 & E6).
    rewrite E1, E2, E3, E4, E5, E6. cbn [set_fsPivotFails synchroniseMock peers
      fsPivotLock mode fsPivotFails].
    rewrite Hk3, Hp3, Hl3, Hm3, Hf3, Hp.
    assert (Hu : u32 (fsPivotFails s + 1) = fsPivotFails s + 1).
    { unfold u32. apply Z.mod_small.
      pose proof (eq_refl : 2 ^ 31 = 2147483648). pose proof (eq_refl : 2 ^ 32 = 4294967296).
      lia. }
    rewrite Hu. repeat split.
Qed.

(** X28. Fast sync gives way after [fsCriticalTrials] failures: when every
    session with a locked pivot gets as far as the workers and fails
    there, the first [fsCriticalTrials] sessions asked to run in fast mode
    do so and count one failure each, and every later one runs in full
    mode, the counter staying at [fsCriticalTrials]. *)
Theorem fast_sync_degrades env s p hash td lock n :
  env_fails_in_sync env p ->
  synchroniseMock s = None -> synchronising s = 0 ->
  peers s !! id p = Some p -> fsPivotLock s = Some lock ->
  fsPivotFails s = 0 ->
  let s' := syn_repeat env (S n) s (id p) hash td in
  fsPivotLock s' = Some lock
  /\ (Z.of_nat (S n) <= fsCriticalTrials ->
      mode s' = FastSync /\ fsPivotFails s' = Z.of_nat (S n))
  /\ (fsCriticalTrials < Z.of_nat (S n) ->
      mode s' = FullSync /\ fsPivotFails s' = fsCriticalTrials).
Proof.
  intros Henv Hmock Hsyn Hp Hlock Hf0. cbv zeta.
  assert (Hinv : forall k,
            let sk := syn_repeat env k s (id p) hash td in
            synchroniseMock sk = None /\ synchronising sk = 0
            /\ peers sk !! id p = Some p /\ fsPivotLock sk = Some lock
            /\ fsPivotFails sk = Z.min (Z.of_nat k) fsCriticalTrials
            /\ ((0 < k)%nat ->
                mode sk = if Z.of_nat k <=? fsCriticalTrials then FastSync else FullSync)).
  { induction k as [|k IH]; cbv zeta.
    - cbn [syn_repeat]. split; [exact Hmock|]. split; [exact Hsyn|].
      split; [exact Hp|]. split; [exact Hlock|].
      split; [rewrite Hf0; unfold fsCriticalTrials; lia|]. intros Hk. lia.
    - cbv zeta in IH. destruct IH as (I1 & I2 & I3 & I4 & I5 & _).
      cbn [syn_repeat].
      destruct (syn_fails_step env _ p hash td lock Henv I1 I2 I3 I4) as
        (S1 & S2 & S3 & S4 & S5 & S6).
      { rewrite I5. unfold fsCriticalTrials. pose proof (eq_refl : 2 ^ 31 = 2147483648).
        lia. }
      split; [exact S1|]. split; [exact S2|]. split; [exact S3|]. split; [exact S4|].
      rewrite S5, S6, I5. unfold fsCriticalTrials.
      destruct (Z.geb_spec (Z.min (Z.of_nat k) 10) 10);
        destruct (Z.leb_spec (Z.of_nat (S k)) 10); split; try lia; intros _;
        try reflexivity; lia. }
  destruct (Hinv (S n)) as (_ & _ & _ & H4 & H5 & H6). cbv zeta in H4, H5, H6.
  split; [exact H4|]. rewrite H5, (H6 ltac:(lia)). unfold fsCriticalTrials. split; intros Hn.
  - destruct (Z.leb_spec (Z.of_nat (S n)) 10); [|lia]. split; [reflexivity | lia].
  - destruct (Z.leb_spec (Z.of_nat (S n)) 10); [lia|]. split; [reflexivity | lia].
Qed.

Lemma env_timeout_fails p : version p >= 0 -> env_fails_in_sync env_timeout p.
Proof.
  intros Hv. split; [cbn; apply Z.ltb_ge; lia|]. split; [intros s; eexists; reflexivity|].
  split; [intros s h; eexists; reflexivity|].
  intros s o td latest. cbn. repeat split. discriminate.
Qed.

Lemma fast_sync_degrades_witness :
  let s := set_fsPivotLock (Some (mkHeader 5 5 0)) (newLightsync {["a" := peerA]}) in
  let s' := syn_repeat env_timeout 11 s "a" 0 0 in
  fsPivotLock s' = Some (mkHeader 5 5 0)
  /\ (Z.of_nat 11 <= fsCriticalTrials -> mode s' = FastSync /\ fsPivotFails s' = Z.of_nat 11)
  /\ (fsCriticalTrials < Z.of_nat 11 -> mode s' = FullSync /\ fsPivotFails s' = fsCriticalTrials).
Proof.
  cbv zeta.
  apply (fast_sync_degrades env_timeout
           (set_fsPivotLock (Some (mkHeader 5 5 0)) (newLightsync {["a" := peerA]}))
           peerA 0 0 (mkHeader 5 5 0) 10).
  - apply env_timeout_fails. vm_compute. discriminate.
  - reflexivity.
  - reflexivity.
  - vm_compute. reflexivity.
  - reflexivity.
  - reflexivity.
Defined.

(** ** [deliver] and the sessions *)

(** X29. [deliver] refuses every packet with [errNoSyncActive] before the
    first session; in a session it hands the packet on, waiting for room
    on the channel; and once [syn] has returned it never blocks: it
    returns [errNoSyncActive], or nil if the channel had room and the send
    won over the closed cancel channel. *)
Theorem deliver_sessions env s pid hash td m room send_first :
  (forall ps, deliver (newLightsync ps) room send_first = Some (Some errNoSyncActive))
  /\ deliver (syn_enter s pid m) room send_first = (if room then Some None else None)
  /\ (synchroniseMock s = None -> synchronising s = 0 ->
      exists r, deliver (snd (syn env s pid hash td m)) room send_first = Some r
        /\ (r = None -> room = true /\ send_first = true)
        /\ (room = false -> r = Some errNoSyncActive)).
Proof.
  split; [reflexivity|]. split.
  - unfold deliver, syn_enter. destruct (notified _ =? 0); reflexivity.
  - intros Hmock Hsyn. unfold syn. rewrite Hmock, Hsyn. cbn [Z.eqb negb]. cbv zeta.
    assert (Hexit : forall x,
              exists r, deliver (snd (syn_exit x)) room send_first = Some r
                /\ (r = None -> room = true /\ send_first = true)
                /\ (room = false -> r = Some errNoSyncActive)).
    { intros [e x]. unfold syn_exit, deliver, cancel. cbn [fst snd].
      destruct (cancelCh x) eqn:Hc; cbn; rewrite ?Hc.
      - eexists. split; [reflexivity|]. split; [discriminate | reflexivity].
      - destruct room, send_first; cbn; eexists; (split; [reflexivity|]);
          split; try discriminate; auto.
      - destruct room, send_first; cbn; eexists; (split; [reflexivity|]);
          split; try discriminate; auto. }
    destruct (peers_Peer (syn_enter s pid m) pid); apply Hexit.
Qed.

Lemma deliver_sessions_witness :
  exists r,
    deliver (snd (syn env0 (newLightsync {["a" := peerA]}) "a" 0 0 FullSync)) true false
    = Some r
    /\ (r = None -> true = true /\ false = true)
    /\ (true = false -> r = Some errNoSyncActive).
Proof.
  exact (proj2 (proj2 (deliver_sessions env0 (newLightsync {["a" := peerA]}) "a" 0 0
                         FullSync true false)) eq_refl eq_refl).
Defined.

(** ** [keepLive] *)

Lemma Slice_test_Some self ping n n' :
  Slice_test self ping n = Some n' <->
  n' = n /\ n_ID n <> n_ID self /\ ping n = true.
Proof.
  unfold Slice_test, NewNode. destruct n as [i r ip u t]. cbn.
  destruct (Z.eqb_spec i (n_ID self)) as [He|Hne].
  - split; [discriminate|]. intros (_ & Hn & _). contradiction.
  - destruct (ping _) eqn:Hp.
    + split; [intros [= <-]; auto | intros (-> & _); reflexivity].
    + split; [discriminate|]. intros (_ & _ & Habs). discriminate.
Qed.

Lemma filter_Permutation_bool {A} (f : A -> bool) (l l' : list A) :
  l ≡ₚ l' -> List.filter f l ≡ₚ List.filter f l'.
Proof.
  induction 1 as [|x l l' _ IH|x y l|l l' l'' _ IH1 _ IH2]; cbn [List.filter].
  - reflexivity.
  - destruct (f x); [constructor|]; exact IH.
  - destruct (f x), (f y); try reflexivity. apply perm_swap.
  - exact (Permutation_trans IH1 IH2).
Qed.

(** X30. After [keepLive] the members are nodes that were members before,
    have answered the ping and are not the slice's own node, and there are
    no more of them than were tested; when the members have ids of their
    own and every member is tested once, the members are exactly the former
    members that answer and are not the own node. *)
Theorem keepLive_spec self ping members tested :
  Forall (fun n => n ∈ members) tested ->
  (forall n, n ∈ keepLive self ping tested ->
     n ∈ members /\ n_ID n <> n_ID self /\ ping n = true)
  /\ (length (keepLive self ping tested) <= length tested)%nat
  /\ (NoDup (map n_ID members) -> tested ≡ₚ members ->
      keepLive self ping tested
      ≡ₚ List.filter (fun n => negb (n_ID n =? n_ID self) && ping n) members).
Proof.
  intros Hin. split; [|split].
  - intros n Hn. unfold keepLive in Hn. apply list_elem_of_omap in Hn as (m & Hm & Ht).
    apply Slice_test_Some in Ht as (-> & Hne & Hp).
    rewrite Forall_forall in Hin. auto.
  - unfold keepLive. clear. induction tested as [|n l IH]; [reflexivity|].
    cbn [omap list_omap length]. destruct (Slice_test self ping n); cbn [length]; lia.
  - intros _ Hperm.
    apply (fun H => Permutation_trans H (filter_Permutation_bool _ _ _ Hperm)).
    clear. unfold keepLive. induction tested as [|n l IH]; [reflexivity|].
    cbn [omap list_omap List.filter]. unfold Slice_test at 1, NewNode.
    destruct (Z.eqb_spec (n_ID n) (n_ID self)); cbn [negb andb]; [exact IH|].
    destruct (ping n); [|exact IH]. destruct n. cbn. constructor. exact IH.
Qed.

Lemma keepLive_spec_witness :
  keepLive (mkNode 1 0 0 0 0) (fun n => n_ID n <? 4)
    [mkNode 3 0 0 0 0; mkNode 1 0 0 0 0; mkNode 5 0 0 0 0; mkNode 2 0 0 0 0]
  ≡ₚ List.filter (fun n => negb (n_ID n =? 1) && (n_ID n <? 4))
       [mkNode 1 0 0 0 0; mkNode 2 0 0 0 0; mkNode 3 0 0 0 0; mkNode 5 0 0 0 0].
Proof.
  refine (proj2 (proj2 (keepLive_spec (mkNode 1 0 0 0 0) (fun n => n_ID n <? 4)
            [mkNode 1 0 0 0 0; mkNode 2 0 0 0 0; mkNode 3 0 0 0 0; mkNode 5 0 0 0 0]
            [mkNode 3 0 0 0 0; mkNode 1 0 0 0 0; mkNode 5 0 0 0 0; mkNode 2 0 0 0 0] _)) _ _).
  - repeat constructor.
  - apply (bool_decide_unpack _). vm_compute. exact I.
  - symmetry.
    apply (Permutation_cons_app [mkNode 3 0 0 0 0] [mkNode 5 0 0 0 0; mkNode 2 0 0 0 0]).
    apply (Permutation_cons_app [mkNode 3 0 0 0 0; mkNode 5 0 0 0 0] []).
    reflexivity.
Defined.
